(** * email_reply_parser: a shallow embedding of [email_reply_parser/__init__.py]

    The development follows the source file top to bottom:

    - Python strings and the [str] methods the parser calls
      ([strip], [split], [join], [replace], slicing by [[::-1]]);
    - the part of Python's [re] module the parser relies on: a backtracking
      matcher for the constructs occurring in the pattern tables,
      [re.match], [re.search], and [Pattern.sub] together with the parsing
      of its replacement template;
    - the classes [Fragment], [EmailMessage] and [EmailReplyParser], with
      the object state passed explicitly and exceptions as a result type;
    - the properties of the parser.

    Characters are code points below 256 (the type [ascii]); the character
    classes [\s] and [\w] and the whitespace of [str.strip] are those of
    CPython 3 on that range, and replacement templates are read as
    CPython 3.12 reads them. *)

From Stdlib Require Import List Ascii Bool Arith PeanoNat Lia.
Import ListNotations.

Set Implicit Arguments.

(* ================================================================= *)
(** * Strings *)

Module Str.

(** A Python string is the list of its characters; string literals are
    read as such lists. *)
Abbreviation str := (list ascii) (only parsing).

Definition of_bytes (l : list Byte.byte) : str := map ascii_of_byte l.
Definition to_bytes (s : str) : list Byte.byte := map byte_of_ascii s.

Declare Scope str_scope.
Delimit Scope str_scope with str.
String Notation str of_bytes to_bytes : str_scope.

Definition chr (n : nat) : ascii := ascii_of_nat n.
Definition ord (c : ascii) : nat := nat_of_ascii c.

(** ['\n'], ['\r'] and the backslash. *)
Definition LF : ascii := chr 10.
Definition CR : ascii := chr 13.
Definition BSL : ascii := chr 92.

(** [str.isspace] on one character: the code points below 256 that
    CPython's [Py_UNICODE_ISSPACE] accepts. *)
Definition isspace (c : ascii) : bool :=
  let n := ord c in
  ((9 <=? n) && (n <=? 13)) || ((28 <=? n) && (n <=? 32))
  || (n =? 133) || (n =? 160).

Definition isdigit (c : ascii) : bool :=
  let n := ord c in (48 <=? n) && (n <=? 57).

Definition isoctdigit (c : ascii) : bool :=
  let n := ord c in (48 <=? n) && (n <=? 55).

Definition is_ascii_letter (c : ascii) : bool :=
  let n := ord c in
  ((65 <=? n) && (n <=? 90)) || ((97 <=? n) && (n <=? 122)).

(** [str.isalnum] on one character, for the code points below 256. *)
Definition isalnum (c : ascii) : bool :=
  let n := ord c in
  isdigit c || is_ascii_letter c
  || (n =? 170) || (n =? 178) || (n =? 179) || (n =? 181)
  || (n =? 185) || (n =? 186) || ((188 <=? n) && (n <=? 190))
  || ((192 <=? n) && (n <=? 214)) || ((216 <=? n) && (n <=? 246))
  || (248 <=? n).

(** [s.lstrip()], [s.rstrip()], [s.strip()] *)
Fixpoint lstrip (s : str) : str :=
  match s with
  | c :: s' => if isspace c then lstrip s' else s
  | [] => []
  end.

Definition rstrip (s : str) : str := rev (lstrip (rev s)).

Definition strip (s : str) : str := rstrip (lstrip s).

(** [s[::-1]] *)
Definition reversed (s : str) : str := rev s.

(** [s.split(sep)] for a separator of one character. *)
Fixpoint split (sep : ascii) (s : str) : list str :=
  match s with
  | [] => [[]]
  | c :: s' =>
      if Ascii.eqb c sep then [] :: split sep s'
      else match split sep s' with
           | l :: ls => (c :: l) :: ls
           | [] => [[c]]
           end
  end.

(** [sep.join(ls)] *)
Fixpoint join (sep : str) (ls : list str) : str :=
  match ls with
  | [] => []
  | l :: ls' =>
      match ls' with
      | [] => l
      | _ :: _ => l ++ sep ++ join sep ls'
      end
  end.

Fixpoint startswith (p s : str) : bool :=
  match p, s with
  | [], _ => true
  | a :: p', b :: s' => Ascii.eqb a b && startswith p' s'
  | _ :: _, [] => false
  end.

(** [s.replace(old, new)] for a non-empty [old]: the occurrences of [old]
    are found from left to right and do not overlap.  [skip] counts the
    characters of an occurrence that remain to be passed over. *)
Fixpoint replace_from (old new s : str) (skip : nat) : str :=
  match s with
  | [] => []
  | c :: s' =>
      match skip with
      | S k => replace_from old new s' k
      | O =>
          if startswith old s
          then new ++ replace_from old new s' (length old - 1)
          else c :: replace_from old new s' 0
      end
  end.

Definition replace (old new s : str) : str := replace_from old new s 0.

(** [s[a:b]] *)
Definition slice (s : str) (a b : nat) : str := firstn (b - a) (skipn a s).

(** A string without whitespace at either end. *)
Definition trimmed (s : str) : Prop :=
  (forall c t, s = c :: t -> isspace c = false)
  /\ (forall c t, s = t ++ [c] -> isspace c = false).

(** No occurrence of [old] in [s]. *)
Fixpoint free_of (old s : str) : bool :=
  negb (startswith old s)
  && match s with
     | [] => true
     | _ :: s' => free_of old s'
     end.

End Str.

Import Str.
Open Scope str_scope.

(* ================================================================= *)
(** * Exceptions *)

Inductive exn : Type :=
| re_error
| IndexError
| AttributeError
| TypeError.

Inductive result (A : Type) : Type :=
| Ok (a : A)
| Raise (e : exn).

Arguments Ok {A} a.
Arguments Raise {A} e.

Definition bind {A B : Type} (x : result A) (f : A -> result B) : result B :=
  match x with
  | Ok a => f a
  | Raise e => Raise e
  end.

Notation "x <- e1 ;; e2" := (bind e1 (fun x => e2))
  (at level 61, e1 at next level, right associativity).

(* ================================================================= *)
(** * Regular expressions *)

Module Re.

(** The syntax of the patterns that occur in the parser's tables. *)
Inductive regex : Type :=
| Chr (c : ascii)                 (* a literal character *)
| Dot                             (* .   *)
| Space                           (* \s  *)
| Word                            (* \w  *)
| OneOf (cs : list ascii)         (* [...] *)
| Bol                             (* ^   *)
| Eol                             (* $   *)
| Eps                             (* the empty pattern *)
| Seq (r1 r2 : regex)             (* r1r2 *)
| Alt (r1 r2 : regex)             (* r1|r2 *)
| Rep (greedy : bool) (lo : nat) (hi : option nat) (r : regex)
                                  (* r{lo,hi}, r{lo,} and the lazy forms *)
| Grp (n : nat) (r : regex).      (* (r), the n-th capturing group *)

Fixpoint Lit (s : str) : regex :=
  match s with
  | [] => Eps
  | [c] => Chr c
  | c :: s' => Seq (Chr c) (Lit s')
  end.

Definition Star (r : regex) : regex := Rep true 0 None r.
Definition Plus (r : regex) : regex := Rep true 1 None r.
Definition Opt (r : regex) : regex := Rep true 0 (Some 1) r.
Definition LazyStar (r : regex) : regex := Rep false 0 None r.

Fixpoint Seqs (rs : list regex) : regex :=
  match rs with
  | [] => Eps
  | [r] => r
  | r :: rs' => Seq r (Seqs rs')
  end.

(** [Pattern.groups]: the number of capturing groups. *)
Fixpoint groups_of (r : regex) : nat :=
  match r with
  | Seq r1 r2 | Alt r1 r2 => Nat.max (groups_of r1) (groups_of r2)
  | Rep _ _ _ r' => groups_of r'
  | Grp n r' => Nat.max n (groups_of r')
  | _ => 0
  end.

Record flags : Type := mkflags { MULTILINE : bool; DOTALL : bool }.

Definition no_flags : flags := mkflags false false.

(** The position of the matcher in the subject string: the index, the
    character before it and the characters from it on. *)
Record cursor : Type := mkcursor {
  c_pos : nat;
  c_prev : option ascii;
  c_rest : str
}.

(** The spans of the groups matched so far, the latest first. *)
Definition captures : Type := list (nat * (nat * nat)).

Fixpoint span_of (n : nat) (cp : captures) : option (nat * nat) :=
  match cp with
  | [] => None
  | (m, sp) :: cp' => if n =? m then Some sp else span_of n cp'
  end.

Definition eat (p : ascii -> bool) (cur : cursor) : option cursor :=
  match c_rest cur with
  | c :: rest =>
      if p c then Some (mkcursor (S (c_pos cur)) (Some c) rest) else None
  | [] => None
  end.

Definition at_bol (fl : flags) (cur : cursor) : bool :=
  match c_prev cur with
  | None => true
  | Some c => MULTILINE fl && Ascii.eqb c LF
  end.

Definition at_eol (fl : flags) (cur : cursor) : bool :=
  match c_rest cur with
  | [] => true
  | c :: rest =>
      Ascii.eqb c LF
      && (MULTILINE fl || match rest with [] => true | _ :: _ => false end)
  end.

Definition orelse {A : Type} (x y : option A) : option A :=
  match x with
  | Some a => Some a
  | None => y
  end.

Definition below (i : nat) (hi : option nat) : bool :=
  match hi with
  | None => true
  | Some h => i <? h
  end.

(** The backtracking matcher, in continuation-passing style: [run fl r cur
    cp k] tries the ways [r] can match at [cur] in the order in which the
    [re] module tries them, and hands the position reached to [k] until
    [k] accepts one.  A repetition takes a further iteration only when
    the iteration consumed a character, which every repeated pattern of
    the tables below does. *)
Fixpoint run (fl : flags) (r : regex) (cur : cursor) (cp : captures)
    (k : cursor -> captures -> option (cursor * captures))
    : option (cursor * captures) :=
  let one (p : ascii -> bool) :=
    match eat p cur with
    | Some cur' => k cur' cp
    | None => None
    end in
  match r with
  | Chr c => one (Ascii.eqb c)
  | Dot => one (fun c => DOTALL fl || negb (Ascii.eqb c LF))
  | Space => one isspace
  | Word => one (fun c => isalnum c || Ascii.eqb c "_")
  | OneOf cs => one (fun c => existsb (Ascii.eqb c) cs)
  | Bol => if at_bol fl cur then k cur cp else None
  | Eol => if at_eol fl cur then k cur cp else None
  | Eps => k cur cp
  | Seq r1 r2 => run fl r1 cur cp (fun cur' cp' => run fl r2 cur' cp' k)
  | Alt r1 r2 => orelse (run fl r1 cur cp k) (run fl r2 cur cp k)
  | Grp n r' =>
      run fl r' cur cp
        (fun cur' cp' => k cur' ((n, (c_pos cur, c_pos cur')) :: cp'))
  | Rep greedy lo hi r' =>
      (fix iter (fuel i : nat) (cur : cursor) (cp : captures)
         : option (cursor * captures) :=
         let stop := if lo <=? i then k cur cp else None in
         let more :=
           match fuel with
           | O => None
           | S fuel' =>
               if below i hi
               then run fl r' cur cp
                      (fun cur' cp' =>
                         if c_pos cur <? c_pos cur'
                         then iter fuel' (S i) cur' cp'
                         else None)
               else None
           end in
         if greedy then orelse more stop else orelse stop more)
        (length (c_rest cur)) 0 cur cp
  end.

(** A match object. *)
Record Match : Type := mkMatch {
  m_string : str;
  m_start : nat;
  m_end : nat;
  m_captures : captures;
  m_ngroups : nat
}.

(** [m.group(n)] for [n >= 1]; [None] when the group took no part. *)
Definition group (m : Match) (n : nat) : option str :=
  match span_of n (m_captures m) with
  | Some (a, b) => Some (slice (m_string m) a b)
  | None => None
  end.

(** [m.group(0)] *)
Definition group0 (m : Match) : str := slice (m_string m) (m_start m) (m_end m).

(** [m.groups()] *)
Definition groups (m : Match) : list (option str) :=
  map (fun n => group m n) (seq 1 (m_ngroups m)).

(** One attempt at one position.  With [must_advance] an empty match is
    refused, and the matcher backtracks for a longer one. *)
Definition match_at (fl : flags) (r : regex) (text : str)
    (must_advance : bool) (cur : cursor) : option Match :=
  match run fl r cur []
          (fun cur' cp' =>
             if must_advance && (c_pos cur' =? c_pos cur) then None
             else Some (cur', cp')) with
  | Some (cur', cp') =>
      Some (mkMatch text (c_pos cur) (c_pos cur') cp' (groups_of r))
  | None => None
  end.

(** [re.match(r, text, flags)] *)
Definition re_match (fl : flags) (r : regex) (text : str) : option Match :=
  match_at fl r text false (mkcursor 0 None text).

Fixpoint search_from (fl : flags) (r : regex) (text : str)
    (pos : nat) (prev : option ascii) (rest : str) : option Match :=
  match match_at fl r text false (mkcursor pos prev rest) with
  | Some m => Some m
  | None =>
      match rest with
      | [] => None
      | c :: rest' => search_from fl r text (S pos) (Some c) rest'
      end
  end.

(** [re.search(r, text, flags)]: the match at the leftmost position. *)
Definition re_search (fl : flags) (r : regex) (text : str) : option Match :=
  search_from fl r text 0 None text.

End Re.

(* ================================================================= *)
(** * Replacement templates and [Pattern.sub] *)

Module Template.

Import Re.

(** A parsed replacement string: literal characters and references to
    groups. *)
Inductive item : Type :=
| Literal (c : ascii)
| Group (index : nat).

Definition digit_val (c : ascii) : nat := ord c - 48.

Fixpoint int_of (base : nat) (acc : nat) (ds : str) : nat :=
  match ds with
  | [] => acc
  | d :: ds' => int_of base (base * acc + digit_val d) ds'
  end.

(** [str.isidentifier] on the code points below 256. *)
Definition is_xid_start (c : ascii) : bool :=
  let n := ord c in
  is_ascii_letter c || (n =? 95) || (n =? 170) || (n =? 181) || (n =? 186)
  || ((192 <=? n) && (n <=? 214)) || ((216 <=? n) && (n <=? 246))
  || (248 <=? n).

Definition is_xid_continue (c : ascii) : bool :=
  is_xid_start c || isdigit c || (ord c =? 183).

Definition isidentifier (name : str) : bool :=
  match name with
  | [] => false
  | c :: name' => is_xid_start c && forallb is_xid_continue name'
  end.

(** The escapes of [sre_parse.ESCAPES]: [\a \b \f \n \r \t \v \\]. *)
Definition escape_of (c : ascii) : option ascii :=
  match ord c with
  | 97 => Some (chr 7)
  | 98 => Some (chr 8)
  | 102 => Some (chr 12)
  | 110 => Some (chr 10)
  | 114 => Some (chr 13)
  | 116 => Some (chr 9)
  | 118 => Some (chr 11)
  | 92 => Some (chr 92)
  | _ => None
  end.

(** [addgroup(index, pos)] of [parse_template] *)
Definition addgroup (ngroups index : nat) (tl : result (list item))
    : result (list item) :=
  if ngroups <? index then Raise re_error
  else (items <- tl ;; Ok (Group index :: items)).

Definition addliteral (c : ascii) (tl : result (list item))
    : result (list item) :=
  items <- tl ;; Ok (Literal c :: items).

(** The name of [\g<name>], once [>] is reached.  Names are not defined by
    any pattern of this program, so that an identifier is an unknown
    group. *)
Definition named_group (ngroups : nat) (name : str)
    (tl : result (list item)) : result (list item) :=
  match name with
  | [] => Raise re_error
  | _ :: _ =>
      if forallb isdigit name then addgroup ngroups (int_of 10 0 name) tl
      else if isidentifier name then Raise IndexError
      else Raise re_error
  end.

(** [sre_parse.parse_template(source, pattern)]: the replacement string is
    read token by token, a token being a character or a backslash with
    the character after it. *)
Fixpoint parse_template (ngroups : nat) (source : str)
    : result (list item) :=
  match source with
  | [] => Ok []
  | c :: s1 =>
      if negb (Ascii.eqb c BSL) then addliteral c (parse_template ngroups s1)
      else
        match s1 with
        | [] => Raise re_error                    (* bad escape (end of pattern) *)
        | d :: s2 =>
            if Ascii.eqb d "g" then
              match s2 with
              | "<"%char :: s3 =>
                  (fix getuntil (name t : str) : result (list item) :=
                     match t with
                     | [] => Raise re_error       (* missing >, unterminated name *)
                     | x :: t' =>
                         if Ascii.eqb x ">"
                         then match t' with
                              | [b] =>
                                  (* the tokenizer meets a backslash that
                                     ends the string before the name is
                                     looked up *)
                                  if Ascii.eqb b BSL then Raise re_error
                                  else named_group ngroups name
                                         (parse_template ngroups t')
                              | _ => named_group ngroups name
                                       (parse_template ngroups t')
                              end
                         else if Ascii.eqb x BSL
                         then match t' with
                              | [] => Raise re_error
                              | y :: t'' => getuntil (name ++ [x; y]) t''
                              end
                         else getuntil (name ++ [x]) t'
                     end) [] s3
              | _ => Raise re_error               (* missing < *)
              end
            else if Ascii.eqb d "0" then
              match s2 with
              | o1 :: s3 =>
                  if isoctdigit o1 then
                    match s3 with
                    | o2 :: s4 =>
                        if isoctdigit o2
                        then addliteral (chr (int_of 8 0 [o1; o2] mod 256))
                               (parse_template ngroups s4)
                        else addliteral (chr (int_of 8 0 [o1]))
                               (parse_template ngroups s3)
                    | [] => addliteral (chr (int_of 8 0 [o1]))
                              (parse_template ngroups s3)
                    end
                  else addliteral (chr 0) (parse_template ngroups s2)
              | [] => addliteral (chr 0) (parse_template ngroups s2)
              end
            else if isdigit d then
              match s2 with
              | d2 :: s3 =>
                  if isdigit d2 then
                    match s3 with
                    | d3 :: s4 =>
                        if isoctdigit d && isoctdigit d2 && isoctdigit d3
                        then
                          let v := int_of 8 0 [d; d2; d3] in
                          if 255 <? v then Raise re_error
                          else addliteral (chr v) (parse_template ngroups s4)
                        else addgroup ngroups (int_of 10 0 [d; d2])
                               (parse_template ngroups s3)
                    | [] => addgroup ngroups (int_of 10 0 [d; d2])
                              (parse_template ngroups s3)
                    end
                  else addgroup ngroups (int_of 10 0 [d])
                         (parse_template ngroups s2)
              | [] => addgroup ngroups (int_of 10 0 [d])
                        (parse_template ngroups s2)
              end
            else
              match escape_of d with
              | Some e => addliteral e (parse_template ngroups s2)
              | None =>
                  if is_ascii_letter d then Raise re_error   (* bad escape *)
                  else addliteral c (addliteral d (parse_template ngroups s2))
              end
        end
  end.

(** [m.expand]: a group that took no part in the match gives the empty
    string. *)
Definition expand_item (m : Match) (it : item) : str :=
  match it with
  | Literal c => [c]
  | Group O => group0 m
  | Group (S n) =>
      match group m (S n) with
      | Some s => s
      | None => []
      end
  end.

Definition expand (tpl : list item) (m : Match) : str :=
  concat (map (expand_item m) tpl).

(** The loop of [Pattern.sub]: the text is scanned from left to right,
    every match found is replaced by the expanded template and the search
    resumes where the match ended.  [skip] counts the characters of the
    current match that remain to be passed over; after an empty match the
    next one at the same place has to be non-empty. *)
Fixpoint sub_scan (fl : flags) (r : regex) (tpl : list item) (text : str)
    (pos : nat) (prev : option ascii) (rest : str) (skip : nat) : str :=
  match skip with
  | S k =>
      match rest with
      | [] => []
      | c :: rest' => sub_scan fl r tpl text (S pos) (Some c) rest' k
      end
  | O =>
      let cur := mkcursor pos prev rest in
      let resume (e : nat) : str :=
        match rest with
        | [] => []
        | c :: rest' =>
            sub_scan fl r tpl text (S pos) (Some c) rest' (e - pos - 1)
        end in
      let copy : str :=
        match rest with
        | [] => []
        | c :: rest' => c :: sub_scan fl r tpl text (S pos) (Some c) rest' 0
        end in
      match match_at fl r text false cur with
      | Some m =>
          expand tpl m ++
          (if m_end m =? pos
           then match match_at fl r text true cur with
                | Some m' => expand tpl m' ++ resume (m_end m')
                | None => copy
                end
           else resume (m_end m))
      | None => copy
      end
  end.

(** [re.compile(r, flags).sub(repl, text)] *)
Definition re_sub (fl : flags) (r : regex) (repl text : str) : result str :=
  tpl <- parse_template (groups_of r) repl ;;
  Ok (sub_scan fl r tpl text 0 None text 0).

End Template.

Import Re.

Definition is_some {A : Type} (x : option A) : bool :=
  match x with
  | Some _ => true
  | None => false
  end.

(* ================================================================= *)
(** * class Fragment *)

Module Fragment.

Record t : Type := mk {
  signature : bool;
  hidden : bool;
  quoted : bool;
  forwarded : bool;
  _content : option str;
  lines : option (list str)
}.

Definition __init__ (quoted forwarded : bool) (first_line : str) : t :=
  {| signature := false;
     hidden := false;
     quoted := quoted;
     forwarded := forwarded;
     _content := None;
     lines := Some [first_line] |}.

Definition set_signature (b : bool) (f : t) : t :=
  mk b (hidden f) (quoted f) (forwarded f) (_content f) (lines f).

Definition set_hidden (b : bool) (f : t) : t :=
  mk (signature f) b (quoted f) (forwarded f) (_content f) (lines f).

Definition set_forwarded (b : bool) (f : t) : t :=
  mk (signature f) (hidden f) (quoted f) b (_content f) (lines f).

Definition set_lines (ls : option (list str)) (f : t) : t :=
  mk (signature f) (hidden f) (quoted f) (forwarded f) (_content f) ls.

(** [finish]: the lines, gathered bottom-up, are put back in order and
    joined; [lines] is dropped. *)
Definition finish (self : t) : result t :=
  match lines self with
  | None => Raise AttributeError
  | Some ls =>
      Ok (mk (signature self) (hidden self) (quoted self) (forwarded self)
            (Some (join [LF] (rev ls))) None)
  end.

(** The property [content]. *)
Definition content (self : t) : option str := _content self.

End Fragment.

(* ================================================================= *)
(** * class EmailMessage *)

Module EmailMessage.

(** [SIG_REGEX] (source line 42): two alternatives, each a group; the
    second one repeats its inner group one to three times. *)
Definition SIG_REGEX : regex :=
  Alt (Grp 1 (Alt (Lit "--") (Alt (Lit "__") (Seq (Chr "-") Word))))
      (Grp 2 (Seqs [Bol; Lit "Sent from my ";
                    Rep true 1 (Some 3)
                      (Grp 3 (Seq (Plus Word) (Star Space)))])).

(** [QUOTE_HDR_REGEXS] (source lines 44-49), written for reversed lines:
    [^:etorw.*nO], [^:.*beirhcs.*mA] and the French one, in which [\xa9]
    and [\xc3] are the characters 169 and 195. *)
Definition QUOTE_HDR_REGEXS : list regex :=
  [ Seqs [Bol; Lit ":etorw"; Star Dot; Lit "nO"];
    Seqs [Bol; Chr ":"; Star Dot; Lit "beirhcs"; Star Dot; Lit "mA"];
    Seqs [Bol; Chr ":"; Star Space; Lit "tirc"; Chr (chr 169);
          Chr (chr 195); Star Dot; Lit "eL"] ].

(** The optional group 2 of dashes and whitespace with which each pattern
    of [MULTI_QUOTE_HDR_REGEXS] begins. *)
Definition dashes : regex :=
  Opt (Grp 2 (Seq (Plus (Chr "-")) (Star Space))).

(** [MULTI_QUOTE_HDR_REGEXS] (source lines 50-55): group 1 spans each
    pattern; [.*?] is the lazy repetition. *)
Definition MULTI_QUOTE_HDR_REGEXS : list regex :=
  [ Grp 1 (Seqs [dashes; Lit "On"; Space; LazyStar Dot; Lit "wrote:"]);
    Grp 1 (Seqs [dashes; Lit "Am"; Space; LazyStar Dot; Lit "schrieb";
                 Star Dot; Chr ":"]);
    Grp 1 (Seqs [dashes; Lit "Le"; Space; LazyStar Dot; Chr (chr 195);
                 Chr (chr 169); Lit "crit"; Star Space; Chr ":"]) ].

(** [QUOTED_REGEX] (source line 56): [(>+)]. *)
Definition QUOTED_REGEX : regex := Grp 1 (Plus (Chr ">")).

(** [FORWARD_MESSAGES] (source lines 57-68). *)
Definition FORWARD_MESSAGES : list regex :=
  [ Lit "Begin forwarded message";
    Seqs [Lit "Forwarded "; OneOf ["m"; "M"]%char; Lit "essage"];
    Seqs [Lit "Original "; OneOf ["m"; "M"]%char; Lit "essage"] ].

(** [FORWARD_REGEXS] (source lines 69-70): every phrase [p] between two
    runs of three or more dashes, [^---+ ?p.* ?---+$], then every phrase
    followed by a colon, [^p:$]. *)
Definition FORWARD_REGEXS : list regex :=
  map (fun p => Seqs [Bol; Lit "--"; Plus (Chr "-"); Opt (Chr " "); p;
                      Star Dot; Opt (Chr " "); Lit "--"; Plus (Chr "-");
                      Eol])
      FORWARD_MESSAGES
  ++ map (fun p => Seqs [Bol; p; Chr ":"; Eol]) FORWARD_MESSAGES.

Record t : Type := mk {
  fragments : list Fragment.t;
  fragment : option Fragment.t;
  text : str;
  found_visible : bool;
  lines : list str
}.

Definition set_fragments (fs : list Fragment.t) (self : t) : t :=
  mk fs (fragment self) (text self) (found_visible self) (lines self).

Definition set_fragment (f : option Fragment.t) (self : t) : t :=
  mk (fragments self) f (text self) (found_visible self) (lines self).

Definition set_text (s : str) (self : t) : t :=
  mk (fragments self) (fragment self) s (found_visible self) (lines self).

Definition set_found_visible (b : bool) (self : t) : t :=
  mk (fragments self) (fragment self) (text self) b (lines self).

Definition set_lines (ls : list str) (self : t) : t :=
  mk (fragments self) (fragment self) (text self) (found_visible self) ls.

Definition __init__ (text : str) : t :=
  {| fragments := [];
     fragment := None;
     text := replace [CR; LF] [LF] text;
     found_visible := false;
     lines := [] |}.

(** [_match_any]: the patterns are tried in order up to the first that
    matches; the result is the match and the pattern tried last. *)
Fixpoint _match_any_loop (regexs : list regex) (text : str)
    (options : option flags) (search : bool) (tried : option regex)
    : option Match * option regex :=
  match regexs with
  | [] => (None, tried)
  | regex :: regexs' =>
      let fl := match options with Some fl => fl | None => no_flags end in
      let m := if search then re_search fl regex text
               else re_match fl regex text in
      match m with
      | Some _ => (m, Some regex)
      | None => _match_any_loop regexs' text options search (Some regex)
      end
  end.

Definition _match_any (regexs : list regex) (text : str)
    (options : option flags) (search : bool)
    : option Match * option regex :=
  _match_any_loop regexs text options search None.

Definition is_quote_header (line : str) : bool :=
  is_some (fst (_match_any QUOTE_HDR_REGEXS (reversed line) None false)).

Definition has_quote_header (text : str) : option Match * option regex :=
  _match_any MULTI_QUOTE_HDR_REGEXS text (Some (mkflags true true)) true.

Definition is_forward_header (line : str) : option Match :=
  fst (_match_any FORWARD_REGEXS line None false).

Definition _finish_fragment (self : t) : result t :=
  match fragment self with
  | Some f =>
      f <- Fragment.finish f ;;
      st <- (if negb (found_visible self) then
               c <- (if Fragment.quoted f then Ok true
                     else if Fragment.signature f then Ok true
                     else match Fragment.content f with
                          | Some s => Ok (length (strip s) =? 0)
                          | None => Raise AttributeError
                          end) ;;
               if c then Ok (Fragment.set_hidden true f, self)
               else Ok (f, set_found_visible true self)
             else Ok (f, self)) ;;
      let '(f, self) := st in
      Ok (set_fragment None (set_fragments (fragments self ++ [f]) self))
  | None => Ok (set_fragment None self)
  end.

(** [lines[-1]] *)
Definition last_line (ls : option (list str)) : result str :=
  match ls with
  | None => Raise TypeError
  | Some ls =>
      match rev ls with
      | l :: _ => Ok l
      | [] => Raise IndexError
      end
  end.

Definition _scan_line (self : t) (line : str) : result t :=
  let line := strip line in
  let is_forward := is_some (is_forward_header line) in
  if is_forward then
    self <- _finish_fragment self ;;
    Ok (set_fragments (map (Fragment.set_forwarded true) (fragments self)) self)
  else
    (* [line.lstrip()] builds a string that is not used *)
    let _ := if is_some (re_match no_flags SIG_REGEX line)
             then lstrip line else line in
    let is_quoted := is_some (re_match no_flags QUOTED_REGEX line) in
    self <- match fragment self with
            | Some f =>
                if length line =? 0 then
                  l <- last_line (Fragment.lines f) ;;
                  if is_some (re_match no_flags SIG_REGEX l)
                  then _finish_fragment
                         (set_fragment (Some (Fragment.set_signature true f))
                            self)
                  else Ok self
                else Ok self
            | None => Ok self
            end ;;
    let fresh :=
      self <- _finish_fragment self ;;
      Ok (set_fragment (Some (Fragment.__init__ is_quoted is_forward line))
            self) in
    match fragment self with
    | Some f =>
        if Bool.eqb (Fragment.quoted f) is_quoted
           || (Fragment.quoted f
               && (is_quote_header line || (length (strip line) =? 0)))
        then match Fragment.lines f with
             | Some ls =>
                 Ok (set_fragment
                       (Some (Fragment.set_lines (Some (ls ++ [line])) f)) self)
             | None => Raise AttributeError
             end
        else fresh
    | None => fresh
    end.

(** The loop [for line in self.lines: self._scan_line(line)]. *)
Fixpoint scan_lines (self : t) (ls : list str) : result t :=
  match ls with
  | [] => Ok self
  | line :: ls' => self <- _scan_line self line ;; scan_lines self ls'
  end.

(** The first step of [read]: when a quote header that may run over
    several lines is found, [text] is rewritten by [sub]. *)
Definition collapse_quote_header (self : t) : result t :=
  let '(is_multi_quote_header, regex) := has_quote_header (text self) in
  match is_multi_quote_header with
  | Some m =>
      match regex with
      | Some regex =>
          match groups m with
          | Some g :: _ =>
              s <- Template.re_sub (mkflags false true) regex
                     (replace [LF] [] g) (text self) ;;
              Ok (set_text s self)
          | None :: _ => Raise AttributeError
          | [] => Raise IndexError
          end
      | None => Raise TypeError
      end
  | None => Ok self
  end.

Definition read (self : t) : result t :=
  let self := set_found_visible false self in
  self <- collapse_quote_header self ;;
  let self := set_lines (split LF (text self)) self in
  let self := set_lines (rev (lines self)) self in
  self <- scan_lines self (lines self) ;;
  self <- _finish_fragment self ;;
  Ok (set_fragments (rev (fragments self)) self).

(** The property [reply]. *)
Fixpoint reply_loop (fs : list Fragment.t) : result (list str) :=
  match fs with
  | [] => Ok []
  | f :: fs' =>
      if negb (Fragment.hidden f || Fragment.quoted f || Fragment.forwarded f)
      then match Fragment.content f with
           | Some c => rest <- reply_loop fs' ;; Ok (c :: rest)
           | None => Raise TypeError
           end
      else reply_loop fs'
  end.

Definition reply (self : t) : result str :=
  reply <- reply_loop (fragments self) ;;
  Ok (join [LF] reply).

End EmailMessage.

(* ================================================================= *)
(** * class EmailReplyParser *)

Module EmailReplyParser.

Definition read (text : str) : result EmailMessage.t :=
  EmailMessage.read (EmailMessage.__init__ text).

Definition parse_reply (text : str) : result str :=
  m <- read text ;; EmailMessage.reply m.

End EmailReplyParser.

(* ================================================================= *)
(** * The scanner as a function on lists of lines

    While a message is read, a fragment is either open, with its lines in
    a list, or finished, with its content in a string.  The scanner is
    described a second time on states that keep the lines of every
    fragment; [Model.conc] maps such a state to the state of the Python
    object, and the methods of [EmailMessage] are shown to commute with
    it.  The model raises no exception: this is where the attribute and
    index errors that the methods could raise are excluded. *)

Module Model.

(** A finished fragment with its lines, the one scanned first at the
    head. *)
Record frag : Type := mkfrag {
  f_lines : list str;
  f_quoted : bool;
  f_signature : bool;
  f_hidden : bool;
  f_forwarded : bool
}.

(** An open fragment: the line it was created with and the lines
    appended since. *)
Record open : Type := mkopen {
  o_quoted : bool;
  o_first : str;
  o_rest : list str
}.

Record state : Type := mkstate {
  s_done : list frag;
  s_open : option open;
  s_found : bool
}.

Definition o_lines (o : open) : list str := o_first o :: o_rest o.

Definition o_last (o : open) : str := last (o_rest o) (o_first o).

Definition content_of (ls : list str) : str := join [LF] (rev ls).

Definition f_content (f : frag) : str := content_of (f_lines f).

Definition is_forward (line : str) : bool :=
  is_some (EmailMessage.is_forward_header line).

Definition is_quoted (line : str) : bool :=
  is_some (re_match no_flags EmailMessage.QUOTED_REGEX line).

Definition is_sig (line : str) : bool :=
  is_some (re_match no_flags EmailMessage.SIG_REGEX line).

(** The test of [_finish_fragment]: quoted, signature, or nothing but
    whitespace. *)
Definition dull (quoted signature : bool) (content : str) : bool :=
  quoted || signature || (length (strip content) =? 0).

Definition f_dull (f : frag) : bool :=
  dull (f_quoted f) (f_signature f) (f_content f).

(** The open fragment is finished, as a signature or not. *)
Definition finish (signature : bool) (a : state) : state :=
  match s_open a with
  | None => a
  | Some o =>
      let d := dull (o_quoted o) signature (content_of (o_lines o)) in
      let h := negb (s_found a) && d in
      mkstate
        (s_done a ++ [mkfrag (o_lines o) (o_quoted o) signature h false])
        None
        (s_found a || negb d)
  end.

Definition mark_forwarded (f : frag) : frag :=
  mkfrag (f_lines f) (f_quoted f) (f_signature f) (f_hidden f) true.

Definition closes (o : open) (line : str) : bool :=
  (length line =? 0) && is_sig (o_last o).

Definition close_signature (line : str) (a : state) : state :=
  match s_open a with
  | Some o => if closes o line then finish true a else a
  | None => a
  end.

Definition continues (o : open) (line : str) : bool :=
  Bool.eqb (o_quoted o) (is_quoted line)
  || (o_quoted o
      && (EmailMessage.is_quote_header line || (length (strip line) =? 0))).

Definition append (o : open) (line : str) : open :=
  mkopen (o_quoted o) (o_first o) (o_rest o ++ [line]).

Definition fresh (line : str) (a : state) : state :=
  let a := finish false a in
  mkstate (s_done a) (Some (mkopen (is_quoted line) line [])) (s_found a).

Definition scan_stripped (a : state) (line : str) : state :=
  if is_forward line then
    let a := finish false a in
    mkstate (map mark_forwarded (s_done a)) None (s_found a)
  else
    let a := close_signature line a in
    match s_open a with
    | Some o =>
        if continues o line
        then mkstate (s_done a) (Some (append o line)) (s_found a)
        else fresh line a
    | None => fresh line a
    end.

Definition scan_line (a : state) (line : str) : state :=
  scan_stripped a (strip line).

Definition scan_lines (a : state) (ls : list str) : state :=
  fold_left scan_line ls a.

Definition init : state := mkstate [] None false.

(** The state once the lines of a text are scanned, from the last to the
    first, and the open fragment is finished. *)
Definition scanned (ls : list str) : state :=
  finish false (scan_lines init (rev ls)).

(** The fragments in the order of the text. *)
Definition parse_lines (ls : list str) : list frag := rev (s_done (scanned ls)).

(** From the model to the Python objects. *)
Definition conc_frag (f : frag) : Fragment.t :=
  Fragment.mk (f_signature f) (f_hidden f) (f_quoted f) (f_forwarded f)
    (Some (f_content f)) None.

Definition conc_open (o : open) : Fragment.t :=
  Fragment.mk false false (o_quoted o) false None (Some (o_lines o)).

Definition conc (text : str) (lines : list str) (a : state)
    : EmailMessage.t :=
  EmailMessage.mk (map conc_frag (s_done a)) (option_map conc_open (s_open a))
    text (s_found a) lines.

(** The message that [read] returns for a normalised text. *)
Definition message_of (text : str) : EmailMessage.t :=
  let lines := rev (split LF text) in
  let a := scanned (split LF text) in
  EmailMessage.mk (rev (map conc_frag (s_done a))) None text (s_found a) lines.

End Model.

(** The text that [read] splits into lines: the line ends are converted
    by [__init__], the quote header is collapsed by the first step of
    [read]. *)
Definition normalised (text : str) : result str :=
  self <- EmailMessage.collapse_quote_header
            (EmailMessage.set_found_visible false
               (EmailMessage.__init__ text)) ;;
  Ok (EmailMessage.text self).

(* ================================================================= *)
(** * Vocabulary of the properties *)

(** The lines of the content of a finished fragment. *)
Definition content_lines (f : Fragment.t) : list str :=
  match Fragment.content f with
  | Some c => split LF c
  | None => []
  end.

(** The fragments that [_finish_fragment] hides as long as no visible
    fragment was found: quoted, signature, or with nothing but whitespace
    in the content. *)
Definition hideable (f : Fragment.t) : bool :=
  Fragment.quoted f || Fragment.signature f
  || match Fragment.content f with
     | Some c => length (strip c) =? 0
     | None => false
     end.

(** A line that [_scan_line] takes for a forward header, once stripped. *)
Definition forward_line (line : str) : bool :=
  is_some (EmailMessage.is_forward_header (strip line)).

(** A line that matches [QUOTED_REGEX]. *)
Definition quoted_line (line : str) : bool :=
  is_some (re_match no_flags EmailMessage.QUOTED_REGEX line).

(** The lines that reach the fragments: those of the text, stripped,
    without the forward headers. *)
Definition kept_lines (ls : list str) : list str :=
  filter (fun l => negb (Model.is_forward l)) (map strip ls).

(** The contents of the fragments of a message, in the order of the
    text. *)
Definition contents (m : EmailMessage.t) : list (option str) :=
  map Fragment.content (EmailMessage.fragments m).

(** The fragments that [read] returns for a text. *)
Definition fragments_of (text : str) : result (list Fragment.t) :=
  m <- EmailReplyParser.read text ;; Ok (EmailMessage.fragments m).

(** The fragments that [reply] keeps. *)
Definition in_reply (f : Fragment.t) : bool :=
  negb (Fragment.hidden f || Fragment.quoted f || Fragment.forwarded f).

(** A text given by its lines. *)
Definition text_of (ls : list str) : str := join [LF] ls.

(** One attempt of [_match_any]: [re.search] or [re.match], with the
    options given. *)
Definition attempt (options : option flags) (search : bool) (text : str)
    (regex : regex) : option Match :=
  let fl := match options with Some fl => fl | None => no_flags end in
  if search then re_search fl regex text else re_match fl regex text.

(** The text after [__init__], in which [read] looks for a quote
    header. *)
Definition converted (text : str) : str :=
  EmailMessage.text (EmailMessage.__init__ text).

(** A line that matches [SIG_REGEX]. *)
Definition signature_line (line : str) : bool :=
  is_some (re_match no_flags EmailMessage.SIG_REGEX line).

(* ================================================================= *)
(** * Facts on strings *)

Module StrFacts.

(** ** [strip] *)

Lemma lstrip_incl (c : ascii) (s : str) : In c (lstrip s) -> In c s.
Proof.
  induction s as [|x s IH]; cbn; [tauto|].
  destruct (isspace x); cbn; auto.
Qed.

Lemma strip_incl (c : ascii) (s : str) : In c (strip s) -> In c s.
Proof.
  unfold strip, rstrip. intros H.
  apply in_rev in H. apply lstrip_incl in H. apply in_rev in H.
  apply lstrip_incl. exact H.
Qed.

Lemma lstrip_head (s : str) (c : ascii) (t : str) :
  lstrip s = c :: t -> isspace c = false.
Proof.
  induction s as [|x s IH]; cbn; [discriminate|].
  destruct (isspace x) eqn:E; [exact IH|].
  intros [= <- _]. exact E.
Qed.

Lemma lstrip_nonspace (c : ascii) (s : str) :
  isspace c = false -> lstrip (c :: s) = c :: s.
Proof. intros H. cbn. rewrite H. reflexivity. Qed.

Lemma lstrip_idem (s : str) : lstrip (lstrip s) = lstrip s.
Proof.
  destruct (lstrip s) as [|c t] eqn:E; [reflexivity|].
  apply lstrip_nonspace. exact (lstrip_head _ E).
Qed.

Lemma lstrip_snoc (s : str) (c : ascii) :
  isspace c = false -> lstrip (s ++ [c]) = lstrip s ++ [c].
Proof.
  intros H. induction s as [|x s IH]; cbn.
  - rewrite H. reflexivity.
  - destruct (isspace x); [exact IH | reflexivity].
Qed.

Lemma rstrip_cons (c : ascii) (s : str) :
  isspace c = false -> rstrip (c :: s) = c :: rstrip s.
Proof.
  intros H. unfold rstrip. cbn [rev].
  rewrite lstrip_snoc by exact H.
  rewrite rev_app_distr. reflexivity.
Qed.

Lemma rstrip_idem (s : str) : rstrip (rstrip s) = rstrip s.
Proof. unfold rstrip. rewrite rev_involutive, lstrip_idem. reflexivity. Qed.

Lemma strip_trimmed (s : str) : trimmed (strip s).
Proof.
  unfold strip. split; intros c t E.
  - destruct (lstrip s) as [|x u] eqn:El.
    + cbn in E. discriminate E.
    + pose proof (lstrip_head _ El) as Hx.
      rewrite rstrip_cons in E by exact Hx.
      injection E as <- _. exact Hx.
  - unfold rstrip in E.
    apply (f_equal (@rev _)) in E.
    rewrite rev_involutive, rev_app_distr in E. cbn in E.
    exact (lstrip_head _ E).
Qed.

Lemma trimmed_strip (s : str) : trimmed s -> strip s = s.
Proof.
  intros [Hh Hl]. unfold strip.
  assert (E : lstrip s = s).
  { destruct s as [|c t]; [reflexivity|].
    apply lstrip_nonspace. exact (Hh c t eq_refl). }
  rewrite E. unfold rstrip.
  destruct (rev s) as [|c t] eqn:Er.
  - apply (f_equal (@rev _)) in Er. rewrite rev_involutive in Er.
    rewrite Er. reflexivity.
  - apply (f_equal (@rev _)) in Er. rewrite rev_involutive in Er.
    cbn [rev] in Er.
    rewrite lstrip_nonspace by exact (Hl c (rev t) Er).
    cbn [rev]. symmetry. exact Er.
Qed.

Lemma strip_idem (s : str) : strip (strip s) = strip s.
Proof. apply trimmed_strip, strip_trimmed. Qed.

(** ** [split] and [join] *)

Lemma split_not_nil (sep : ascii) (s : str) : split sep s <> [].
Proof.
  destruct s as [|c s]; cbn; [discriminate|].
  destruct (Ascii.eqb c sep); [discriminate|].
  destruct (split sep s); discriminate.
Qed.

Lemma split_no_sep (sep : ascii) (s : str) :
  Forall (fun l => ~ In sep l) (split sep s).
Proof.
  induction s as [|c s IH]; cbn.
  - constructor; [intros []|constructor].
  - destruct (Ascii.eqb_spec c sep) as [->|Hc].
    + constructor; [intros []|exact IH].
    + destruct (split sep s) as [|l ls].
      * constructor; [|constructor]. intros [H|[]]. congruence.
      * inversion IH as [|? ? Hl Hls]; subst.
        constructor; [|exact Hls]. intros [H|H]; [congruence|tauto].
Qed.

Lemma join_cons (sep l : str) (ls : list str) :
  ls <> [] -> join sep (l :: ls) = l ++ sep ++ join sep ls.
Proof. destruct ls; [congruence|reflexivity]. Qed.

Lemma join_split (sep : ascii) (s : str) : join [sep] (split sep s) = s.
Proof.
  induction s as [|c s IH]; [reflexivity|]. cbn [split].
  destruct (Ascii.eqb_spec c sep) as [->|Hc].
  - rewrite join_cons by apply split_not_nil. rewrite IH. reflexivity.
  - pose proof (split_not_nil sep s) as Hn.
    destruct (split sep s) as [|l ls]; [congruence|].
    destruct ls as [|l' ls].
    + cbn in *. congruence.
    + rewrite join_cons in * by discriminate.
      rewrite <- IH. reflexivity.
Qed.

Lemma split_line (sep : ascii) (l rest : str) :
  ~ In sep l -> split sep (l ++ sep :: rest) = l :: split sep rest.
Proof.
  induction l as [|c l IH]; intros Hl; cbn [split app].
  - rewrite Ascii.eqb_refl. reflexivity.
  - destruct (Ascii.eqb_spec c sep) as [->|Hc].
    + exfalso. apply Hl. left. reflexivity.
    + rewrite IH; [reflexivity|]. intros H. apply Hl. right. exact H.
Qed.

Lemma split_one (sep : ascii) (l : str) : ~ In sep l -> split sep l = [l].
Proof.
  induction l as [|c l IH]; intros Hl; cbn [split]; [reflexivity|].
  destruct (Ascii.eqb_spec c sep) as [->|Hc].
  - exfalso. apply Hl. left. reflexivity.
  - rewrite IH; [reflexivity|]. intros H. apply Hl. right. exact H.
Qed.

Lemma split_join (sep : ascii) (ls : list str) :
  ls <> [] -> Forall (fun l => ~ In sep l) ls ->
  split sep (join [sep] ls) = ls.
Proof.
  induction ls as [|l ls IH]; [congruence|]. intros _ H.
  inversion H as [|? ? Hl Hls]; subst.
  destruct ls as [|l' ls].
  - cbn. apply split_one. exact Hl.
  - rewrite join_cons by discriminate. cbn [app].
    rewrite split_line by exact Hl.
    rewrite IH; [reflexivity|discriminate|exact Hls].
Qed.

Lemma join_app (sep : str) (l1 l2 : list str) :
  l1 <> [] -> l2 <> [] ->
  join sep (l1 ++ l2) = join sep l1 ++ sep ++ join sep l2.
Proof.
  induction l1 as [|l l1 IH]; [congruence|]. intros _ H2.
  destruct l1 as [|l' l1].
  - cbn [app]. rewrite join_cons by exact H2. reflexivity.
  - change ((l :: l' :: l1) ++ l2) with (l :: (l' :: l1) ++ l2).
    rewrite !join_cons by discriminate.
    rewrite IH by (discriminate || exact H2).
    rewrite <- !app_assoc. reflexivity.
Qed.

Lemma join_concat (sep : str) (lss : list (list str)) :
  Forall (fun ls => ls <> []) lss ->
  join sep (map (join sep) lss) = join sep (concat lss).
Proof.
  induction lss as [|ls lss IH]; [reflexivity|]. intros H.
  inversion H as [|? ? Hls Hlss]; subst.
  destruct lss as [|ls' lss].
  - cbn. rewrite app_nil_r. reflexivity.
  - cbn [map] in *. rewrite join_cons by discriminate.
    rewrite IH by exact Hlss.
    change (concat (ls :: ls' :: lss)) with (ls ++ concat (ls' :: lss)).
    rewrite (join_app sep (l1 := ls) (l2 := concat (ls' :: lss)));
      [reflexivity|exact Hls|].
    inversion Hlss; subst. destruct ls'; [congruence|discriminate].
Qed.

(** ** [replace] *)

Lemma replace_free (old new s : str) :
  free_of old s = true -> replace old new s = s.
Proof.
  unfold replace. induction s as [|c s IH]; [reflexivity|].
  cbn [free_of replace_from]. intros H.
  apply andb_true_iff in H as [H1 H2].
  apply negb_true_iff in H1. rewrite H1, IH by exact H2. reflexivity.
Qed.

Lemma startswith_crlf (s : str) :
  startswith [CR; LF] s = true -> exists t, s = CR :: LF :: t.
Proof.
  destruct s as [|x [|y t]]; cbn [startswith].
  - discriminate.
  - rewrite andb_false_r. discriminate.
  - destruct (Ascii.eqb_spec CR x) as [<-|]; [|discriminate].
    destruct (Ascii.eqb_spec LF y) as [<-|]; [|discriminate].
    intros _. exists t. reflexivity.
Qed.

Lemma free_of_crlf_line (l rest : str) :
  ~ In LF l -> (forall c t, l = t ++ [c] -> isspace c = false) ->
  free_of [CR; LF] rest = true ->
  free_of [CR; LF] (l ++ LF :: rest) = true.
Proof.
  intros Hlf Hlast Hrest.
  induction l as [|x l IH]; cbn [app free_of].
  - rewrite Hrest, andb_true_r. apply negb_true_iff.
    destruct (startswith [CR; LF] (LF :: rest)) eqn:E; [|reflexivity].
    apply startswith_crlf in E as [t E]. discriminate E.
  - rewrite IH, andb_true_r.
    + apply negb_true_iff.
      destruct (startswith [CR; LF] (x :: l ++ LF :: rest)) eqn:E;
        [|reflexivity].
      apply startswith_crlf in E as [t E]. injection E as -> E.
      destruct l as [|y l]; cbn [app] in E.
      * discriminate (Hlast CR [] eq_refl).
      * injection E as -> _. exfalso. apply Hlf. right. left. reflexivity.
    + intros H. apply Hlf. right. exact H.
    + intros c t ->. exact (Hlast c (x :: t) eq_refl).
Qed.

Lemma free_of_crlf_last (l : str) :
  ~ In LF l -> free_of [CR; LF] l = true.
Proof.
  induction l as [|x l IH]; intros Hl; [reflexivity|].
  cbn [free_of].
  rewrite IH by (intros H; apply Hl; right; exact H).
  rewrite andb_true_r. apply negb_true_iff.
  destruct (startswith [CR; LF] (x :: l)) eqn:E; [|reflexivity].
  apply startswith_crlf in E as [t E]. injection E as -> ->.
  exfalso. apply Hl. right. left. reflexivity.
Qed.

(** Joined lines that are stripped hold no line end for [__init__] to
    convert. *)
Lemma replace_crlf_join (ls : list str) :
  Forall (fun l => ~ In LF l /\ trimmed l) ls ->
  replace [CR; LF] [LF] (join [LF] ls) = join [LF] ls.
Proof.
  intros H. apply replace_free.
  induction H as [|l ls [Hlf Ht] Hls IH]; [reflexivity|].
  destruct ls as [|l' ls].
  - cbn. apply free_of_crlf_last. exact Hlf.
  - rewrite join_cons by discriminate. cbn [app].
    apply free_of_crlf_line; [exact Hlf|apply Ht|exact IH].
Qed.

End StrFacts.

(* ================================================================= *)
(** * The methods of [EmailMessage] on the states of the model *)

Arguments re_match : simpl never.
Arguments re_search : simpl never.
Arguments strip : simpl never.
Arguments replace : simpl never.
Arguments EmailMessage.is_forward_header : simpl never.
Arguments EmailMessage.is_quote_header : simpl never.
Arguments EmailMessage.has_quote_header : simpl never.
Arguments Template.re_sub : simpl never.
Arguments join : simpl never.
Arguments split : simpl never.

Section Simulation.

Import Model.

Variable text : str.
Variable lines : list str.

Lemma finish_open (sg : bool) (a : state) : s_open (finish sg a) = None.
Proof. unfold finish. destruct (s_open a) eqn:E; [reflexivity | exact E]. Qed.

Lemma finish_closed (sg : bool) (a : state) :
  s_open a = None -> finish sg a = a.
Proof. unfold finish. intros ->. reflexivity. Qed.

Lemma finish_fragment_conc (a : state) :
  EmailMessage._finish_fragment (conc text lines a)
  = Ok (conc text lines (finish false a)).
Proof.
  destruct a as [done [o|] found]; [|reflexivity].
  unfold EmailMessage._finish_fragment, finish, conc; cbn.
  unfold dull, content_of.
  destruct found; cbn.
  - rewrite map_app. reflexivity.
  - destruct (o_quoted o); cbn; [rewrite map_app; reflexivity|].
    match goal with
    | |- context [length (strip ?c) =? 0] =>
        destruct (length (strip c) =? 0)
    end; cbn; rewrite map_app; reflexivity.
Qed.

Lemma finish_signature_conc (done : list frag) (o : open) (found : bool) :
  EmailMessage._finish_fragment
    (EmailMessage.set_fragment
       (Some (Fragment.set_signature true (conc_open o)))
       (conc text lines (mkstate done (Some o) found)))
  = Ok (conc text lines (finish true (mkstate done (Some o) found))).
Proof.
  unfold EmailMessage._finish_fragment, finish, conc; cbn.
  unfold dull, content_of.
  destruct found; cbn.
  - rewrite map_app. reflexivity.
  - destruct (o_quoted o); cbn; rewrite map_app; reflexivity.
Qed.

Lemma last_line_conc (o : open) :
  EmailMessage.last_line (Fragment.lines (conc_open o)) = Ok (o_last o).
Proof.
  unfold EmailMessage.last_line, conc_open, o_lines, o_last.
  cbn [Fragment.lines].
  destruct o as [q first rest]; cbn [o_first o_rest].
  destruct (rev (first :: rest)) as [|y ys] eqn:E.
  - apply (f_equal (@length _)) in E. rewrite length_rev in E. discriminate.
  - apply (f_equal (@rev _)) in E. rewrite rev_involutive in E.
    cbn [rev] in E. f_equal.
    transitivity (last (first :: rest) first).
    + rewrite E. symmetry. apply last_last.
    + destruct rest; reflexivity.
Qed.

Lemma scan_line_conc (a : state) (line : str) :
  EmailMessage._scan_line (conc text lines a) line
  = Ok (conc text lines (scan_line a line)).
Proof.
  unfold EmailMessage._scan_line, scan_line, scan_stripped.
  fold (is_forward (strip line)).
  destruct (is_forward (strip line)) eqn:Efw.
  - rewrite finish_fragment_conc. cbn [bind].
    unfold conc, EmailMessage.set_fragments; cbn.
    rewrite finish_open, !map_map. reflexivity.
  - fold (is_quoted (strip line)).
    assert (Hclose :
      match EmailMessage.fragment (conc text lines a) with
      | Some f =>
          if length (strip line) =? 0 then
            l <- EmailMessage.last_line (Fragment.lines f) ;;
            if is_some (re_match no_flags EmailMessage.SIG_REGEX l)
            then EmailMessage._finish_fragment
                   (EmailMessage.set_fragment
                      (Some (Fragment.set_signature true f))
                      (conc text lines a))
            else Ok (conc text lines a)
          else Ok (conc text lines a)
      | None => Ok (conc text lines a)
      end = Ok (conc text lines (close_signature (strip line) a))).
    { unfold close_signature, closes.
      destruct a as [done [o|] found]; [|reflexivity].
      cbn [conc s_open option_map EmailMessage.fragment].
      destruct (length (strip line) =? 0); [|reflexivity].
      rewrite last_line_conc. cbn [bind andb].
      fold (is_sig (o_last o)).
      destruct (is_sig (o_last o)); [|reflexivity].
      apply finish_signature_conc. }
    rewrite Hclose. cbn [bind].
    set (b := close_signature (strip line) a).
    assert (Hfresh :
      (self <- EmailMessage._finish_fragment (conc text lines b) ;;
       Ok (EmailMessage.set_fragment
             (Some (Fragment.__init__ (is_quoted (strip line)) false
                      (strip line))) self))
      = Ok (conc text lines (fresh (strip line) b))).
    { rewrite finish_fragment_conc. reflexivity. }
    destruct b as [done [o|] found] eqn:Eb.
    + cbn [conc s_open option_map EmailMessage.fragment].
      unfold continues.
      cbn [conc_open Fragment.quoted Fragment.lines].
      destruct (Bool.eqb (o_quoted o) (is_quoted (strip line))
                || o_quoted o
                   && (EmailMessage.is_quote_header (strip line)
                       || (length (strip (strip line)) =? 0))).
      * reflexivity.
      * exact Hfresh.
    + exact Hfresh.
Qed.

Lemma scan_lines_conc (ls : list str) (a : state) :
  EmailMessage.scan_lines (conc text lines a) ls
  = Ok (conc text lines (scan_lines a ls)).
Proof.
  revert a. induction ls as [|l ls IH]; intros a; [reflexivity|].
  cbn [EmailMessage.scan_lines]. rewrite scan_line_conc. cbn [bind].
  apply IH.
Qed.

End Simulation.

(** [collapse_quote_header] changes nothing but the text. *)
Lemma collapse_quote_header_text (self self' : EmailMessage.t) :
  EmailMessage.collapse_quote_header self = Ok self' ->
  self' = EmailMessage.set_text (EmailMessage.text self') self.
Proof.
  unfold EmailMessage.collapse_quote_header.
  destruct (EmailMessage.has_quote_header (EmailMessage.text self))
    as [[m|] rx].
  - destruct rx as [rx|]; [|discriminate].
    destruct (groups m) as [|[g|] gs]; try discriminate.
    destruct (Template.re_sub _ rx _ _) as [s|e]; [|discriminate].
    cbn. intros [= <-]. reflexivity.
  - intros [= <-]. destruct self; reflexivity.
Qed.

(** [read] is the scanner of the model applied to the lines of the
    normalised text; it raises an exception only if the normalisation
    does. *)
Lemma read_normalised (text : str) :
  EmailReplyParser.read text
  = (t <- normalised text ;; Ok (Model.message_of t)).
Proof.
  unfold EmailReplyParser.read, EmailMessage.read, normalised.
  destruct (EmailMessage.collapse_quote_header _) as [self|e] eqn:E;
    [|reflexivity].
  cbn [bind]. apply collapse_quote_header_text in E.
  set (t := EmailMessage.text self) in *.
  rewrite E.
  unfold EmailMessage.set_lines, EmailMessage.set_text,
    EmailMessage.set_found_visible, EmailMessage.__init__.
  cbn [EmailMessage.fragments EmailMessage.fragment
    EmailMessage.found_visible EmailMessage.lines EmailMessage.text].
  change (EmailMessage.mk [] None t false (rev (split LF t)))
    with (Model.conc t (rev (split LF t)) Model.init).
  rewrite scan_lines_conc. cbn [bind].
  rewrite finish_fragment_conc. cbn [bind].
  unfold Model.message_of, Model.scanned, Model.conc.
  cbn [EmailMessage.set_fragments EmailMessage.fragments
    EmailMessage.fragment EmailMessage.text EmailMessage.found_visible
    EmailMessage.lines].
  rewrite finish_open. reflexivity.
Qed.

(* ================================================================= *)
(** * The scanner of the model *)

Module ModelFacts.

Import Model StrFacts.

Lemma mark_forwarded_fixed (f : frag) :
  f_forwarded f = true -> mark_forwarded f = f.
Proof. destruct f; cbn. intros ->. reflexivity. Qed.

Lemma scan_lines_app (a : state) (l1 l2 : list str) :
  scan_lines a (l1 ++ l2) = scan_lines (scan_lines a l1) l2.
Proof. apply fold_left_app. Qed.

(** ** The lines of a state *)

Definition open_lines (a : state) : list str :=
  match s_open a with
  | Some o => o_lines o
  | None => []
  end.

Definition all_lines (a : state) : list str :=
  concat (map f_lines (s_done a)) ++ open_lines a.

Lemma all_lines_finish (sg : bool) (a : state) :
  all_lines (finish sg a) = all_lines a.
Proof.
  destruct a as [done [o|] found]; [|reflexivity].
  unfold all_lines, open_lines, finish; cbn.
  rewrite map_app, concat_app. cbn. rewrite !app_nil_r. reflexivity.
Qed.

Lemma all_lines_closed (a : state) :
  s_open a = None -> all_lines a = concat (map f_lines (s_done a)).
Proof. unfold all_lines, open_lines. intros ->. apply app_nil_r. Qed.

Lemma all_lines_close_signature (l : str) (a : state) :
  all_lines (close_signature l a) = all_lines a.
Proof.
  unfold close_signature. destruct (s_open a) as [o|]; [|reflexivity].
  destruct (closes o l); [apply all_lines_finish|reflexivity].
Qed.

Lemma all_lines_fresh (l : str) (a : state) :
  all_lines (fresh l a) = all_lines a ++ [l].
Proof.
  unfold fresh. rewrite <- (all_lines_finish false a).
  rewrite (all_lines_closed (finish false a)) by apply finish_open.
  reflexivity.
Qed.

Lemma all_lines_scan_stripped (a : state) (l : str) :
  all_lines (scan_stripped a l)
  = all_lines a ++ (if is_forward l then [] else [l]).
Proof.
  unfold scan_stripped. destruct (is_forward l).
  - rewrite app_nil_r, <- (all_lines_finish false a).
    rewrite (all_lines_closed (finish false a)) by apply finish_open.
    unfold all_lines, open_lines; cbn. rewrite app_nil_r, map_map.
    reflexivity.
  - rewrite <- (all_lines_close_signature l a).
    destruct (s_open (close_signature l a)) as [o|] eqn:E;
      [|apply all_lines_fresh].
    destruct (continues o l); [|apply all_lines_fresh].
    unfold all_lines, open_lines. rewrite E. cbn.
    rewrite <- app_assoc. reflexivity.
Qed.

Lemma all_lines_scan_lines (ls : list str) (a : state) :
  all_lines (scan_lines a ls) = all_lines a ++ kept_lines ls.
Proof.
  revert a. induction ls as [|l ls IH]; intros a.
  - cbn. symmetry. apply app_nil_r.
  - change (scan_lines a (l :: ls)) with (scan_lines (scan_line a l) ls).
    rewrite IH. unfold scan_line. rewrite all_lines_scan_stripped.
    unfold kept_lines. cbn [map filter].
    destruct (is_forward (strip l)); cbn [negb app];
      rewrite <- app_assoc; reflexivity.
Qed.

Lemma kept_lines_rev (ls : list str) :
  kept_lines (rev ls) = rev (kept_lines ls).
Proof.
  unfold kept_lines. rewrite map_rev.
  induction (map strip ls) as [|x xs IH]; [reflexivity|].
  cbn [rev filter]. rewrite filter_app, IH. cbn [filter].
  destruct (negb (is_forward x)); cbn [rev]; [reflexivity|].
  apply app_nil_r.
Qed.

Lemma kept_lines_app (l1 l2 : list str) :
  kept_lines (l1 ++ l2) = kept_lines l1 ++ kept_lines l2.
Proof. unfold kept_lines. rewrite map_app. apply filter_app. Qed.

(** ** Invariants of the fragments, one at a time

    [Q] holds of the open fragment and [P] of the finished ones, when it
    is enough that [Q] holds of a new fragment, is kept by a line that
    continues the fragment, and gives [P] when the fragment is finished;
    [L] is what is known of the lines scanned. *)

Section Invariant.

Variable L : str -> Prop.
Variable P : frag -> Prop.
Variable Q : open -> Prop.

Hypothesis Q_new :
  forall l, L l -> is_forward l = false -> Q (mkopen (is_quoted l) l []).
Hypothesis Q_append :
  forall o l, L l -> is_forward l = false -> Q o ->
    closes o l = false -> continues o l = true -> Q (append o l).
Hypothesis P_finish :
  forall o sg h, Q o -> P (mkfrag (o_lines o) (o_quoted o) sg h false).
Hypothesis P_mark :
  forall l f, L l -> is_forward l = true -> P f -> P (mark_forwarded f).

Definition inv (a : state) : Prop :=
  Forall P (s_done a) /\ (forall o, s_open a = Some o -> Q o).

Lemma inv_finish (sg : bool) (a : state) : inv a -> inv (finish sg a).
Proof.
  intros [Hd Ho]. unfold finish.
  destruct (s_open a) as [o|] eqn:E; [|split; [exact Hd|rewrite E; exact Ho]].
  split; cbn; [|discriminate].
  apply Forall_app. split; [exact Hd|].
  constructor; [|constructor]. apply P_finish, Ho. reflexivity.
Qed.

Lemma inv_fresh (l : str) (a : state) :
  L l -> is_forward l = false -> inv a -> inv (fresh l a).
Proof.
  intros Hl Hf Ha. apply (inv_finish false) in Ha as [Hd _].
  split; cbn; [exact Hd|]. intros o [= <-]. apply Q_new; assumption.
Qed.

Lemma inv_scan_stripped (a : state) (l : str) :
  L l -> inv a -> inv (scan_stripped a l).
Proof.
  intros Hl Ha. unfold scan_stripped.
  destruct (is_forward l) eqn:Ef.
  - apply (inv_finish false) in Ha as [Hd _].
    split; cbn; [|discriminate].
    apply Forall_map. revert Hd. apply Forall_impl.
    intros f. apply (P_mark Hl Ef).
  - unfold close_signature.
    destruct (s_open a) as [o|] eqn:Eo.
    + destruct (closes o l) eqn:Ec.
      * rewrite finish_open. apply inv_fresh; [assumption..|].
        apply inv_finish. exact Ha.
      * rewrite Eo. destruct (continues o l) eqn:Ek.
        -- split; cbn; [apply Ha|]. intros o' [= <-].
           apply Q_append; try assumption. apply Ha. exact Eo.
        -- apply inv_fresh; assumption.
    + rewrite Eo. apply inv_fresh; assumption.
Qed.

Lemma inv_scan_lines (ls : list str) (a : state) :
  Forall (fun l => L (strip l)) ls -> inv a -> inv (scan_lines a ls).
Proof.
  intros H. revert a. induction H as [|l ls Hl _ IH]; intros a Ha.
  - exact Ha.
  - apply IH. apply inv_scan_stripped; assumption.
Qed.

End Invariant.

(** ** The lines of a fragment

    Every line of a fragment is stripped, holds no line end and is no
    forward header; the lines of a fragment that is not quoted do not
    match [QUOTED_REGEX]. *)

Definition line_ok (l : str) : Prop :=
  trimmed l /\ ~ In LF l /\ is_forward l = false.

Definition lines_ok (q : bool) (ls : list str) : Prop :=
  Forall line_ok ls /\ (q = false -> Forall (fun l => is_quoted l = false) ls).

Definition shape_open (o : open) : Prop := lines_ok (o_quoted o) (o_lines o).

Definition shape (f : frag) : Prop :=
  f_lines f <> [] /\ lines_ok (f_quoted f) (f_lines f).

Definition shaped : state -> Prop :=
  inv shape shape_open.

Lemma shaped_scan_lines (ls : list str) (a : state) :
  Forall (fun l => ~ In LF l) ls -> shaped a -> shaped (scan_lines a ls).
Proof.
  intros Hls.
  apply (@inv_scan_lines (fun l => trimmed l /\ ~ In LF l) shape shape_open).
  - intros l [Ht Hn] Hf. split.
    + constructor; [|constructor]. repeat split; assumption || apply Ht.
    + intros Hq. constructor; [|constructor]. exact Hq.
  - intros o l [Ht Hn] Hf [Hok Hq] _ Hk. unfold shape_open, append, o_lines.
    cbn [o_first o_rest o_quoted]. rewrite app_comm_cons. split.
    + apply Forall_app. split; [exact Hok|].
      constructor; [|constructor]. repeat split; assumption || apply Ht.
    + intros E. apply Forall_app. split; [exact (Hq E)|].
      constructor; [|constructor].
      unfold continues in Hk. rewrite E in Hk. cbn in Hk.
      rewrite orb_false_r in Hk. destruct (is_quoted l); [discriminate|].
      reflexivity.
  - intros o sg h Ho. split; [discriminate|exact Ho].
  - intros l f _ _ Hf. exact Hf.
  - revert Hls. apply Forall_impl. intros l Hl. split.
    + apply strip_trimmed.
    + intros H. apply Hl. exact (strip_incl _ _ H).
Qed.

Lemma shaped_init (found : bool) : shaped (mkstate [] None found).
Proof. split; [constructor|discriminate]. Qed.

Lemma shape_content_lines (f : frag) :
  shape f -> split LF (f_content f) = rev (f_lines f).
Proof.
  intros [Hn [Hok _]]. unfold f_content, content_of.
  apply split_join.
  - intros E. apply Hn. apply (f_equal (@rev _)) in E.
    rewrite rev_involutive in E. exact E.
  - apply Forall_rev. revert Hok. apply Forall_impl.
    intros l (_ & H & _). exact H.
Qed.

(** ** Fragments that no forward header follows *)

Lemma unforwarded_scan_lines (ls : list str) (a : state) :
  Forall (fun l => is_forward (strip l) = false) ls ->
  Forall (fun f => f_forwarded f = false) (s_done a) ->
  Forall (fun f => f_forwarded f = false) (s_done (scan_lines a ls)).
Proof.
  intros Hls Ha.
  apply (@inv_scan_lines (fun l => is_forward l = false)
           (fun f => f_forwarded f = false) (fun _ => True)).
  - trivial.
  - trivial.
  - reflexivity.
  - intros l f H1 H2. congruence.
  - exact Hls.
  - split; [exact Ha|trivial].
Qed.

(** ** A fragment is scanned again from its lines

    The lines of an open fragment, scanned from the initial state, give
    that fragment again; so do those of a finished fragment that is not a
    signature. *)

Definition replay (ls : list str) : state := fold_left scan_stripped ls init.

Definition replays_open (o : open) : Prop :=
  replay (o_lines o) = mkstate [] (Some o) false.

Definition replays (f : frag) : Prop :=
  f_signature f = false ->
  exists first rest,
    f_lines f = first :: rest
    /\ replay (f_lines f)
       = mkstate [] (Some (mkopen (f_quoted f) first rest)) false.

Lemma replays_scan_lines (ls : list str) (a : state) :
  inv replays replays_open a -> inv replays replays_open (scan_lines a ls).
Proof.
  apply (@inv_scan_lines (fun _ => True) replays replays_open).
  - intros l _ Hf. unfold replays_open, replay, o_lines; cbn.
    unfold scan_stripped. rewrite Hf. reflexivity.
  - intros o l _ Hf Ho Hc Hk. unfold replays_open, replay, append, o_lines.
    cbn [o_first o_rest]. rewrite app_comm_cons, fold_left_app.
    fold (o_lines o). fold (replay (o_lines o)). rewrite Ho.
    cbn [fold_left]. unfold scan_stripped, close_signature.
    rewrite Hf. cbn [s_open]. rewrite Hc. cbn [s_open]. rewrite Hk.
    reflexivity.
  - intros o sg h Ho Hs. cbn in Hs. subst sg.
    exists (o_first o), (o_rest o). split; [reflexivity|].
    cbn [f_lines f_quoted]. rewrite Ho. destruct o; reflexivity.
  - intros l f _ _ Hf. exact Hf.
  - apply Forall_forall. trivial.
Qed.

Lemma scan_lines_trimmed (ls : list str) (a : state) :
  Forall trimmed ls -> scan_lines a ls = fold_left scan_stripped ls a.
Proof.
  intros H. revert a. induction H as [|l ls Hl _ IH]; intros a; [reflexivity|].
  cbn [fold_left]. unfold scan_lines in *. cbn [fold_left].
  unfold scan_line at 2. rewrite (trimmed_strip Hl). apply IH.
Qed.

(** ** The hidden fragments

    [hidden_from found fs]: the fragments [fs], finished in this order
    from a state whose flag is [found], are hidden as [_finish_fragment]
    decides. *)

Fixpoint hidden_from (found : bool) (fs : list frag) : Prop :=
  match fs with
  | [] => True
  | f :: fs' =>
      f_hidden f = negb found && f_dull f
      /\ hidden_from (found || negb (f_dull f)) fs'
  end.

Definition visible (f : frag) : bool := negb (f_dull f).

Lemma hidden_from_app (found : bool) (fs gs : list frag) :
  hidden_from found (fs ++ gs)
  <-> hidden_from found fs /\ hidden_from (found || existsb visible fs) gs.
Proof.
  revert found. induction fs as [|f fs IH]; intros found; cbn [app hidden_from].
  - cbn. rewrite orb_false_r. tauto.
  - rewrite IH. cbn [existsb]. unfold visible at 2.
    rewrite orb_assoc. tauto.
Qed.

Lemma hidden_from_map_mark (found : bool) (fs : list frag) :
  hidden_from found fs -> hidden_from found (map mark_forwarded fs).
Proof.
  revert found. induction fs as [|f fs IH]; intros found; [trivial|].
  cbn [map hidden_from]. intros [H1 H2]. split; [exact H1|].
  apply IH. exact H2.
Qed.

Lemma existsb_visible_mark (fs : list frag) :
  existsb visible (map mark_forwarded fs) = existsb visible fs.
Proof. induction fs as [|f fs IH]; [reflexivity|]. cbn. rewrite IH. reflexivity. Qed.

(** The invariant: the flag of the state says whether a visible fragment
    was finished, and the fragments are hidden accordingly; [found] is the
    flag of the state in which the scan began. *)
Definition hides (found : bool) (a : state) : Prop :=
  hidden_from found (s_done a)
  /\ s_found a = found || existsb visible (s_done a).

Lemma hides_finish (found sg : bool) (a : state) :
  hides found a -> hides found (finish sg a).
Proof.
  intros [H1 H2]. unfold finish. destruct (s_open a) as [o|]; [|split; assumption].
  split; cbn [s_done s_found].
  - apply hidden_from_app. split; [exact H1|]. cbn [hidden_from f_hidden].
    rewrite <- H2. split; [reflexivity|trivial].
  - rewrite existsb_app. cbn [existsb]. rewrite orb_false_r, orb_assoc, <- H2.
    reflexivity.
Qed.

Lemma hides_scan_stripped (found : bool) (a : state) (l : str) :
  hides found a -> hides found (scan_stripped a l).
Proof.
  intros Ha. unfold scan_stripped.
  assert (Hfresh : forall b, hides found b -> hides found (fresh l b)).
  { intros b Hb. apply (hides_finish false) in Hb. exact Hb. }
  destruct (is_forward l).
  - apply (hides_finish false) in Ha as [H1 H2]. split; cbn [s_done s_found].
    + apply hidden_from_map_mark. exact H1.
    + rewrite existsb_visible_mark. exact H2.
  - assert (Hc : hides found (close_signature l a)).
    { unfold close_signature. destruct (s_open a) as [o|]; [|exact Ha].
      destruct (closes o l); [apply hides_finish|]; exact Ha. }
    destruct (s_open (close_signature l a)) as [o|]; [|apply Hfresh, Hc].
    destruct (continues o l); [exact Hc|apply Hfresh, Hc].
Qed.

Lemma hides_scan_lines (found : bool) (ls : list str) (a : state) :
  hides found a -> hides found (scan_lines a ls).
Proof.
  revert a. induction ls as [|l ls IH]; intros a Ha; [exact Ha|].
  apply IH. apply hides_scan_stripped. exact Ha.
Qed.

Lemma hidden_from_split (found : bool) (pre post : list frag) (f : frag) :
  hidden_from found (pre ++ f :: post) ->
  f_hidden f = negb (found || existsb visible pre) && f_dull f.
Proof.
  intros H. apply hidden_from_app in H as [_ H]. apply H.
Qed.

(** ** Scanning above finished fragments

    The fragments finished before a scan begins are not read by the
    scanner, which only marks them as forwarded. *)

Definition rebase (base : list frag) (a : state) : state :=
  mkstate (base ++ s_done a) (s_open a) (s_found a).

Lemma finish_rebase (sg : bool) (base : list frag) (a : state) :
  finish sg (rebase base a) = rebase base (finish sg a).
Proof.
  destruct a as [done [o|] found]; unfold finish, rebase; cbn;
    [rewrite app_assoc|]; reflexivity.
Qed.

Lemma scan_stripped_rebase (base : list frag) (a : state) (l : str) :
  Forall (fun f => f_forwarded f = true) base ->
  scan_stripped (rebase base a) l = rebase base (scan_stripped a l).
Proof.
  intros Hb. unfold scan_stripped.
  assert (Hfresh : forall b, fresh l (rebase base b) = rebase base (fresh l b)).
  { intros b. unfold fresh. rewrite finish_rebase. reflexivity. }
  destruct (is_forward l).
  - rewrite finish_rebase. unfold rebase; cbn. rewrite map_app.
    replace (map mark_forwarded base) with base; [reflexivity|].
    clear Hfresh. induction Hb as [|f fs Hf _ IH]; [reflexivity|].
    cbn [map]. rewrite <- IH, (mark_forwarded_fixed _ Hf). reflexivity.
  - assert (Hc : close_signature l (rebase base a)
                 = rebase base (close_signature l a)).
    { unfold close_signature. cbn [rebase s_open].
      destruct (s_open a) as [o|]; [|reflexivity].
      destruct (closes o l); [apply finish_rebase|reflexivity]. }
    rewrite Hc. cbn [rebase s_open].
    destruct (s_open (close_signature l a)) as [o|]; [|apply Hfresh].
    destruct (continues o l); [reflexivity|apply Hfresh].
Qed.

Lemma scan_lines_rebase (base : list frag) (ls : list str) (a : state) :
  Forall (fun f => f_forwarded f = true) base ->
  scan_lines (rebase base a) ls = rebase base (scan_lines a ls).
Proof.
  intros Hb. revert a. induction ls as [|l ls IH]; intros a; [reflexivity|].
  change (scan_lines (rebase base a) (l :: ls))
    with (scan_lines (scan_line (rebase base a) l) ls).
  unfold scan_line. rewrite scan_stripped_rebase by exact Hb. apply IH.
Qed.

(** The state in which the lines above a forward header are scanned, and
    the fragments finished from there. *)
Definition above_state (below : list str) : state :=
  mkstate [] None (s_found (scanned below)).

Definition scanned_above (above below : list str) : state :=
  finish false (scan_lines (above_state below) (rev above)).

Lemma forall_mark_forwarded (fs : list frag) :
  Forall (fun f => f_forwarded f = true) (map mark_forwarded fs).
Proof. apply Forall_map, Forall_forall. reflexivity. Qed.

Lemma scanned_forward (above below : list str) (h : str) :
  is_forward (strip h) = true ->
  scanned (above ++ h :: below)
  = rebase (map mark_forwarded (s_done (scanned below)))
      (scanned_above above below).
Proof.
  intros Hh. unfold scanned, scanned_above.
  rewrite rev_app_distr. cbn [rev]. rewrite <- app_assoc.
  rewrite !scan_lines_app. cbn [app].
  change (scan_lines (scan_lines init (rev below)) [h])
    with (scan_stripped (scan_lines init (rev below)) (strip h)).
  unfold scan_stripped at 1. rewrite Hh.
  fold (scanned below).
  rewrite <- finish_rebase, <- scan_lines_rebase
    by apply forall_mark_forwarded.
  unfold rebase, above_state; cbn. rewrite app_nil_r. reflexivity.
Qed.

(** ** The state once a text is scanned *)

Lemma shaped_finish (sg : bool) (a : state) : shaped a -> shaped (finish sg a).
Proof.
  apply inv_finish. intros o sg' h Ho. split; [discriminate|exact Ho].
Qed.

Lemma replays_finish (sg : bool) (a : state) :
  inv replays replays_open a -> inv replays replays_open (finish sg a).
Proof.
  apply inv_finish. intros o sg' h Ho Hs. cbn in Hs. subst sg'.
  exists (o_first o), (o_rest o). split; [reflexivity|].
  cbn [f_lines f_quoted]. rewrite Ho. destruct o; reflexivity.
Qed.

Lemma no_sep_rev_split (t : str) :
  Forall (fun l => ~ In LF l) (rev (split LF t)).
Proof. apply Forall_rev, split_no_sep. Qed.

Lemma scanned_shaped (ls : list str) :
  Forall (fun l => ~ In LF l) ls -> Forall shape (s_done (scanned ls)).
Proof.
  intros H. apply shaped_finish, shaped_scan_lines.
  - apply Forall_rev. exact H.
  - apply shaped_init.
Qed.

Lemma scanned_replays (ls : list str) : Forall replays (s_done (scanned ls)).
Proof.
  apply replays_finish, replays_scan_lines.
  split; [constructor|discriminate].
Qed.

Lemma scanned_hides (ls : list str) : hides false (scanned ls).
Proof.
  apply hides_finish, hides_scan_lines. split; [exact I|reflexivity].
Qed.

Lemma scanned_lines (ls : list str) :
  concat (map f_lines (s_done (scanned ls))) = rev (kept_lines ls).
Proof.
  rewrite <- all_lines_closed by apply finish_open.
  unfold scanned. rewrite all_lines_finish, all_lines_scan_lines.
  cbn. apply kept_lines_rev.
Qed.

Lemma scanned_above_lines (above below : list str) :
  concat (map f_lines (s_done (scanned_above above below)))
  = rev (kept_lines above).
Proof.
  rewrite <- all_lines_closed by apply finish_open.
  unfold scanned_above. rewrite all_lines_finish, all_lines_scan_lines.
  cbn. apply kept_lines_rev.
Qed.

(** ** From the fragments of the model to those of the message *)

Lemma conc_frag_hideable (f : frag) : hideable (conc_frag f) = f_dull f.
Proof. reflexivity. Qed.

Lemma conc_frag_content_lines (f : frag) :
  shape f -> content_lines (conc_frag f) = rev (f_lines f).
Proof. intros H. unfold content_lines; cbn. apply shape_content_lines, H. Qed.

Lemma rev_concat_rev {A : Type} (ls : list (list A)) :
  concat (map (@rev A) (rev ls)) = rev (concat ls).
Proof.
  induction ls as [|l ls IH]; [reflexivity|].
  cbn [rev concat]. rewrite map_app, concat_app, IH, rev_app_distr.
  cbn. rewrite app_nil_r. reflexivity.
Qed.

(** The lines of the contents, in the order of the text. *)
Lemma content_lines_rev (fs : list frag) :
  Forall shape fs ->
  flat_map content_lines (rev (map conc_frag fs))
  = rev (concat (map f_lines fs)).
Proof.
  intros H. rewrite <- rev_concat_rev, flat_map_concat_map, <- !map_rev.
  f_equal. rewrite !map_map. apply map_ext_in.
  intros f Hf. apply conc_frag_content_lines.
  apply in_rev in Hf. revert f Hf. apply Forall_forall. exact H.
Qed.

Lemma contents_join (fs : list frag) :
  Forall shape fs ->
  join [LF] (map f_content fs) = join [LF] (concat (map (fun f => rev (f_lines f)) fs)).
Proof.
  intros H. unfold f_content, content_of.
  rewrite <- join_concat, map_map; [reflexivity|].
  apply Forall_map. revert H. apply Forall_impl.
  intros f [Hn _] E. apply Hn.
  apply (f_equal (@rev _)) in E. rewrite rev_involutive in E. exact E.
Qed.

End ModelFacts.

(* ================================================================= *)
(** * What [read] and [parse_reply] return *)

Section Results.

Import Model ModelFacts StrFacts.

Lemma read_of_normalised (text t : str) :
  normalised text = Ok t -> EmailReplyParser.read text = Ok (message_of t).
Proof. intros H. rewrite read_normalised, H. reflexivity. Qed.

Lemma read_inv (text : str) (m : EmailMessage.t) :
  EmailReplyParser.read text = Ok m ->
  exists t, normalised text = Ok t /\ m = message_of t.
Proof.
  rewrite read_normalised. destruct (normalised text) as [t|e]; [|discriminate].
  intros [= <-]. exists t. split; reflexivity.
Qed.

Lemma message_fragments (t : str) :
  EmailMessage.fragments (message_of t)
  = rev (map conc_frag (s_done (scanned (split LF t)))).
Proof. reflexivity. Qed.

Lemma split_shaped (t : str) : Forall shape (s_done (scanned (split LF t))).
Proof. apply scanned_shaped, split_no_sep. Qed.

Lemma reply_loop_conc (fs : list frag) :
  EmailMessage.reply_loop (map conc_frag fs)
  = Ok (map f_content
          (filter (fun f => negb (f_hidden f || f_quoted f || f_forwarded f))
             fs)).
Proof.
  induction fs as [|f fs IH]; [reflexivity|].
  cbn [map EmailMessage.reply_loop filter].
  change (Fragment.hidden (conc_frag f)) with (f_hidden f).
  change (Fragment.quoted (conc_frag f)) with (f_quoted f).
  change (Fragment.forwarded (conc_frag f)) with (f_forwarded f).
  destruct (negb (f_hidden f || f_quoted f || f_forwarded f)); [|exact IH].
  cbn [conc_frag Fragment.content Fragment._content]. rewrite IH. reflexivity.
Qed.

(** The fragments of the model that make the reply of a text. *)
Definition reply_frags (t : str) : list frag :=
  filter (fun f => negb (f_hidden f || f_quoted f || f_forwarded f))
    (rev (s_done (scanned (split LF t)))).

Lemma reply_message (t : str) :
  EmailMessage.reply (message_of t)
  = Ok (join [LF] (map f_content (reply_frags t))).
Proof.
  unfold EmailMessage.reply. rewrite message_fragments, <- map_rev.
  rewrite reply_loop_conc. reflexivity.
Qed.

Lemma parse_reply_inv (text r : str) :
  EmailReplyParser.parse_reply text = Ok r ->
  exists t, normalised text = Ok t
            /\ r = join [LF] (map f_content (reply_frags t)).
Proof.
  unfold EmailReplyParser.parse_reply.
  destruct (EmailReplyParser.read text) as [m|e] eqn:E; [|discriminate].
  apply read_inv in E as (t & Ht & ->). cbn [bind]. rewrite reply_message.
  intros [= <-]. exists t. split; [exact Ht|reflexivity].
Qed.

Lemma reply_frags_shaped (t : str) :
  Forall (fun f => shape f /\ f_quoted f = false) (reply_frags t).
Proof.
  apply Forall_forall. intros f Hf. apply filter_In in Hf as [Hin Hk].
  split.
  - pose proof (split_shaped t) as H. rewrite Forall_forall in H.
    apply H, in_rev. exact Hin.
  - destruct (f_quoted f); [|reflexivity].
    rewrite orb_true_r in Hk. discriminate Hk.
Qed.

(** The lines of a reply are those of the fragments it is made of. *)
Lemma reply_lines (fs : list frag) (l : str) :
  Forall shape fs ->
  In l (split LF (join [LF] (map f_content fs))) ->
  l = [] \/ exists f, In f fs /\ In l (f_lines f).
Proof.
  intros Hs Hl. destruct fs as [|f0 fs0].
  - cbn in Hl. destruct Hl as [<-|[]]. left. reflexivity.
  - right.
    assert (Hne : concat (map (fun f => rev (f_lines f)) (f0 :: fs0)) <> []).
    { cbn. inversion Hs as [|? ? [Hn _] _]; subst.
      intros E. apply app_eq_nil in E as [E _]. apply Hn.
      apply (f_equal (@rev _)) in E. rewrite rev_involutive in E. exact E. }
    set (fs := f0 :: fs0) in *.
    rewrite contents_join in Hl by exact Hs.
    rewrite split_join in Hl; [|exact Hne|].
    + apply in_concat in Hl as (ls & Hls & Hl).
      apply in_map_iff in Hls as (f & <- & Hf).
      exists f. split; [exact Hf|]. apply in_rev. exact Hl.
    + apply Forall_concat, Forall_map. revert Hs. apply Forall_impl.
      intros f [_ [Hok _]]. apply Forall_rev. revert Hok.
      apply Forall_impl. intros x (_ & H & _). exact H.
Qed.

End Results.

(* ================================================================= *)
(** * Properties of the parser *)

Section Properties.

Import Model ModelFacts StrFacts.

(** ** Signatures *)

(** C1, as the code has it: in "Hello", "--", "Sent from my iPhone" no
    blank line precedes the signature, the signature closure of
    [_scan_line] does not fire, the three lines make one visible fragment
    and [parse_reply] returns the text unchanged.  With a blank line
    before "--", the last two lines are a hidden signature fragment and
    the reply is "Hello" followed by a line end. *)
Theorem signature_needs_blank_line :
  fragments_of (text_of ["Hello"; "--"; "Sent from my iPhone"])
  = Ok [ {| Fragment.signature := false;
            Fragment.hidden := false;
            Fragment.quoted := false;
            Fragment.forwarded := false;
            Fragment._content :=
              Some (text_of ["Hello"; "--"; "Sent from my iPhone"]);
            Fragment.lines := None |} ]
  /\ EmailReplyParser.parse_reply
       (text_of ["Hello"; "--"; "Sent from my iPhone"])
     = Ok (text_of ["Hello"; "--"; "Sent from my iPhone"])
  /\ fragments_of (text_of ["Hello"; ""; "--"; "Sent from my iPhone"])
     = Ok [ {| Fragment.signature := false;
               Fragment.hidden := false;
               Fragment.quoted := false;
               Fragment.forwarded := false;
               Fragment._content := Some (text_of ["Hello"; ""]);
               Fragment.lines := None |};
            {| Fragment.signature := true;
               Fragment.hidden := true;
               Fragment.quoted := false;
               Fragment.forwarded := false;
               Fragment._content :=
                 Some (text_of ["--"; "Sent from my iPhone"]);
               Fragment.lines := None |} ]
  /\ EmailReplyParser.parse_reply
       (text_of ["Hello"; ""; "--"; "Sent from my iPhone"])
     = Ok (text_of ["Hello"; ""]).
Proof. repeat split; vm_compute; reflexivity. Qed.

(** C1 as it is stated fails: the reply to "Hello", "--",
    "Sent from my iPhone" is the whole text, which is not "Hello". *)
Lemma signature_without_blank_line_kept :
  EmailReplyParser.parse_reply
    (text_of ["Hello"; "--"; "Sent from my iPhone"])
  = Ok (text_of ["Hello"; "--"; "Sent from my iPhone"])
  /\ text_of ["Hello"; "--"; "Sent from my iPhone"] <> "Hello".
Proof. split; [vm_compute; reflexivity|]. vm_compute. discriminate. Qed.

(** ** Exceptions *)

(** C3 at a text on which the code raises: the quote header found by
    [has_quote_header] is handed to [sub] as a replacement template, and
    a backslash followed by 9 in it refers to a group that the pattern
    does not have. *)
Theorem read_raises_on_group_reference :
  EmailReplyParser.read "On \9 wrote:" = Raise re_error
  /\ EmailReplyParser.parse_reply "On \9 wrote:" = Raise re_error.
Proof. split; vm_compute; reflexivity. Qed.


(** ** The quote header *)

(** C4 at a text with two quote headers: [sub] replaces both by the first
    one without its line end, so that the second header is not left as it
    was. *)
Theorem second_quote_header_overwritten :
  normalised (text_of ["On a"; "b wrote:"; "x"; "On c"; "d wrote:"])
  = Ok (text_of ["On ab wrote:"; "x"; "On ab wrote:"]).
Proof. vm_compute. reflexivity. Qed.

(** ** The contents and the text *)

(** C2, as the code has it: when the text is normalised to [t], [read]
    returns a message whose contents, joined by line ends in the order of
    the text, are the lines of [t] each stripped of the whitespace at its
    ends, without the lines that are forward headers; line for line, the
    lines of the contents are those lines. *)
Theorem contents_are_kept_lines (text t : str) :
  normalised text = Ok t ->
  exists m cs,
    EmailReplyParser.read text = Ok m
    /\ contents m = map Some cs
    /\ join [LF] cs = join [LF] (kept_lines (split LF t))
    /\ flat_map content_lines (EmailMessage.fragments m)
       = kept_lines (split LF t).
Proof.
  intros Ht. pose proof (split_shaped t) as Hs.
  set (done := s_done (scanned (split LF t))) in *.
  exists (message_of t), (map f_content (rev done)).
  split; [apply read_of_normalised; exact Ht|].
  unfold contents. rewrite message_fragments. fold done.
  assert (Hl : rev (concat (map f_lines done)) = kept_lines (split LF t)).
  { unfold done. rewrite scanned_lines. apply rev_involutive. }
  repeat split.
  - rewrite <- map_rev, !map_map. reflexivity.
  - rewrite contents_join by (apply Forall_rev; exact Hs).
    rewrite <- Hl, <- rev_concat_rev, <- map_rev, map_map. reflexivity.
  - rewrite content_lines_rev by exact Hs. exact Hl.
Qed.

Lemma contents_are_kept_lines_witness :
  exists m cs,
    EmailReplyParser.read (text_of ["  Hi  "; "--- Original Message ---"; "> x "])
    = Ok m
    /\ contents m = map Some cs
    /\ join [LF] cs
       = join [LF]
           (kept_lines
              (split LF
                 (text_of ["  Hi  "; "--- Original Message ---"; "> x "])))
    /\ flat_map content_lines (EmailMessage.fragments m)
       = kept_lines
           (split LF (text_of ["  Hi  "; "--- Original Message ---"; "> x "])).
Proof.
  apply (@contents_are_kept_lines
           (text_of ["  Hi  "; "--- Original Message ---"; "> x "])).
  vm_compute. reflexivity.
Defined.

(** C2 as it is stated fails: the text of the two spaces and "Hello" is
    normalised to itself, and the content of its one fragment is "Hello". *)
Lemma indentation_is_lost :
  normalised "  Hello" = Ok "  Hello"
  /\ (m <- EmailReplyParser.read "  Hello" ;; Ok (contents m))
     = Ok [Some "Hello"]
  /\ join [LF] ["Hello"] <> "  Hello".
Proof.
  repeat split; try (vm_compute; reflexivity). vm_compute. discriminate.
Qed.

(** ** Hidden fragments *)

Lemma scan_order (t : str) (pre post : list Fragment.t) (f : Fragment.t) :
  rev (EmailMessage.fragments (message_of t)) = pre ++ f :: post ->
  exists pre' f' post',
    s_done (scanned (split LF t)) = pre' ++ f' :: post'
    /\ pre = map conc_frag pre' /\ f = conc_frag f'
    /\ post = map conc_frag post'.
Proof.
  rewrite message_fragments, rev_involutive. intros H.
  apply map_eq_app in H as (pre' & rest & E & <- & H).
  apply map_eq_cons in H as (f' & post' & -> & <- & <-).
  exists pre', f', post'. repeat split. exact E.
Qed.

Lemma forallb_hideable (fs : list frag) :
  forallb hideable (map conc_frag fs) = negb (existsb visible fs).
Proof.
  induction fs as [|f fs IH]; [reflexivity|].
  cbn [map forallb existsb]. rewrite IH, conc_frag_hideable.
  unfold visible. destruct (f_dull f); reflexivity.
Qed.

(** How [read] hides: in the order of the scan, a fragment is hidden if
    and only if it is hideable and so are all the fragments before it. *)
Lemma hidden_characterised (text : str) (m : EmailMessage.t)
    (pre post : list Fragment.t) (f : Fragment.t) :
  EmailReplyParser.read text = Ok m ->
  rev (EmailMessage.fragments m) = pre ++ f :: post ->
  Fragment.hidden f = hideable f && forallb hideable pre.
Proof.
  intros Hr Hf. apply read_inv in Hr as (t & _ & ->).
  apply scan_order in Hf as (pre' & f' & post' & E & -> & -> & _).
  pose proof (scanned_hides (split LF t)) as [H _]. rewrite E in H.
  apply hidden_from_split in H.
  rewrite forallb_hideable, conc_frag_hideable.
  change (Fragment.hidden (conc_frag f')) with (f_hidden f').
  rewrite H. cbn [orb]. apply andb_comm.
Qed.

(** C5: in the order in which the fragments are finished (the reverse of
    the order of the message), a fragment is hidden if and only if it is
    quoted, a signature or has nothing but whitespace in its content, and
    every fragment finished before it is so too, that is, none of them was
    marked visible; hence the first fragment that is none of the three
    keeps [hidden = False], and [found_visible] is set exactly when there
    is such a fragment. *)
Theorem hidden_iff_no_visible_before (text : str) (m : EmailMessage.t)
    (pre post : list Fragment.t) (f : Fragment.t) :
  EmailReplyParser.read text = Ok m ->
  rev (EmailMessage.fragments m) = pre ++ f :: post ->
  (Fragment.hidden f = true
   <-> hideable f = true /\ forallb hideable pre = true)
  /\ (hideable f = false -> Fragment.hidden f = false)
  /\ EmailMessage.found_visible m
     = negb (forallb hideable (rev (EmailMessage.fragments m))).
Proof.
  intros Hr Hf. rewrite (@hidden_characterised text m pre post f Hr Hf).
  split; [apply andb_true_iff|]. split; [intros ->; reflexivity|].
  apply read_inv in Hr as (t & _ & ->).
  rewrite message_fragments, rev_involutive, forallb_hideable, negb_involutive.
  apply (scanned_hides (split LF t)).
Qed.

Lemma hidden_iff_no_visible_before_witness :
  let f := conc_frag (mkfrag ["Sent from my iPhone"; "--"] false true true
                        false) in
  (Fragment.hidden f = true
   <-> hideable f = true /\ forallb hideable [] = true)
  /\ (hideable f = false -> Fragment.hidden f = false)
  /\ EmailMessage.found_visible
       (message_of (text_of ["Hello"; ""; "--"; "Sent from my iPhone"]))
     = negb (forallb hideable
               (rev (EmailMessage.fragments
                       (message_of
                          (text_of ["Hello"; ""; "--";
                                    "Sent from my iPhone"]))))).
Proof.
  apply (@hidden_iff_no_visible_before
           (text_of ["Hello"; ""; "--"; "Sent from my iPhone"])
           (message_of (text_of ["Hello"; ""; "--"; "Sent from my iPhone"]))
           []
           [conc_frag (mkfrag [""; "Hello"] false false false false)]);
    vm_compute; reflexivity.
Defined.

(** C6, as the code has it: once a fragment that is not hideable was
    finished, that is, once a fragment was marked visible, every fragment
    finished later keeps [hidden = False], be it quoted, a signature or
    blank; the fragment marked visible is not hidden afterwards. *)
Theorem not_hidden_after_visible (text : str) (m : EmailMessage.t)
    (pre post : list Fragment.t) (f : Fragment.t) :
  EmailReplyParser.read text = Ok m ->
  rev (EmailMessage.fragments m) = pre ++ f :: post ->
  (existsb (fun g => negb (hideable g)) pre = true ->
   Fragment.hidden f = false)
  /\ (hideable f = false -> Fragment.hidden f = false).
Proof.
  intros Hr Hf. rewrite (@hidden_characterised text m pre post f Hr Hf). split.
  - intros H. replace (forallb hideable pre) with false;
      [apply andb_false_r|].
    symmetry. apply not_true_is_false. intros Hall.
    apply existsb_exists in H as (g & Hg & Hng).
    rewrite forallb_forall in Hall. rewrite (Hall g Hg) in Hng.
    discriminate Hng.
  - intros ->. reflexivity.
Qed.

Lemma not_hidden_after_visible_witness :
  let v := conc_frag (mkfrag ["Hello"] false false false false) in
  let f := conc_frag (mkfrag ["> quoted"] true false false false) in
  (existsb (fun g => negb (hideable g)) [v] = true ->
   Fragment.hidden f = false)
  /\ (hideable f = false -> Fragment.hidden f = false).
Proof.
  apply (@not_hidden_after_visible
           (text_of ["> quoted"; "Hello"])
           (message_of (text_of ["> quoted"; "Hello"]))
           [conc_frag (mkfrag ["Hello"] false false false false)]
           []);
    vm_compute; reflexivity.
Defined.

(** C6 as it is stated fails: in "> quoted", "Hello" the fragment "Hello"
    is finished first and marked visible; the quoted fragment is finished
    after it and is not hidden. *)
Lemma quoted_after_visible_not_hidden :
  (m <- EmailReplyParser.read (text_of ["> quoted"; "Hello"]) ;;
   Ok (map (fun f => (Fragment.content f, Fragment.quoted f, Fragment.hidden f))
         (rev (EmailMessage.fragments m))))
  = Ok [ (Some "Hello", false, false); (Some "> quoted", true, false) ].
Proof. vm_compute. reflexivity. Qed.

(** ** The reply *)

(** [QUOTED_REGEX] matches the lines that begin with [>]. *)
Lemma quoted_line_startswith (l : str) : quoted_line l = startswith ">" l.
Proof.
  destruct l as [|c rest]; [reflexivity|].
  unfold quoted_line, re_match, match_at, EmailMessage.QUOTED_REGEX, Plus.
  cbn [run c_rest length Nat.leb orelse below eat c_pos startswith].
  rewrite andb_true_r.
  destruct (Ascii.eqb ">" c); [|reflexivity].
  cbn [Nat.ltb Nat.leb c_pos].
  destruct (length rest) as [|n]; cbn [orelse andb]; [reflexivity|].
  match goal with
  | |- context [orelse (orelse ?x (Some ?y)) None] =>
      destruct x as [[? ?]|]; reflexivity
  end.
Qed.

(** C7: no line of the reply matches [QUOTED_REGEX], which [re.match]
    tries at the start of the line: no line of the reply begins with
    [>]. *)
Theorem reply_has_no_quoted_line (text r : str) :
  EmailReplyParser.parse_reply text = Ok r ->
  Forall (fun l => quoted_line l = false /\ startswith ">" l = false)
    (split LF r).
Proof.
  intros H. apply parse_reply_inv in H as (t & _ & ->).
  pose proof (reply_frags_shaped t) as Hs.
  apply Forall_forall. intros l Hl.
  rewrite <- quoted_line_startswith.
  enough (quoted_line l = false) by (split; assumption).
  apply reply_lines in Hl.
  - destruct Hl as [->|(f & Hf & Hl)]; [vm_compute; reflexivity|].
    rewrite Forall_forall in Hs. destruct (Hs f Hf) as [[_ [_ Hq]] Hu].
    specialize (Hq Hu). rewrite Forall_forall in Hq. exact (Hq l Hl).
  - revert Hs. apply Forall_impl. intros f [H _]. exact H.
Qed.

Lemma reply_has_no_quoted_line_witness :
  Forall (fun l => quoted_line l = false /\ startswith ">" l = false)
    (split LF (text_of ["Hi,"; "how are you?"])).
Proof.
  apply (@reply_has_no_quoted_line
           (text_of ["Hi,"; "how are you?"; "";
                     "On Mon, Jan 1, 2018, Bob wrote:"; "> fine thanks"])).
  vm_compute. reflexivity.
Defined.

(** ** Whitespace *)

Lemma trimmed_nil : trimmed [].
Proof.
  split; intros c t E; [discriminate E|].
  symmetry in E. apply app_eq_nil in E as [_ E]. discriminate E.
Qed.

(** C10: every line of the content of every fragment, and every line of
    the reply, is without whitespace at its start and at its end, and is
    left as it is by [strip]: the indentation and the trailing spaces of
    the text are not kept. *)
Theorem lines_are_stripped (text : str) :
  (forall m f l,
     EmailReplyParser.read text = Ok m ->
     In f (EmailMessage.fragments m) -> In l (content_lines f) ->
     trimmed l /\ strip l = l)
  /\ (forall r l,
        EmailReplyParser.parse_reply text = Ok r -> In l (split LF r) ->
        trimmed l /\ strip l = l).
Proof.
  assert (Hstrip : forall l, trimmed l -> trimmed l /\ strip l = l).
  { intros l H. split; [exact H|apply trimmed_strip; exact H]. }
  split.
  - intros m f l Hr Hf Hl. apply Hstrip.
    apply read_inv in Hr as (t & _ & ->).
    rewrite message_fragments in Hf. apply in_rev in Hf.
    apply in_map_iff in Hf as (g & <- & Hg).
    pose proof (split_shaped t) as Hs. rewrite Forall_forall in Hs.
    specialize (Hs g Hg). rewrite (conc_frag_content_lines Hs) in Hl.
    apply in_rev in Hl.
    destruct Hs as [_ [Hok _]]. rewrite Forall_forall in Hok.
    apply (Hok l Hl).
  - intros r l Hr Hl. apply Hstrip.
    apply parse_reply_inv in Hr as (t & _ & ->).
    pose proof (reply_frags_shaped t) as Hs.
    apply reply_lines in Hl.
    + destruct Hl as [->|(f & Hf & Hl)]; [apply trimmed_nil|].
      rewrite Forall_forall in Hs. destruct (Hs f Hf) as [[_ [Hok _]] _].
      rewrite Forall_forall in Hok. apply (Hok l Hl).
    + revert Hs. apply Forall_impl. intros f [H _]. exact H.
Qed.

Lemma lines_are_stripped_witness :
  trimmed "Hi there" /\ strip "Hi there" = "Hi there".
Proof.
  apply (proj2 (lines_are_stripped
                  (text_of ["   Hi there  "; ""; "  > quoted  "]))
           "Hi there" "Hi there").
  - vm_compute. reflexivity.
  - vm_compute. left. reflexivity.
Defined.

(** ** Forward headers *)

Lemma unforwarded_finish (sg : bool) (a : state) :
  Forall (fun f => f_forwarded f = false) (s_done a) ->
  Forall (fun f => f_forwarded f = false) (s_done (finish sg a)).
Proof.
  intros H. unfold finish. destruct (s_open a); [|exact H]. cbn.
  apply Forall_app. split; [exact H|]. constructor; [reflexivity|constructor].
Qed.

Lemma lines_mark_forwarded (fs : list frag) :
  map f_lines (map mark_forwarded fs) = map f_lines fs.
Proof. rewrite map_map. reflexivity. Qed.

Lemma line_ok_not_forward (l : str) : line_ok l -> forward_line l = false.
Proof.
  intros (Ht & _ & Hf). unfold forward_line.
  rewrite (trimmed_strip Ht). exact Hf.
Qed.

(** C8: let the line [h] of the normalised text be a forward header, with
    the lines [above] before it and the lines [below] after it.  The
    fragments of the message are those of the lines above followed by
    those of the lines below, which the scan finished at or before [h]:
    the latter are all forwarded; [h] is in no content and in no
    fragment, the contents being made of the lines kept above and of the
    lines kept below; the fragments opened after [h] in the scan, those
    above, are not forwarded unless a line above is a forward header too.
    No line of any content is a forward header. *)
Theorem forward_header_is_boundary (text t : str) (above below : list str)
    (h : str) :
  normalised text = Ok t ->
  split LF t = above ++ h :: below ->
  forward_line h = true ->
  exists m fa fb,
    EmailReplyParser.read text = Ok m
    /\ EmailMessage.fragments m = fa ++ fb
    /\ Forall (fun f => Fragment.forwarded f = true) fb
    /\ flat_map content_lines fb = kept_lines below
    /\ flat_map content_lines fa = kept_lines above
    /\ (Forall (fun l => forward_line l = false) above ->
        Forall (fun f => Fragment.forwarded f = false) fa)
    /\ Forall (fun f => Forall (fun l => forward_line l = false)
                          (content_lines f))
         (EmailMessage.fragments m).
Proof.
  intros Ht Hsplit Hh.
  pose proof (split_shaped t) as Hs.
  pose proof (message_fragments t) as Hm.
  rewrite Hsplit in Hs, Hm. rewrite (scanned_forward above below h Hh) in Hs, Hm.
  cbn [rebase s_done] in Hs, Hm.
  set (B := map mark_forwarded (s_done (scanned below))) in *.
  set (A := s_done (scanned_above above below)) in *.
  apply Forall_app in Hs as [HB HA].
  rewrite map_app, rev_app_distr in Hm.
  exists (message_of t), (rev (map conc_frag A)), (rev (map conc_frag B)).
  split; [apply read_of_normalised; exact Ht|].
  split; [exact Hm|].
  split; [|split; [|split; [|split]]].
  - apply Forall_rev, Forall_map. unfold B. apply Forall_map, Forall_forall.
    reflexivity.
  - rewrite (content_lines_rev HB). unfold B.
    rewrite lines_mark_forwarded, scanned_lines. apply rev_involutive.
  - rewrite (content_lines_rev HA). unfold A.
    rewrite scanned_above_lines. apply rev_involutive.
  - intros Hab. apply Forall_rev, Forall_map. unfold A, scanned_above.
    apply unforwarded_finish, unforwarded_scan_lines; [|constructor].
    apply Forall_rev. exact Hab.
  - rewrite Hm. apply Forall_app.
    assert (H : forall fs, Forall shape fs ->
              Forall (fun f => Forall (fun l => forward_line l = false)
                                 (content_lines f))
                (rev (map conc_frag fs))).
    { intros fs Hfs. apply Forall_rev, Forall_map. revert Hfs.
      apply Forall_impl. intros f Hf.
      rewrite (conc_frag_content_lines Hf). apply Forall_rev.
      destruct Hf as [_ [Hok _]]. revert Hok. apply Forall_impl.
      apply line_ok_not_forward. }
    split; apply H; assumption.
Qed.

Lemma forward_header_is_boundary_witness :
  exists m fa fb,
    EmailReplyParser.read
      (text_of ["Hi"; "---- Original Message ----"; "From: Bob"; "> old"])
    = Ok m
    /\ EmailMessage.fragments m = fa ++ fb
    /\ Forall (fun f => Fragment.forwarded f = true) fb
    /\ flat_map content_lines fb = kept_lines ["From: Bob"; "> old"]
    /\ flat_map content_lines fa = kept_lines ["Hi"]
    /\ (Forall (fun l => forward_line l = false) ["Hi"] ->
        Forall (fun f => Fragment.forwarded f = false) fa)
    /\ Forall (fun f => Forall (fun l => forward_line l = false)
                          (content_lines f))
         (EmailMessage.fragments m).
Proof.
  apply (@forward_header_is_boundary
           (text_of ["Hi"; "---- Original Message ----"; "From: Bob"; "> old"])
           (text_of ["Hi"; "---- Original Message ----"; "From: Bob"; "> old"])
           ["Hi"] ["From: Bob"; "> old"] "---- Original Message ----");
    vm_compute; reflexivity.
Defined.

(** ** Parsing the visible fragment again *)

Lemma filter_singleton {A : Type} (p : A -> bool) (l : list A) (x : A) :
  filter p l = [x] ->
  exists pre post,
    l = pre ++ x :: post
    /\ Forall (fun y => p y = false) pre
    /\ Forall (fun y => p y = false) post
    /\ p x = true.
Proof.
  induction l as [|y l IH]; cbn [filter]; [discriminate|].
  destruct (p y) eqn:Ey.
  - intros [= -> H]. exists [], l.
    split; [reflexivity|]. split; [constructor|]. split; [|exact Ey].
    apply Forall_forall. intros z Hz.
    destruct (p z) eqn:Ez; [|reflexivity].
    assert (Hin : In z (filter p l)) by (apply filter_In; auto).
    rewrite H in Hin. destruct Hin.
  - intros H. destruct (IH H) as (pre & post & -> & Hpre & Hpost & Hx).
    exists (y :: pre), post.
    split; [reflexivity|]. split; [constructor; assumption|].
    split; assumption.
Qed.

Lemma filter_conc_frag (p : Fragment.t -> bool) (fs : list frag) :
  filter p (map conc_frag fs)
  = map conc_frag (filter (fun f => p (conc_frag f)) fs).
Proof.
  induction fs as [|f fs IH]; [reflexivity|]. cbn [map filter].
  destruct (p (conc_frag f)); cbn [map]; rewrite IH; reflexivity.
Qed.

Lemma hidden_all (found : bool) (fs : list frag) :
  hidden_from found fs ->
  Forall (fun f => negb (f_hidden f) = false) fs ->
  existsb visible fs = false.
Proof.
  revert found. induction fs as [|f fs IH]; intros found; [reflexivity|].
  cbn [hidden_from existsb]. intros [H1 H2] H. inversion H as [|? ? Hf Hfs]; subst.
  apply negb_false_iff in Hf. rewrite Hf in H1. symmetry in H1.
  apply andb_true_iff in H1 as [_ Hd]. unfold visible at 1. rewrite Hd.
  cbn [negb orb]. exact (IH _ H2 Hfs).
Qed.

Lemma hidden_none (fs : list frag) :
  hidden_from true fs ->
  Forall (fun f => negb (f_hidden f) = false) fs -> fs = [].
Proof.
  destruct fs as [|f fs]; [reflexivity|].
  cbn [hidden_from]. intros [H1 _] H. inversion H as [|? ? Hf _]; subst.
  rewrite H1 in Hf. discriminate Hf.
Qed.

(** When one fragment alone is not hidden, it is the one finished last;
    it is neither quoted nor a signature, and its content is not blank. *)
Lemma only_visible_is_last (ls : list str) (f : frag) :
  filter (fun f => negb (f_hidden f)) (s_done (scanned ls)) = [f] ->
  (exists pre, s_done (scanned ls) = pre ++ [f]) /\ f_dull f = false.
Proof.
  intros H.
  apply filter_singleton in H as (pre & post & E & Hpre & Hpost & Hf).
  pose proof (scanned_hides ls) as [Hh _]. rewrite E in Hh.
  pose proof (@hidden_from_split false pre post f Hh) as Hd.
  change (pre ++ f :: post) with (pre ++ [f] ++ post) in Hh.
  rewrite app_assoc in Hh.
  apply hidden_from_app in Hh as [Hh Hpost'].
  apply hidden_from_app in Hh as [Hh _].
  rewrite (@hidden_all false pre Hh Hpre) in Hd. cbn in Hd.
  apply negb_true_iff in Hf. rewrite Hf in Hd. symmetry in Hd.
  rewrite existsb_app in Hpost'. cbn [existsb] in Hpost'.
  unfold visible at 2 in Hpost'. rewrite Hd in Hpost'.
  cbn [negb orb] in Hpost'. rewrite orb_true_r in Hpost'.
  rewrite (@hidden_none post Hpost' Hpost) in E.
  split; [exists pre; exact E|exact Hd].
Qed.

(** The content of a fragment in which no quote header that may run over
    several lines is found is normalised to itself: its lines are
    stripped, so that [__init__] finds no line end to convert. *)
Lemma content_without_header_normalised (text c : str) (m : EmailMessage.t)
    (f : Fragment.t) :
  EmailReplyParser.read text = Ok m ->
  In f (EmailMessage.fragments m) ->
  Fragment.content f = Some c ->
  fst (EmailMessage.has_quote_header c) = None ->
  normalised c = Ok c.
Proof.
  intros Hr Hf Hc Hh. apply read_inv in Hr as (t & _ & ->).
  rewrite message_fragments in Hf. apply in_rev in Hf.
  apply in_map_iff in Hf as (F & <- & HF).
  pose proof (split_shaped t) as Hs. rewrite Forall_forall in Hs.
  destruct (Hs F HF) as [_ [Hok _]].
  cbn in Hc. injection Hc as <-.
  assert (E : replace [CR; LF] [LF] (f_content F) = f_content F).
  { apply replace_crlf_join, Forall_rev. revert Hok. apply Forall_impl.
    intros l (Ht & Hn & _). split; assumption. }
  unfold normalised, EmailMessage.collapse_quote_header,
    EmailMessage.__init__, EmailMessage.set_found_visible.
  cbn [EmailMessage.text]. rewrite E.
  destruct (EmailMessage.has_quote_header (f_content F)) as [mo rx].
  cbn [fst] in Hh. subst mo. reflexivity.
Qed.

(** C9, as the code has it: when one fragment alone of the message is not
    hidden, and the normalisation leaves its content as it is (as it does
    when no quote header that may run over several lines is found in it),
    parsing the content gives one fragment with that content, which is
    neither hidden, quoted, a signature nor forwarded. *)
Theorem visible_content_parsed_again (text c : str) (m : EmailMessage.t)
    (f : Fragment.t) :
  EmailReplyParser.read text = Ok m ->
  filter (fun f => negb (Fragment.hidden f)) (EmailMessage.fragments m) = [f] ->
  Fragment.content f = Some c ->
  normalised c = Ok c ->
  fragments_of c
  = Ok [ {| Fragment.signature := false;
            Fragment.hidden := false;
            Fragment.quoted := false;
            Fragment.forwarded := false;
            Fragment._content := Some c;
            Fragment.lines := None |} ].
Proof.
  intros Hr Hf Hc Hn. apply read_inv in Hr as (t & _ & ->).
  rewrite message_fragments, <- map_rev, filter_conc_frag in Hf.
  change (fun f0 => negb (Fragment.hidden (conc_frag f0)))
    with (fun f0 => negb (f_hidden f0)) in Hf.
  assert (Hf' : exists F,
            filter (fun f => negb (f_hidden f)) (s_done (scanned (split LF t)))
            = [F] /\ f = conc_frag F).
  { destruct (filter _ (rev _)) as [|F [|G Fs]] eqn:E; try discriminate Hf.
    injection Hf as <-. exists F. split; [|reflexivity].
    apply (f_equal (@rev _)) in E. rewrite <- filter_rev, rev_involutive in E.
    exact E. }
  destruct Hf' as (F & HF & ->). clear Hf.
  apply only_visible_is_last in HF as [[pre E] Hd].
  assert (HinF : In F (s_done (scanned (split LF t)))).
  { rewrite E. apply in_or_app. right. left. reflexivity. }
  pose proof (split_shaped t) as Hs. rewrite Forall_forall in Hs.
  specialize (Hs F HinF).
  pose proof (scanned_replays (split LF t)) as Hrep.
  rewrite Forall_forall in Hrep. specialize (Hrep F HinF).
  unfold f_dull, dull in Hd.
  apply orb_false_iff in Hd as [Hd Hblank].
  apply orb_false_iff in Hd as [Hq Hsig].
  destruct (Hrep Hsig) as (first & rest & Hlines & Hreplay).
  cbn in Hc. injection Hc as <-.
  unfold fragments_of. rewrite (@read_of_normalised _ _ Hn). cbn [bind].
  rewrite message_fragments, (shape_content_lines Hs).
  unfold scanned. rewrite rev_involutive.
  rewrite scan_lines_trimmed.
  2:{ destruct Hs as [_ [Hok _]]. revert Hok. apply Forall_impl.
      intros l [H _]. exact H. }
  fold (replay (f_lines F)). rewrite Hreplay, Hq.
  unfold finish; cbn [s_open s_done s_found o_lines o_first o_rest o_quoted].
  unfold dull, o_lines. cbn [orb negb andb o_first o_rest].
  rewrite <- Hlines. fold (f_content F). rewrite Hblank.
  cbn [app map rev]. unfold conc_frag, f_content. cbn [f_lines f_quoted
    f_signature f_hidden f_forwarded].
  reflexivity.
Qed.

Lemma visible_content_parsed_again_witness :
  fragments_of (text_of ["Hi,"; "how are you?"])
  = Ok [ {| Fragment.signature := false;
            Fragment.hidden := false;
            Fragment.quoted := false;
            Fragment.forwarded := false;
            Fragment._content := Some (text_of ["Hi,"; "how are you?"]);
            Fragment.lines := None |} ].
Proof.
  apply (@visible_content_parsed_again
           (text_of ["Hi,"; "how are you?"; "";
                     "On Mon, Jan 1, 2018, Bob wrote:"; "> fine thanks"])
           (text_of ["Hi,"; "how are you?"])
           (message_of
              (text_of ["Hi,"; "how are you?"; "";
                        "On Mon, Jan 1, 2018, Bob wrote:"; "> fine thanks"]))
           (conc_frag
              (mkfrag ["how are you?"; "Hi,"] false false false false)));
    vm_compute; reflexivity.
Defined.

(** C9 as it is stated fails: of the two fragments of "Am", "x schrieb:",
    "> On a wrote:" the first alone is not hidden; its content is the
    first two lines, in which [read] finds a German quote header over two
    lines and makes one line of them. *)
Lemma wrapped_header_joined_when_parsed_again :
  (m <- EmailReplyParser.read (text_of ["Am"; "x schrieb:"; "> On a wrote:"]) ;;
   Ok (map (fun f => (Fragment.content f, Fragment.hidden f))
         (EmailMessage.fragments m)))
  = Ok [ (Some (text_of ["Am"; "x schrieb:"]), false);
         (Some "> On a wrote:", true) ]
  /\ (m <- EmailReplyParser.read (text_of ["Am"; "x schrieb:"]) ;;
      Ok (map (fun f => (Fragment.content f, Fragment.hidden f))
            (EmailMessage.fragments m)))
     = Ok [ (Some "Amx schrieb:", false) ]
  /\ "Amx schrieb:" <> text_of ["Am"; "x schrieb:"].
Proof.
  repeat split; try (vm_compute; reflexivity). vm_compute. discriminate.
Qed.

End Properties.

(* ================================================================= *)
(** * The matcher and the templates *)

Module ReFacts.

Import Template.

(** The iteration of a repetition, as in [run]. *)
Section Iteration.

Variable body :
  cursor -> captures ->
  (cursor -> captures -> option (cursor * captures)) ->
  option (cursor * captures).
Variable k : cursor -> captures -> option (cursor * captures).
Variables (greedy : bool) (lo : nat) (hi : option nat).

Fixpoint rep_iter (fuel i : nat) (cur : cursor) (cp : captures)
    : option (cursor * captures) :=
  let stop := if lo <=? i then k cur cp else None in
  let more :=
    match fuel with
    | O => None
    | S fuel' =>
        if below i hi
        then body cur cp
               (fun cur' cp' =>
                  if c_pos cur <? c_pos cur'
                  then rep_iter fuel' (S i) cur' cp'
                  else None)
        else None
    end in
  if greedy then orelse more stop else orelse stop more.

Hypothesis body_result :
  forall cur cp k' x,
    body cur cp k' = Some x -> exists cur' cp', k' cur' cp' = Some x.

Lemma rep_iter_result (fuel : nat) :
  forall i cur cp x,
    rep_iter fuel i cur cp = Some x -> exists cur' cp', k cur' cp' = Some x.
Proof.
  induction fuel as [|fuel IHf]; intros i cur cp x H.
  - cbn [rep_iter] in H.
    destruct (lo <=? i); [|destruct greedy; discriminate H].
    exists cur, cp. destruct greedy; cbn [orelse] in H;
      [exact H|destruct (k cur cp); [exact H|discriminate H]].
  - cbn [rep_iter] in H.
    set (stop := if lo <=? i then k cur cp else None) in H.
    assert (Hstop : forall y, stop = Some y ->
              exists cur' cp', k cur' cp' = Some y).
    { unfold stop. intros y Hy. destruct (lo <=? i); [|discriminate].
      exists cur, cp. exact Hy. }
    match type of H with
    | (if greedy then orelse ?m _ else _) = _ => set (more := m) in H
    end.
    assert (Hmore : forall y, more = Some y ->
              exists cur' cp', k cur' cp' = Some y).
    { unfold more. intros y Hy. destruct (below i hi); [|discriminate].
      apply body_result in Hy as (cur1 & cp1 & Hy).
      destruct (c_pos cur <? c_pos cur1); [|discriminate].
      apply IHf in Hy. exact Hy. }
    destruct greedy.
    + destruct more as [y|]; cbn [orelse] in H.
      * injection H as <-. apply Hmore. reflexivity.
      * apply Hstop. exact H.
    + destruct stop as [y|]; cbn [orelse] in H.
      * injection H as <-. apply Hstop. reflexivity.
      * apply Hmore. exact H.
Qed.

End Iteration.

Lemma run_rep (fl : flags) (greedy : bool) (lo : nat) (hi : option nat)
    (r : regex) (cur : cursor) (cp : captures)
    (k : cursor -> captures -> option (cursor * captures)) :
  run fl (Rep greedy lo hi r) cur cp k
  = rep_iter (run fl r) k greedy lo hi (length (c_rest cur)) 0 cur cp.
Proof. reflexivity. Qed.

(** What the matcher returns, the continuation returned. *)
Lemma run_result (fl : flags) (r : regex) :
  forall cur cp k x,
    run fl r cur cp k = Some x -> exists cur' cp', k cur' cp' = Some x.
Proof.
  assert (Hone : forall (p : ascii -> bool) cur cp
                   (k : cursor -> captures -> option (cursor * captures)) x,
             match eat p cur with
             | Some cur' => k cur' cp
             | None => None
             end = Some x ->
             exists cur' cp', k cur' cp' = Some x).
  { intros p cur cp k x H. destruct (eat p cur) as [cur'|]; [|discriminate].
    exists cur', cp. exact H. }
  induction r as [c| | | |cs| | | |r1 IH1 r2 IH2|r1 IH1 r2 IH2
                  |greedy lo hi r' IH|n r' IH];
    intros cur cp k x H.
  1-5: cbn [run] in H; apply Hone in H; exact H.
  - cbn [run] in H.
    destruct (at_bol fl cur); [|discriminate]. exists cur, cp. exact H.
  - cbn [run] in H.
    destruct (at_eol fl cur); [|discriminate]. exists cur, cp. exact H.
  - exists cur, cp. exact H.
  - cbn [run] in H.
    apply IH1 in H as (cur1 & cp1 & H). apply IH2 in H. exact H.
  - cbn [run] in H.
    destruct (run fl r1 cur cp k) eqn:E1; cbn [orelse] in H.
    + injection H as <-. apply IH1 in E1. exact E1.
    + apply IH2 in H. exact H.
  - rewrite run_rep in H. revert H. apply rep_iter_result. exact IH.
  - cbn [run] in H. apply IH in H as (cur' & cp' & H). eexists _, _. exact H.
Qed.

(** A match of a pattern that is one group has this group. *)
Lemma match_at_group (fl : flags) (n : nat) (r : regex) (text : str)
    (adv : bool) (cur : cursor) (m : Match) :
  match_at fl (Grp n r) text adv cur = Some m ->
  m_string m = text /\ m_ngroups m = groups_of (Grp n r)
  /\ exists a b, span_of n (m_captures m) = Some (a, b).
Proof.
  unfold match_at. destruct (run _ _ _ _ _) as [[cur' cp']|] eqn:E;
    [|discriminate].
  intros [= <-]. split; [reflexivity|]. split; [reflexivity|].
  cbn [run] in E.
  apply run_result in E as (cur1 & cp1 & E).
  destruct (adv && _); [discriminate|]. injection E as _ <-.
  cbn [m_captures span_of]. rewrite Nat.eqb_refl. eexists _, _. reflexivity.
Qed.

Lemma search_from_group (fl : flags) (n : nat) (r : regex) (text : str)
    (rest : str) :
  forall pos prev m,
    search_from fl (Grp n r) text pos prev rest = Some m ->
    m_string m = text /\ m_ngroups m = groups_of (Grp n r)
    /\ exists a b, span_of n (m_captures m) = Some (a, b).
Proof.
  induction rest as [|c rest IH]; intros pos prev m; cbn [search_from];
    destruct (match_at _ _ _ _ _) as [m'|] eqn:E.
  - intros [= <-]. exact (match_at_group _ _ _ _ _ _ E).
  - discriminate.
  - intros [= <-]. exact (match_at_group _ _ _ _ _ _ E).
  - apply IH.
Qed.

Lemma slice_incl (c : ascii) (s : str) (a b : nat) :
  In c (slice s a b) -> In c s.
Proof.
  unfold slice. intros H.
  rewrite <- (firstn_skipn a s). apply in_or_app. right.
  rewrite <- (firstn_skipn (b - a) (skipn a s)). apply in_or_app. left.
  exact H.
Qed.

Lemma replace_from_incl (c : ascii) (old new s : str) :
  ~ In c new ->
  forall skip, In c (replace_from old new s skip) -> In c s.
Proof.
  intros Hn. induction s as [|x s IH]; intros skip; cbn [replace_from];
    [tauto|].
  destruct skip as [|k].
  - destruct (startswith old (x :: s)).
    + intros H. apply in_app_or in H as [H|H]; [tauto|].
      right. exact (IH _ H).
    + intros [H|H]; [left; exact H|right; exact (IH _ H)].
  - intros H. right. exact (IH _ H).
Qed.

(** A replacement string without backslash is a template of literals. *)
Lemma parse_template_literal (ngroups : nat) (s : str) :
  ~ In BSL s -> parse_template ngroups s = Ok (map Literal s).
Proof.
  induction s as [|c s IH]; intros H; [reflexivity|].
  cbn [parse_template].
  destruct (Ascii.eqb_spec c BSL) as [->|Hc].
  - exfalso. apply H. left. reflexivity.
  - cbn [negb]. rewrite IH by (intros Hs; apply H; right; exact Hs).
    reflexivity.
Qed.





(** The name of a group, read up to [>], as in [parse_template]. *)
Section GroupName.

Variable ngroups : nat.
Variable parse : str -> result (list item).

Fixpoint getuntil (name t : str) : result (list item) :=
  match t with
  | [] => Raise re_error
  | x :: t' =>
      if Ascii.eqb x ">"
      then match t' with
           | [b] =>
               if Ascii.eqb b BSL then Raise re_error
               else named_group ngroups name (parse t')
           | _ => named_group ngroups name (parse t')
           end
      else if Ascii.eqb x BSL
      then match t' with
           | [] => Raise re_error
           | y :: t'' => getuntil (name ++ [x; y]) t''
           end
      else getuntil (name ++ [x]) t'
  end.


End GroupName.


End ReFacts.

(* ================================================================= *)
(** * Further properties: patterns tried in order, exceptions *)

(** A property of the lines of a text that is given, checked line by
    line by evaluation. *)
Ltac check_lines :=
  match goal with
  | |- Forall ?P ?l =>
      let l' := eval vm_compute in l in change (Forall P l')
  end;
  repeat (apply Forall_cons;
          [cbv beta; repeat split; vm_compute; reflexivity|]);
  apply Forall_nil.

Section Matching.

Import Model ModelFacts StrFacts ReFacts.

Lemma last_cons_default {A : Type} (l : list A) :
  forall a d, last (a :: l) d = last l a.
Proof.
  induction l as [|x l IH]; intros a d; [reflexivity|].
  change (last (a :: x :: l) d) with (last (x :: l) d).
  rewrite !IH. reflexivity.
Qed.

Lemma match_any_loop_first (regexs : list regex) (text : str)
    (options : option flags) (search : bool) :
  forall tried,
    match EmailMessage._match_any_loop regexs text options search tried with
    | (Some m, rx) =>
        exists pre r post,
          regexs = pre ++ r :: post /\ rx = Some r
          /\ attempt options search text r = Some m
          /\ Forall (fun r' => attempt options search text r' = None) pre
    | (None, rx) =>
        Forall (fun r => attempt options search text r = None) regexs
        /\ rx = last (map Some regexs) tried
    end.
Proof.
  induction regexs as [|r rs IH]; intros tried.
  - cbn. split; [constructor|reflexivity].
  - cbn [EmailMessage._match_any_loop]. fold (attempt options search text r).
    destruct (attempt options search text r) as [m|] eqn:E.
    + exists [], r, rs. split; [reflexivity|]. split; [reflexivity|].
      split; [exact E|constructor].
    + specialize (IH (Some r)).
      destruct (EmailMessage._match_any_loop rs text options search (Some r))
        as [[m|] rx].
      * destruct IH as (pre & r' & post & -> & -> & Hm & Hpre).
        exists (r :: pre), r', post. split; [reflexivity|].
        split; [reflexivity|]. split; [exact Hm|constructor; assumption].
      * destruct IH as [Hall ->]. split; [constructor; assumption|].
        cbn [map]. symmetry. apply last_cons_default.
Qed.

(** X1: [_match_any] tries the patterns in the order of the list and
    stops at the first that matches: when it returns a match, the pattern
    returned is the first of the list that matches the text, and the match
    is the one of this pattern; when it returns no match, no pattern of
    the list matches, and the pattern returned is the last of the list
    ([None] for the empty list). *)
Theorem match_any_first_wins (regexs : list regex) (text : str)
    (options : option flags) (search : bool) :
  match EmailMessage._match_any regexs text options search with
  | (Some m, rx) =>
      exists pre r post,
        regexs = pre ++ r :: post /\ rx = Some r
        /\ attempt options search text r = Some m
        /\ Forall (fun r' => attempt options search text r' = None) pre
  | (None, rx) =>
      Forall (fun r => attempt options search text r = None) regexs
      /\ rx = last (map Some regexs) None
  end.
Proof. apply match_any_loop_first. Qed.

(** The quote header that [read] finds: a match of one of the patterns of
    [MULTI_QUOTE_HDR_REGEXS], whose first group is a part of the text. *)
Lemma has_quote_header_found (text : str) (m : Match) (rx : option regex) :
  EmailMessage.has_quote_header text = (Some m, rx) ->
  exists r g rest,
    rx = Some r /\ In r EmailMessage.MULTI_QUOTE_HDR_REGEXS
    /\ groups m = Some g :: rest
    /\ (forall c, In c g -> In c text).
Proof.
  intros H. unfold EmailMessage.has_quote_header in H.
  pose proof (match_any_loop_first EmailMessage.MULTI_QUOTE_HDR_REGEXS text
                (Some (mkflags true true)) true None) as Hf.
  unfold EmailMessage._match_any in H. rewrite H in Hf.
  destruct Hf as (pre & r & post & Hl & -> & Hm & _).
  assert (Hin : In r EmailMessage.MULTI_QUOTE_HDR_REGEXS).
  { rewrite Hl. apply in_or_app. right. left. reflexivity. }
  exists r. unfold attempt in Hm. cbn [negb] in Hm.
  assert (Hg : exists r', r = Grp 1 r' /\ groups_of r = 2).
  { cbn in Hin. destruct Hin as [<-|[<-|[<-|[]]]];
      eexists; split; reflexivity. }
  destruct Hg as (r' & -> & Hn).
  apply search_from_group in Hm as (Hs & Hng & a & b & Hsp).
  unfold groups. rewrite Hng, Hn. cbn [seq map]. unfold group at 1.
  rewrite Hsp, Hs. eexists _, _. split; [reflexivity|].
  split; [exact Hin|]. split; [reflexivity|].
  intros c. apply slice_incl.
Qed.

(** The normalisation of a text: the text as [__init__] converts it when
    no quote header is found, and what [sub] makes of it otherwise. *)
Lemma normalised_cases (text : str) :
  (fst (EmailMessage.has_quote_header (converted text)) = None
   /\ normalised text = Ok (converted text))
  \/ (exists m r g,
        fst (EmailMessage.has_quote_header (converted text)) = Some m
        /\ (forall c, In c g -> In c (converted text))
        /\ normalised text
           = Template.re_sub (mkflags false true) r (replace [LF] [] g)
               (converted text)).
Proof.
  unfold normalised, EmailMessage.collapse_quote_header,
    EmailMessage.set_found_visible.
  cbn [EmailMessage.text EmailMessage.__init__ EmailMessage.fragments
    EmailMessage.fragment EmailMessage.lines].
  fold (converted text). change (replace [CR; LF] [LF] text) with (converted text).
  destruct (EmailMessage.has_quote_header (converted text)) as [[m|] rx] eqn:E.
  - right. apply has_quote_header_found in E as (r & g & rest & -> & _ & Hg & Hin).
    rewrite Hg. exists m, r, g. split; [reflexivity|]. split; [exact Hin|].
    destruct (Template.re_sub _ r _ _); reflexivity.
  - left. split; reflexivity.
Qed.

Lemma converted_incl (c : ascii) (text : str) :
  c <> LF -> In c (converted text) -> In c text.
Proof.
  intros Hc. unfold converted, EmailMessage.__init__; cbn [EmailMessage.text].
  apply replace_from_incl. intros [H|[]]. congruence.
Qed.

(** X2: a text without a backslash is read without an exception: [read]
    returns a message and [parse_reply] a reply. *)
Theorem read_returns_without_backslash (text : str) :
  ~ In BSL text ->
  exists m r,
    EmailReplyParser.read text = Ok m
    /\ EmailReplyParser.parse_reply text = Ok r.
Proof.
  intros Hb.
  assert (Hn : exists t, normalised text = Ok t).
  { destruct (normalised_cases text) as [[_ H]|(m & r & g & _ & Hg & H)].
    - eexists. exact H.
    - rewrite H. unfold Template.re_sub.
      rewrite parse_template_literal; [eexists; reflexivity|].
      intros Hin. apply replace_from_incl in Hin; [|intros []].
      apply Hg, converted_incl in Hin; [exact (Hb Hin)|discriminate]. }
  destruct Hn as [t Ht].
  exists (message_of t), (join [LF] (map f_content (reply_frags t))).
  unfold EmailReplyParser.parse_reply.
  rewrite (@read_of_normalised text t Ht). cbn [bind].
  split; [reflexivity|apply reply_message].
Qed.

Lemma read_returns_without_backslash_witness :
  exists m r,
    EmailReplyParser.read (text_of ["Hi"; "On Monday, Bob"; "wrote:"; "> x"])
    = Ok m
    /\ EmailReplyParser.parse_reply
         (text_of ["Hi"; "On Monday, Bob"; "wrote:"; "> x"])
       = Ok r.
Proof.
  apply read_returns_without_backslash.
  vm_compute. intros H. repeat (destruct H as [H|H]; [discriminate H|]).
  exact H.
Defined.



End Matching.

(* ================================================================= *)
(** * Further properties: the message that [read] returns *)

Section Message.

Import Model ModelFacts StrFacts.

Lemma kept_lines_nil (ls : list str) :
  kept_lines ls = [] <-> Forall (fun l => forward_line l = true) ls.
Proof.
  unfold kept_lines.
  induction ls as [|l ls IH]; cbn [map filter].
  - split; [constructor|reflexivity].
  - destruct (is_forward (strip l)) eqn:E; cbn [negb].
    + rewrite IH. split.
      * intros H. constructor; [exact E|exact H].
      * intros H. inversion H. assumption.
    + split; [discriminate|]. intros H. inversion H as [|? ? H1 _]; subst.
      change (forward_line l) with (is_forward (strip l)) in H1.
      rewrite E in H1. discriminate H1.
Qed.

Lemma concat_lines_nil (fs : list frag) :
  Forall shape fs -> concat (map f_lines fs) = [] -> fs = [].
Proof.
  intros Hs H. destruct fs as [|f fs]; [reflexivity|].
  inversion Hs as [|? ? [Hn _] _]; subst. cbn in H.
  apply app_eq_nil in H as [H _]. contradiction.
Qed.

(** X4: the message that [read] returns holds no open fragment; every
    fragment of it is finished, with its lines dropped and its content
    set; the lines of the message are those of its text, the last first.
    It has no fragment at all exactly when every line of its text is a
    forward header; so the empty text, which has one empty line, gives a
    fragment. *)
Theorem read_result_finished (text : str) (m : EmailMessage.t) :
  EmailReplyParser.read text = Ok m ->
  EmailMessage.fragment m = None
  /\ EmailMessage.lines m = rev (split LF (EmailMessage.text m))
  /\ Forall (fun f => Fragment.lines f = None
                      /\ exists c, Fragment.content f = Some c)
       (EmailMessage.fragments m)
  /\ (EmailMessage.fragments m = []
      <-> Forall (fun l => forward_line l = true)
            (split LF (EmailMessage.text m))).
Proof.
  intros H. apply read_inv in H as (t & _ & ->).
  split; [reflexivity|]. split; [reflexivity|]. split.
  - rewrite message_fragments. apply Forall_rev, Forall_map, Forall_forall.
    intros f _. split; [reflexivity|]. eexists. reflexivity.
  - rewrite message_fragments. cbn [message_of EmailMessage.text].
    rewrite <- kept_lines_nil. pose proof (scanned_lines (split LF t)) as Hl.
    pose proof (split_shaped t) as Hs.
    set (done := s_done (scanned (split LF t))) in *. split.
    + intros H. destruct done as [|f fs].
      * cbn in Hl. symmetry in Hl. apply (f_equal (@rev _)) in Hl.
        rewrite rev_involutive in Hl. exact Hl.
      * apply (f_equal (@length _)) in H.
        rewrite length_rev, length_map in H. discriminate H.
    + intros H. rewrite H in Hl. cbn [rev] in Hl.
      rewrite (concat_lines_nil Hs Hl). reflexivity.
Qed.

Lemma read_result_finished_witness :
  EmailMessage.fragment (message_of []) = None
  /\ EmailMessage.lines (message_of [])
     = rev (split LF (EmailMessage.text (message_of [])))
  /\ Forall (fun f => Fragment.lines f = None
                      /\ exists c, Fragment.content f = Some c)
       (EmailMessage.fragments (message_of []))
  /\ (EmailMessage.fragments (message_of []) = []
      <-> Forall (fun l => forward_line l = true)
            (split LF (EmailMessage.text (message_of [])))).
Proof.
  apply (@read_result_finished []). vm_compute. reflexivity.
Defined.

(** X5: the hidden fragments are the end of the message: when a fragment
    is hidden, so is every fragment after it. *)
Theorem hidden_fragments_trail (text : str) (m : EmailMessage.t)
    (pre post : list Fragment.t) (f : Fragment.t) :
  EmailReplyParser.read text = Ok m ->
  EmailMessage.fragments m = pre ++ f :: post ->
  Fragment.hidden f = true ->
  Forall (fun g => Fragment.hidden g = true) post.
Proof.
  intros Hr Hf Hh.
  assert (Hrev : rev (EmailMessage.fragments m) = rev post ++ f :: rev pre).
  { rewrite Hf, rev_app_distr. cbn [rev]. rewrite <- app_assoc. reflexivity. }
  rewrite (@hidden_characterised text m (rev post) (rev pre) f Hr Hrev) in Hh.
  apply andb_true_iff in Hh as [_ Hall]. rewrite forallb_forall in Hall.
  apply Forall_forall. intros g Hg.
  apply in_split in Hg as (p1 & p2 & ->).
  assert (Hrev' : rev (EmailMessage.fragments m)
                  = rev p2 ++ g :: rev (pre ++ f :: p1)).
  { rewrite Hf, app_comm_cons, app_assoc, rev_app_distr. cbn [rev].
    rewrite <- app_assoc. reflexivity. }
  rewrite (@hidden_characterised text m (rev p2) _ g Hr Hrev').
  apply andb_true_iff. split.
  - apply Hall. rewrite <- in_rev. apply in_or_app. right. left. reflexivity.
  - apply forallb_forall. intros x Hx. apply Hall. rewrite <- in_rev in *.
    apply in_or_app. right. right. exact Hx.
Qed.

Lemma hidden_fragments_trail_witness :
  Forall (fun g => Fragment.hidden g = true)
    [conc_frag (mkfrag [""] false false true false)].
Proof.
  apply (@hidden_fragments_trail
           (text_of ["Hello"; "> old"; ""])
           (message_of (text_of ["Hello"; "> old"; ""]))
           [conc_frag (mkfrag ["Hello"] false false false false)]
           [conc_frag (mkfrag [""] false false true false)]
           (conc_frag (mkfrag ["> old"] true false true false)));
    vm_compute; reflexivity.
Defined.

(** X6: when the first line of the normalised text is a forward header,
    every fragment of the message is forwarded and the reply is empty. *)
Theorem forward_header_first_empties_reply (text t h : str)
    (below : list str) :
  normalised text = Ok t ->
  split LF t = h :: below ->
  forward_line h = true ->
  exists m,
    EmailReplyParser.read text = Ok m
    /\ Forall (fun f => Fragment.forwarded f = true) (EmailMessage.fragments m)
    /\ EmailReplyParser.parse_reply text = Ok [].
Proof.
  intros Ht Hs Hh. exists (message_of t).
  assert (Hd : Forall (fun f => f_forwarded f = true)
                 (s_done (scanned (split LF t)))).
  { rewrite Hs. change (h :: below) with ([] ++ h :: below).
    rewrite (scanned_forward [] below h Hh).
    cbn [rebase s_done]. unfold scanned_above, above_state. cbn.
    rewrite app_nil_r. apply forall_mark_forwarded. }
  split; [apply read_of_normalised; exact Ht|]. split.
  - rewrite message_fragments. apply Forall_rev, Forall_map. exact Hd.
  - unfold EmailReplyParser.parse_reply.
    rewrite (@read_of_normalised text t Ht). cbn [bind].
    rewrite reply_message. unfold reply_frags.
    replace (filter _ _) with (@nil frag); [reflexivity|].
    symmetry. apply Forall_rev in Hd.
    induction Hd as [|f fs Hf _ IH]; [reflexivity|].
    cbn [filter]. rewrite Hf, !orb_true_r. exact IH.
Qed.

Lemma forward_header_first_empties_reply_witness :
  exists m,
    EmailReplyParser.read (text_of ["Begin forwarded message:"; "From: Bob"; ""; "Hi"])
    = Ok m
    /\ Forall (fun f => Fragment.forwarded f = true) (EmailMessage.fragments m)
    /\ EmailReplyParser.parse_reply
         (text_of ["Begin forwarded message:"; "From: Bob"; ""; "Hi"])
       = Ok [].
Proof.
  apply (@forward_header_first_empties_reply
           (text_of ["Begin forwarded message:"; "From: Bob"; ""; "Hi"])
           (text_of ["Begin forwarded message:"; "From: Bob"; ""; "Hi"])
           "Begin forwarded message:" ["From: Bob"; ""; "Hi"]);
    vm_compute; reflexivity.
Defined.

(** X7: when no line of the normalised text is a forward header, no
    fragment of the message is forwarded. *)
Theorem no_forward_header_none_forwarded (text t : str) :
  normalised text = Ok t ->
  Forall (fun l => forward_line l = false) (split LF t) ->
  exists m,
    EmailReplyParser.read text = Ok m
    /\ Forall (fun f => Fragment.forwarded f = false)
         (EmailMessage.fragments m).
Proof.
  intros Ht Hl. exists (message_of t).
  split; [apply read_of_normalised; exact Ht|].
  rewrite message_fragments. apply Forall_rev, Forall_map.
  unfold scanned. apply unforwarded_finish, unforwarded_scan_lines;
    [|constructor].
  apply Forall_rev. exact Hl.
Qed.

Lemma no_forward_header_none_forwarded_witness :
  exists m,
    EmailReplyParser.read (text_of ["Hi"; ""; "> old"]) = Ok m
    /\ Forall (fun f => Fragment.forwarded f = false)
         (EmailMessage.fragments m).
Proof.
  apply (@no_forward_header_none_forwarded
           (text_of ["Hi"; ""; "> old"]) (text_of ["Hi"; ""; "> old"]));
    [vm_compute; reflexivity|check_lines].
Defined.

(** X8: the reply holds no text of its own: each of its lines is empty or
    is a line of the normalised text, stripped, that is no forward
    header. *)
Theorem reply_lines_from_text (text t r l : str) :
  normalised text = Ok t ->
  EmailReplyParser.parse_reply text = Ok r ->
  In l (split LF r) ->
  l = []
  \/ exists l0, In l0 (split LF t) /\ l = strip l0 /\ forward_line l0 = false.
Proof.
  intros Ht Hr Hl. apply parse_reply_inv in Hr as (t' & Ht' & ->).
  rewrite Ht in Ht'. injection Ht' as <-.
  pose proof (reply_frags_shaped t) as Hs.
  apply reply_lines in Hl;
    [|revert Hs; apply Forall_impl; intros f [H _]; exact H].
  destruct Hl as [->|(f & Hf & Hl)]; [left; reflexivity|]. right.
  apply filter_In in Hf as [Hf _]. apply in_rev in Hf.
  assert (Hin : In l (concat (map f_lines (s_done (scanned (split LF t)))))).
  { apply in_concat. exists (f_lines f). split; [|exact Hl].
    apply in_map. exact Hf. }
  rewrite scanned_lines in Hin. apply in_rev in Hin.
  unfold kept_lines in Hin. apply filter_In in Hin as [Hin Hfw].
  apply in_map_iff in Hin as (l0 & <- & Hl0).
  exists l0. split; [exact Hl0|]. split; [reflexivity|].
  apply negb_true_iff in Hfw. exact Hfw.
Qed.

Lemma reply_lines_from_text_witness :
  "Hi there" = []
  \/ exists l0,
       In l0 (split LF (text_of ["   Hi there  "; ""; "  > quoted  "]))
       /\ "Hi there" = strip l0 /\ forward_line l0 = false.
Proof.
  apply (@reply_lines_from_text
           (text_of ["   Hi there  "; ""; "  > quoted  "])
           (text_of ["   Hi there  "; ""; "  > quoted  "])
           "Hi there" "Hi there");
    vm_compute; auto.
Defined.

End Message.

(* ================================================================= *)
(** * Further properties: the flags and the lines of a fragment *)

Section Flags.

Import Model ModelFacts StrFacts.

(** ** Quoted fragments *)

(** What the lines of a fragment are, by its flag [quoted]. *)
Definition line_of (quoted : bool) (l : str) : Prop :=
  if quoted
  then is_quoted l = true \/ EmailMessage.is_quote_header l = true \/ l = []
  else is_quoted l = false.

Definition quoted_open (o : open) : Prop :=
  o_quoted o = is_quoted (o_first o)
  /\ Forall (line_of (o_quoted o)) (o_lines o).

Definition quoted_frag (f : frag) : Prop :=
  exists first rest,
    f_lines f = first :: rest
    /\ f_quoted f = is_quoted first
    /\ Forall (line_of (f_quoted f)) (f_lines f).

Lemma quoted_scan_lines (ls : list str) (a : state) :
  inv quoted_frag quoted_open a ->
  inv quoted_frag quoted_open (scan_lines a ls).
Proof.
  apply (@inv_scan_lines trimmed quoted_frag quoted_open).
  - intros l _ _. split; [reflexivity|].
    unfold o_lines. cbn [o_first o_rest o_quoted].
    constructor; [|constructor]. unfold line_of.
    destruct (is_quoted l); [left|]; reflexivity.
  - intros o l Ht _ [Hq Hl] _ Hk. split; [exact Hq|].
    unfold append, o_lines in *. cbn [o_first o_rest o_quoted] in *.
    rewrite app_comm_cons. apply Forall_app. split; [exact Hl|].
    constructor; [|constructor]. unfold continues in Hk. unfold line_of.
    destruct (o_quoted o); cbn [Bool.eqb andb] in Hk.
    + destruct (is_quoted l); [left; reflexivity|]. cbn [orb] in Hk.
      destruct (EmailMessage.is_quote_header l); [right; left; reflexivity|].
      cbn [orb] in Hk. right. right.
      rewrite (trimmed_strip Ht) in Hk. apply Nat.eqb_eq in Hk.
      destruct l; [reflexivity|discriminate Hk].
    + rewrite orb_false_r in Hk. destruct (is_quoted l);
        [discriminate Hk|reflexivity].
  - intros o sg h [Hq Hl]. exists (o_first o), (o_rest o).
    split; [reflexivity|]. split; assumption.
  - intros l f _ _ Hf. exact Hf.
  - apply Forall_forall. intros l _. apply strip_trimmed.
Qed.

Lemma scanned_quoted (ls : list str) : Forall quoted_frag (s_done (scanned ls)).
Proof.
  assert (H : inv quoted_frag quoted_open (scanned ls)).
  { apply inv_finish.
    - intros o sg h [Hq Hl]. exists (o_first o), (o_rest o).
      split; [reflexivity|]. split; assumption.
    - apply quoted_scan_lines. split; [constructor|discriminate]. }
  apply H.
Qed.

Lemma fragment_of_model (t : str) (f : Fragment.t) :
  In f (EmailMessage.fragments (message_of t)) ->
  exists F, In F (s_done (scanned (split LF t))) /\ f = conc_frag F /\ shape F.
Proof.
  rewrite message_fragments. intros H. apply in_rev in H.
  apply in_map_iff in H as (F & <- & HF). exists F.
  split; [exact HF|]. split; [reflexivity|].
  pose proof (split_shaped t) as Hs. rewrite Forall_forall in Hs.
  apply Hs. exact HF.
Qed.

(** X9: the flag [quoted] of a fragment is decided by the last line of
    its content, the one scanned first: the fragment is quoted if and only
    if this line matches [QUOTED_REGEX].  No line of a fragment that is
    not quoted matches it; a line of a quoted fragment matches it, or is a
    quote header, or is empty. *)
Theorem quoted_flag_describes_lines (text : str) (m : EmailMessage.t)
    (f : Fragment.t) :
  EmailReplyParser.read text = Ok m ->
  In f (EmailMessage.fragments m) ->
  Fragment.quoted f = quoted_line (last (content_lines f) [])
  /\ Forall (fun l =>
               if Fragment.quoted f
               then quoted_line l = true
                    \/ EmailMessage.is_quote_header l = true \/ l = []
               else quoted_line l = false)
       (content_lines f).
Proof.
  intros Hr Hf. apply read_inv in Hr as (t & _ & ->).
  apply fragment_of_model in Hf as (F & HF & -> & Hs).
  pose proof (scanned_quoted (split LF t)) as Hq.
  rewrite Forall_forall in Hq.
  destruct (Hq F HF) as (first & rest & Hl & Hfirst & Hall).
  rewrite (conc_frag_content_lines Hs), Hl.
  change (Fragment.quoted (conc_frag F)) with (f_quoted F). split.
  - cbn [rev]. rewrite last_last. exact Hfirst.
  - rewrite <- Hl. apply Forall_rev. exact Hall.
Qed.

Lemma quoted_flag_describes_lines_witness :
  let f := conc_frag
             (mkfrag ["> fine thanks"; "On Mon, Jan 1, 2018, Bob wrote:"; ""]
                true false true false) in
  Fragment.quoted f = quoted_line (last (content_lines f) [])
  /\ Forall (fun l =>
               if Fragment.quoted f
               then quoted_line l = true
                    \/ EmailMessage.is_quote_header l = true \/ l = []
               else quoted_line l = false)
       (content_lines f).
Proof.
  apply (@quoted_flag_describes_lines
           (text_of ["Hi,"; "how are you?"; "";
                     "On Mon, Jan 1, 2018, Bob wrote:"; "> fine thanks"])
           (message_of
              (text_of ["Hi,"; "how are you?"; "";
                        "On Mon, Jan 1, 2018, Bob wrote:"; "> fine thanks"]))).
  - vm_compute. reflexivity.
  - vm_compute. right. left. reflexivity.
Defined.

(** ** Signature fragments *)

(** The fragments that are signatures end, in the scan, with a line that
    matches [SIG_REGEX], and each is followed by a fragment that begins
    with an empty line; [next] is the first line of the open fragment. *)
Fixpoint signed (fs : list frag) (next : option str) : Prop :=
  match fs with
  | [] => True
  | f :: fs' =>
      (f_signature f = true ->
       is_sig (last (f_lines f) []) = true
       /\ match fs' with
          | g :: _ => hd_error (f_lines g)
          | [] => next
          end = Some [])
      /\ signed fs' next
  end.

Lemma signed_app (fs : list frag) (g : frag) (next : option str) :
  signed (fs ++ [g]) next
  <-> signed fs (hd_error (f_lines g))
      /\ (f_signature g = true ->
          is_sig (last (f_lines g) []) = true /\ next = Some []).
Proof.
  induction fs as [|f fs IH]; cbn [app signed].
  - tauto.
  - rewrite IH. destruct fs as [|f' fs]; cbn [app]; tauto.
Qed.

Lemma signed_next (fs : list frag) (next : option str) :
  signed fs None -> signed fs next.
Proof.
  induction fs as [|f fs IH]; [trivial|]. cbn [signed].
  intros [H1 H2]. split; [|apply IH; exact H2].
  intros Hs. destruct (H1 Hs) as [Hsig Hn]. split; [exact Hsig|].
  destruct fs; [discriminate Hn|exact Hn].
Qed.

Lemma signed_mark (fs : list frag) (next : option str) :
  signed fs next -> signed (map mark_forwarded fs) next.
Proof.
  induction fs as [|f fs IH]; [trivial|]. cbn [map signed].
  intros [H1 H2]. split; [|apply IH; exact H2].
  destruct fs; exact H1.
Qed.

Definition signed_state (a : state) : Prop :=
  signed (s_done a) (option_map o_first (s_open a)).

Lemma signed_finish (a : state) :
  signed_state a -> signed_state (finish false a).
Proof.
  destruct a as [done [o|] found]; [|intros H; exact H].
  unfold signed_state, finish.
  cbn [option_map s_done s_open]. intros H. apply signed_app.
  split; [exact H|]. cbn [f_signature]. discriminate.
Qed.

Lemma signed_fresh (l : str) (a : state) :
  signed_state a -> signed_state (fresh l a).
Proof.
  intros H. apply signed_finish in H. unfold signed_state in *.
  rewrite finish_open in H. cbn [option_map] in H.
  unfold fresh. cbn [s_done s_open option_map]. apply signed_next. exact H.
Qed.

Lemma signed_scan_stripped (a : state) (l : str) :
  signed_state a -> signed_state (scan_stripped a l).
Proof.
  intros H. unfold scan_stripped. destruct (is_forward l).
  - apply signed_finish in H. unfold signed_state in *.
    rewrite finish_open in H. cbn [s_done s_open option_map] in *.
    apply signed_mark. exact H.
  - unfold close_signature. destruct (s_open a) as [o|] eqn:Eo.
    + destruct (closes o l) eqn:Ec.
      * rewrite finish_open. unfold fresh.
        rewrite (finish_closed false (finish true a)) by apply finish_open.
        unfold signed_state in *. cbn [s_done s_open option_map o_first].
        unfold finish. rewrite Eo. cbn [s_done s_found].
        rewrite Eo in H. cbn [option_map] in H.
        unfold closes in Ec. apply andb_true_iff in Ec as [Hlen Hsig].
        apply Nat.eqb_eq in Hlen. destruct l; [|discriminate Hlen].
        apply signed_app. split; [exact H|]. intros _.
        cbn [f_lines]. unfold o_lines. rewrite last_cons_default.
        split; [exact Hsig|reflexivity].
      * rewrite Eo. destruct (continues o l).
        -- unfold signed_state in *. rewrite Eo in H. exact H.
        -- apply signed_fresh. exact H.
    + rewrite Eo. apply signed_fresh. exact H.
Qed.

Lemma scanned_signed (ls : list str) : signed (s_done (scanned ls)) None.
Proof.
  assert (H : forall ls a, signed_state a -> signed_state (scan_lines a ls)).
  { clear ls. induction ls as [|l ls IH]; intros a Ha; [exact Ha|].
    apply IH, signed_scan_stripped. exact Ha. }
  specialize (H (rev ls) init I). apply signed_finish in H.
  unfold signed_state in H. rewrite finish_open in H. exact H.
Qed.

Lemma signed_split (pre post : list frag) (f : frag) (next : option str) :
  signed (pre ++ f :: post) next ->
  f_signature f = true ->
  is_sig (last (f_lines f) []) = true
  /\ match post with
     | g :: _ => hd_error (f_lines g)
     | [] => next
     end = Some [].
Proof.
  induction pre as [|p pre IH]; cbn [app signed].
  - intros [H _]. exact H.
  - intros [_ H]. apply IH. exact H.
Qed.

Lemma hd_rev_last {A : Type} (l : list A) (d : A) : hd d (rev l) = last l d.
Proof.
  induction l as [|x l IH] using rev_ind; [reflexivity|].
  rewrite rev_app_distr, last_last. reflexivity.
Qed.

(** X10: a fragment that is a signature begins with a line that matches
    [SIG_REGEX], is never the first fragment of the message, and the
    fragment before it ends with an empty line: the signature closure of
    [_scan_line] is tried on empty lines only, and the empty line opens
    the next fragment of the scan. *)
Theorem signature_follows_empty_line (text : str) (m : EmailMessage.t)
    (pre post : list Fragment.t) (f : Fragment.t) :
  EmailReplyParser.read text = Ok m ->
  EmailMessage.fragments m = pre ++ f :: post ->
  Fragment.signature f = true ->
  signature_line (hd [] (content_lines f)) = true
  /\ exists pre' g ls,
       pre = pre' ++ [g] /\ content_lines g = ls ++ [[]].
Proof.
  intros Hr Hf Hs. apply read_inv in Hr as (t & _ & ->).
  pose proof (split_shaped t) as Hsh. pose proof (scanned_signed (split LF t)) as Hsg.
  rewrite message_fragments in Hf.
  apply (f_equal (@rev _)) in Hf. rewrite rev_involutive, rev_app_distr in Hf.
  cbn [rev] in Hf. rewrite <- app_assoc in Hf. cbn [app] in Hf.
  apply map_eq_app in Hf as (D1 & rest & E & H1 & Hf).
  apply map_eq_cons in Hf as (F & D2 & -> & <- & H2).
  rewrite E in Hsg, Hsh.
  destruct (signed_split _ _ _ _ Hsg Hs) as [Hsig Hnext].
  apply Forall_app in Hsh as [_ Hsh].
  inversion Hsh as [|? ? HF HD2]; subst. split.
  - rewrite (conc_frag_content_lines HF), hd_rev_last. exact Hsig.
  - destruct D2 as [|G D2]; [discriminate Hnext|].
    inversion HD2 as [|? ? HG _]; subst.
    destruct (f_lines G) as [|x xs] eqn:EG; [discriminate Hnext|].
    injection Hnext as ->.
    exists (rev (map conc_frag D2)), (conc_frag G), (rev xs).
    split.
    + apply (f_equal (@rev _)) in H2. rewrite rev_involutive in H2.
      rewrite <- H2. reflexivity.
    + rewrite (conc_frag_content_lines HG), EG. reflexivity.
Qed.

Lemma signature_follows_empty_line_witness :
  let f := conc_frag (mkfrag ["Sent from my iPhone"; "--"] false true true
                        false) in
  signature_line (hd [] (content_lines f)) = true
  /\ exists pre' g ls,
       [conc_frag (mkfrag [""; "Hello"] false false false false)]
       = pre' ++ [g]
       /\ content_lines g = ls ++ [[]].
Proof.
  apply (@signature_follows_empty_line
           (text_of ["Hello"; ""; "--"; "Sent from my iPhone"])
           (message_of (text_of ["Hello"; ""; "--"; "Sent from my iPhone"]))
           [conc_frag (mkfrag [""; "Hello"] false false false false)]
           []);
    vm_compute; reflexivity.
Defined.

End Flags.

(* ================================================================= *)
(** * Further properties: texts of one kind of line *)

Section Uniform.

Import Model ModelFacts StrFacts.

Lemma fold_scan_line (ls : list str) (a : state) :
  scan_lines a ls = fold_left scan_stripped (map strip ls) a.
Proof.
  revert a. induction ls as [|l ls IH]; intros a; [reflexivity|].
  cbn [map fold_left]. unfold scan_lines in *. cbn [fold_left]. apply IH.
Qed.

(** Lines that are all quoted, or all not quoted, none a forward header,
    and such that the signature closure does not fire between two of
    them, are gathered in one fragment. *)
Section OneFragment.

Variable q : bool.
Variable R : str -> Prop.
Hypothesis R_calm :
  forall p l, R p -> R l -> (length l =? 0) && is_sig p = false.

Definition uniform (l : str) : Prop :=
  R l /\ is_quoted l = q /\ is_forward l = false.

Lemma scan_uniform (ls : list str) :
  forall o,
    o_quoted o = q -> R (o_last o) -> Forall uniform ls ->
    fold_left scan_stripped ls (mkstate [] (Some o) false)
    = mkstate [] (Some (mkopen q (o_first o) (o_rest o ++ ls))) false.
Proof.
  induction ls as [|l ls IH]; intros o Hq Hr Hl.
  - cbn. rewrite app_nil_r, <- Hq. destruct o; reflexivity.
  - inversion Hl as [|? ? (Hrl & Hql & Hfl) Hls]; subst.
    cbn [fold_left]. unfold scan_stripped at 2. rewrite Hfl.
    unfold close_signature. cbn [s_open]. unfold closes.
    rewrite (R_calm Hr Hrl). cbn [s_open]. unfold continues.
    rewrite Hql, Hq, Bool.eqb_reflx. cbn [orb s_done s_found].
    rewrite (IH (append o l)).
    + unfold append. cbn [o_first o_rest]. rewrite <- app_assoc. reflexivity.
    + exact Hq.
    + unfold o_last, append. cbn [o_first o_rest]. rewrite last_last.
      exact Hrl.
    + exact Hls.
Qed.

Lemma scanned_uniform (ls : list str) :
  ls <> [] -> Forall (fun l => uniform (strip l)) ls ->
  scanned ls
  = let c := join [LF] (map strip ls) in
    mkstate [mkfrag (map strip (rev ls)) q false (dull q false c) false]
      None (negb (dull q false c)).
Proof.
  intros Hn Hl. unfold scanned. rewrite fold_scan_line.
  assert (Hr : Forall uniform (map strip (rev ls))).
  { apply Forall_map, Forall_rev. exact Hl. }
  destruct (map strip (rev ls)) as [|s0 srest] eqn:E.
  - exfalso. apply Hn. apply map_eq_nil in E.
    apply (f_equal (@rev _)) in E. rewrite rev_involutive in E. exact E.
  - inversion Hr as [|? ? (Hr0 & Hq0 & Hf0) Hrest]; subst.
    cbn [fold_left]. unfold scan_stripped at 2. rewrite Hf0.
    cbn [close_signature init s_open]. unfold fresh. cbn [finish init s_open
      s_done s_found].
    rewrite (@scan_uniform srest (mkopen (is_quoted s0) s0 []) Hq0 Hr0
               Hrest).
    unfold finish. cbn [s_open s_done s_found o_quoted o_lines o_first o_rest
      app negb andb orb].
    unfold o_lines, content_of. cbn [o_first o_rest].
    rewrite <- E, <- map_rev, rev_involutive. reflexivity.
Qed.

End OneFragment.

Lemma quoted_not_empty (l : str) :
  is_quoted l = true -> (length l =? 0) = false.
Proof.
  intros H. change (is_quoted l) with (quoted_line l) in H.
  rewrite quoted_line_startswith in H. destruct l; [discriminate H|reflexivity].
Qed.

(** A line that begins with [>] matches no pattern of [FORWARD_REGEXS]. *)
Lemma quoted_not_forward (l : str) :
  is_quoted l = true -> is_forward l = false.
Proof.
  intros H. change (is_quoted l) with (quoted_line l) in H.
  rewrite quoted_line_startswith in H.
  destruct l as [|c rest]; [reflexivity|]. cbn [startswith] in H.
  apply andb_true_iff in H as [H _]. apply Ascii.eqb_eq in H. subst c.
  vm_compute. reflexivity.
Qed.

(** X11: when every line of the normalised text, once stripped, begins
    with [>], the message is one fragment, quoted and hidden, whose
    content is the stripped lines, and the reply is empty. *)
Theorem quoted_text_has_empty_reply (text t : str) :
  normalised text = Ok t ->
  Forall (fun l => quoted_line (strip l) = true) (split LF t) ->
  fragments_of text
  = Ok [ {| Fragment.signature := false;
            Fragment.hidden := true;
            Fragment.quoted := true;
            Fragment.forwarded := false;
            Fragment._content := Some (join [LF] (map strip (split LF t)));
            Fragment.lines := None |} ]
  /\ EmailReplyParser.parse_reply text = Ok [].
Proof.
  intros Ht Hl.
  assert (Hs : scanned (split LF t)
               = mkstate [mkfrag (map strip (rev (split LF t))) true false
                            true false] None false).
  { apply (@scanned_uniform true (fun l => (length l =? 0) = false)).
    - intros p l _ Hlen. rewrite Hlen. reflexivity.
    - apply split_not_nil.
    - revert Hl. apply Forall_impl. intros l H.
      repeat split; [apply quoted_not_empty|..|apply quoted_not_forward];
        exact H. }
  unfold fragments_of, EmailReplyParser.parse_reply.
  rewrite (@read_of_normalised text t Ht). cbn [bind]. split.
  - rewrite message_fragments, Hs. cbn [s_done map rev app].
    unfold conc_frag, f_content, content_of. cbn [f_lines f_quoted f_hidden
      f_signature f_forwarded].
    rewrite <- map_rev, rev_involutive. reflexivity.
  - rewrite reply_message. unfold reply_frags. rewrite Hs. reflexivity.
Qed.

Lemma quoted_text_has_empty_reply_witness :
  fragments_of (text_of ["> a"; "  >> b  "])
  = Ok [ {| Fragment.signature := false;
            Fragment.hidden := true;
            Fragment.quoted := true;
            Fragment.forwarded := false;
            Fragment._content :=
              Some (join [LF]
                      (map strip (split LF (text_of ["> a"; "  >> b  "]))));
            Fragment.lines := None |} ]
  /\ EmailReplyParser.parse_reply (text_of ["> a"; "  >> b  "]) = Ok [].
Proof.
  apply (@quoted_text_has_empty_reply (text_of ["> a"; "  >> b  "])
           (text_of ["> a"; "  >> b  "])).
  - vm_compute. reflexivity.
  - check_lines.
Defined.

(** X12: when no line of the normalised text, once stripped, matches
    [QUOTED_REGEX] or [SIG_REGEX], and none is a forward header, the
    message is one fragment whose content is the stripped lines; it is
    hidden exactly when this content is blank, and the reply is this
    content, or empty when it is blank. *)
Theorem plain_text_is_one_fragment (text t : str) :
  normalised text = Ok t ->
  Forall (fun l => quoted_line (strip l) = false
                   /\ signature_line (strip l) = false
                   /\ forward_line l = false)
    (split LF t) ->
  let c := join [LF] (map strip (split LF t)) in
  let blank := length (strip c) =? 0 in
  fragments_of text
  = Ok [ {| Fragment.signature := false;
            Fragment.hidden := blank;
            Fragment.quoted := false;
            Fragment.forwarded := false;
            Fragment._content := Some c;
            Fragment.lines := None |} ]
  /\ EmailReplyParser.parse_reply text = Ok (if blank then [] else c).
Proof.
  intros Ht Hl c blank.
  assert (Hs : scanned (split LF t)
               = mkstate [mkfrag (map strip (rev (split LF t))) false false
                            blank false] None (negb blank)).
  { apply (@scanned_uniform false (fun l => is_sig l = false)).
    - intros p l Hp _. rewrite Hp. apply andb_false_r.
    - apply split_not_nil.
    - revert Hl. apply Forall_impl. intros l (Hq & Hsg & Hf).
      repeat split; assumption. }
  assert (Hc : content_of (map strip (rev (split LF t))) = c).
  { unfold content_of, c. rewrite <- map_rev, rev_involutive. reflexivity. }
  unfold fragments_of, EmailReplyParser.parse_reply.
  rewrite (@read_of_normalised text t Ht). cbn [bind]. split.
  - rewrite message_fragments, Hs. cbn [s_done map rev app].
    unfold conc_frag, f_content. cbn [f_lines f_quoted f_hidden
      f_signature f_forwarded]. rewrite Hc. reflexivity.
  - rewrite reply_message. unfold reply_frags. rewrite Hs.
    cbn [s_done rev app filter f_hidden f_quoted f_forwarded].
    rewrite !orb_false_r. destruct blank; cbn [negb map]; [reflexivity|].
    unfold f_content. cbn [f_lines]. rewrite Hc. reflexivity.
Qed.

Lemma plain_text_is_one_fragment_witness :
  let c := join [LF] (map strip (split LF (text_of ["  Hello,  "; ""; " bye"]))) in
  let blank := length (strip c) =? 0 in
  fragments_of (text_of ["  Hello,  "; ""; " bye"])
  = Ok [ {| Fragment.signature := false;
            Fragment.hidden := blank;
            Fragment.quoted := false;
            Fragment.forwarded := false;
            Fragment._content := Some c;
            Fragment.lines := None |} ]
  /\ EmailReplyParser.parse_reply (text_of ["  Hello,  "; ""; " bye"])
     = Ok (if blank then [] else c).
Proof.
  apply (@plain_text_is_one_fragment (text_of ["  Hello,  "; ""; " bye"])
           (text_of ["  Hello,  "; ""; " bye"])).
  - vm_compute. reflexivity.
  - check_lines.
Defined.

End Uniform.

(* ================================================================= *)
(** * Further properties: line ends, and [Fragment.finish] *)

Section LineEnds.

Import Model ModelFacts StrFacts.

Lemma free_of_no_cr (s : str) : ~ In CR s -> free_of [CR; LF] s = true.
Proof.
  induction s as [|x s IH]; intros H; [reflexivity|]. cbn [free_of].
  rewrite IH by (intros Hs; apply H; right; exact Hs).
  rewrite andb_true_r. apply negb_true_iff.
  destruct (startswith [CR; LF] (x :: s)) eqn:E; [|reflexivity].
  apply startswith_crlf in E as [t E]. injection E as -> _.
  exfalso. apply H. left. reflexivity.
Qed.

Lemma replace_crlf_line (l rest : str) :
  ~ In CR l ->
  replace_from [CR; LF] [LF] (l ++ CR :: LF :: rest) 0
  = l ++ LF :: replace_from [CR; LF] [LF] rest 0.
Proof.
  induction l as [|x l IH]; intros H.
  - cbn [app replace_from]. replace (startswith [CR; LF] (CR :: LF :: rest))
      with true; [reflexivity|].
    cbn [startswith]. rewrite !Ascii.eqb_refl. reflexivity.
  - cbn [app replace_from].
    destruct (startswith [CR; LF] (x :: l ++ CR :: LF :: rest)) eqn:E.
    + apply startswith_crlf in E as [t E]. injection E as -> _.
      exfalso. apply H. left. reflexivity.
    + rewrite IH by (intros Hl; apply H; right; exact Hl). reflexivity.
Qed.

Lemma in_join (c : ascii) (sep : str) (ls : list str) :
  In c (join sep ls) -> In c sep \/ exists l, In l ls /\ In c l.
Proof.
  induction ls as [|l ls IH]; [intros []|].
  destruct ls as [|l' ls].
  - cbn. intros H. right. exists l. split; [left; reflexivity|exact H].
  - rewrite join_cons by discriminate. intros H.
    apply in_app_or in H as [H|H];
      [right; exists l; split; [left; reflexivity|exact H]|].
    apply in_app_or in H as [H|H]; [left; exact H|].
    destruct (IH H) as [Hs|(x & Hx & Hc)]; [left; exact Hs|].
    right. exists x. split; [right; exact Hx|exact Hc].
Qed.

(** [__init__] makes the same text of lines joined by the two characters
    of a line end and of these lines joined by the line feed alone. *)
Lemma converted_crlf (ls : list str) :
  Forall (fun l => ~ In CR l) ls ->
  converted (join [CR; LF] ls) = join [LF] ls
  /\ converted (join [LF] ls) = join [LF] ls.
Proof.
  intros H. unfold converted, EmailMessage.__init__; cbn [EmailMessage.text].
  split.
  - unfold replace. induction H as [|l ls Hl Hls IH]; [reflexivity|].
    destruct ls as [|l' ls].
    + unfold join. apply replace_free, free_of_no_cr. exact Hl.
    + rewrite !join_cons by discriminate. cbn [app].
      rewrite replace_crlf_line by exact Hl. rewrite IH. reflexivity.
  - apply replace_free, free_of_no_cr. intros Hin.
    apply in_join in Hin as [[E|[]]|(l & Hl & Hc)]; [discriminate E|].
    rewrite Forall_forall in H. exact (H l Hl Hc).
Qed.

(** X13: lines without a carriage return are read in the same way
    whether they are joined by carriage return and line feed or by line
    feed alone: [read] returns the same message and [parse_reply] the
    same reply. *)
Theorem crlf_read_as_lf (ls : list str) :
  Forall (fun l => ~ In CR l) ls ->
  EmailReplyParser.read (join [CR; LF] ls)
  = EmailReplyParser.read (join [LF] ls)
  /\ EmailReplyParser.parse_reply (join [CR; LF] ls)
     = EmailReplyParser.parse_reply (join [LF] ls).
Proof.
  intros H. destruct (converted_crlf H) as [H1 H2].
  assert (E : EmailMessage.__init__ (join [CR; LF] ls)
              = EmailMessage.__init__ (join [LF] ls)).
  { unfold converted, EmailMessage.__init__ in *.
    cbn [EmailMessage.text] in H1, H2. rewrite H1, H2. reflexivity. }
  unfold EmailReplyParser.parse_reply, EmailReplyParser.read.
  rewrite E. split; reflexivity.
Qed.

Lemma crlf_read_as_lf_witness :
  EmailReplyParser.read (join [CR; LF] ["Hi"; ""; "> old"])
  = EmailReplyParser.read (join [LF] ["Hi"; ""; "> old"])
  /\ EmailReplyParser.parse_reply (join [CR; LF] ["Hi"; ""; "> old"])
     = EmailReplyParser.parse_reply (join [LF] ["Hi"; ""; "> old"]).
Proof.
  apply crlf_read_as_lf.
  repeat constructor; vm_compute;
    intros H; repeat (destruct H as [H|H]; [discriminate H|]); exact H.
Defined.

(** X14: [finish] sets the content of a fragment to its lines, put back
    in the order of the text and joined by line feeds, so that the lines
    of the content are the lines gathered, reversed, when none holds a
    line feed; it keeps the flags and drops the lines, and a second
    [finish] raises [AttributeError]. *)
Theorem finish_once (f : Fragment.t) (ls : list str) :
  Fragment.lines f = Some ls ->
  ls <> [] ->
  Forall (fun l => ~ In LF l) ls ->
  exists f',
    Fragment.finish f = Ok f'
    /\ Fragment.content f' = Some (join [LF] (rev ls))
    /\ content_lines f' = rev ls
    /\ Fragment.lines f' = None
    /\ (Fragment.signature f', Fragment.hidden f', Fragment.quoted f',
        Fragment.forwarded f')
       = (Fragment.signature f, Fragment.hidden f, Fragment.quoted f,
          Fragment.forwarded f)
    /\ Fragment.finish f' = Raise AttributeError.
Proof.
  intros Hl Hn Hlf. unfold Fragment.finish. rewrite Hl.
  eexists. split; [reflexivity|]. cbn. split; [reflexivity|].
  split; [|repeat split].
  unfold content_lines; cbn. apply split_join.
  - intros E. apply Hn. apply (f_equal (@rev _)) in E.
    rewrite rev_involutive in E. exact E.
  - apply Forall_rev. exact Hlf.
Qed.

Lemma finish_once_witness :
  exists f',
    Fragment.finish
      (Fragment.set_lines (Some ["> b"; "> a"])
         (Fragment.__init__ true false "> b"))
    = Ok f'
    /\ Fragment.content f' = Some (join [LF] (rev ["> b"; "> a"]))
    /\ content_lines f' = rev ["> b"; "> a"]
    /\ Fragment.lines f' = None
    /\ (Fragment.signature f', Fragment.hidden f', Fragment.quoted f',
        Fragment.forwarded f')
       = (false, false, true, false)
    /\ Fragment.finish f' = Raise AttributeError.
Proof.
  apply (@finish_once
           (Fragment.set_lines (Some ["> b"; "> a"])
              (Fragment.__init__ true false "> b"))
           ["> b"; "> a"]).
  - reflexivity.
  - discriminate.
  - repeat constructor; vm_compute;
      intros H; repeat (destruct H as [H|H]; [discriminate H|]); exact H.
Defined.

End LineEnds.

(* ================================================================= *)
(** * Further properties: the lines that the tables recognise *)

(** ** The matcher and the words of a pattern *)

Module ReLang.

Import ReFacts.

(** [n] steps of a relation between positions. *)
Fixpoint iterate (R : cursor -> cursor -> Prop) (n : nat) (a b : cursor)
    : Prop :=
  match n with
  | O => b = a
  | S n' => exists m, R a m /\ iterate R n' m b
  end.

Definition upto (n : nat) (hi : option nat) : Prop :=
  match hi with
  | None => True
  | Some h => n <= h
  end.

(** [matches fl r a b]: the pattern [r] can match from the position [a]
    to the position [b].  An iteration of a repetition consumes a
    character, as in [run]. *)
Fixpoint matches (fl : flags) (r : regex) (a b : cursor) : Prop :=
  match r with
  | Chr c => eat (Ascii.eqb c) a = Some b
  | Dot => eat (fun c => DOTALL fl || negb (Ascii.eqb c LF)) a = Some b
  | Space => eat isspace a = Some b
  | Word => eat (fun c => isalnum c || Ascii.eqb c "_") a = Some b
  | OneOf cs => eat (fun c => existsb (Ascii.eqb c) cs) a = Some b
  | Bol => at_bol fl a = true /\ b = a
  | Eol => at_eol fl a = true /\ b = a
  | Eps => b = a
  | Seq r1 r2 => exists m, matches fl r1 a m /\ matches fl r2 m b
  | Alt r1 r2 => matches fl r1 a b \/ matches fl r2 a b
  | Rep _ lo hi r' =>
      exists n,
        lo <= n /\ upto n hi
        /\ iterate (fun x y => matches fl r' x y /\ c_pos x < c_pos y) n a b
  | Grp _ r' => matches fl r' a b
  end.

(** The characters left and the index add up to the length of the
    text. *)
Definition total (a : cursor) : nat := c_pos a + length (c_rest a).

Lemma eat_total (p : ascii -> bool) (a b : cursor) :
  eat p a = Some b -> total b = total a /\ c_pos b = S (c_pos a).
Proof.
  unfold eat, total. destruct (c_rest a) as [|c rest]; [discriminate|].
  destruct (p c); [|discriminate]. intros [= <-]. cbn. lia.
Qed.

Lemma iterate_total (R : cursor -> cursor -> Prop) :
  (forall x y, R x y -> total y = total x) ->
  forall n a b, iterate R n a b -> total b = total a.
Proof.
  intros HR. induction n as [|n IH]; intros a b; cbn [iterate].
  - intros ->. reflexivity.
  - intros (m & H1 & H2). rewrite (IH _ _ H2). apply HR. exact H1.
Qed.

Lemma matches_total (fl : flags) (r : regex) :
  forall a b, matches fl r a b -> total b = total a.
Proof.
  induction r as [c| | | |cs| | | |r1 IH1 r2 IH2|r1 IH1 r2 IH2
                  |greedy lo hi r' IH|n r' IH];
    intros a b; cbn [matches].
  1-5: intros H; apply eat_total in H; tauto.
  1-2: intros [_ ->]; reflexivity.
  - intros ->. reflexivity.
  - intros (m & H1 & H2). rewrite (IH2 _ _ H2). apply IH1. exact H1.
  - intros [H|H]; [apply IH1|apply IH2]; exact H.
  - intros (n & _ & _ & H). revert H. apply iterate_total.
    intros x y [H _]. apply IH. exact H.
  - apply IH.
Qed.

(** *** What the matcher finds is a match *)

Section RepSound.

Variable body :
  cursor -> captures ->
  (cursor -> captures -> option (cursor * captures)) ->
  option (cursor * captures).
Variable R : cursor -> cursor -> Prop.
Variable k : cursor -> captures -> option (cursor * captures).
Variables (greedy : bool) (lo : nat) (hi : option nat).

Hypothesis body_sound :
  forall a cp k' x,
    body a cp k' = Some x -> exists b cp', R a b /\ k' b cp' = Some x.

Lemma rep_iter_sound (fuel : nat) :
  forall i a cp x,
    upto i hi ->
    rep_iter body k greedy lo hi fuel i a cp = Some x ->
    exists n b cp',
      lo <= i + n /\ upto (i + n) hi
      /\ iterate (fun x y => R x y /\ c_pos x < c_pos y) n a b
      /\ k b cp' = Some x.
Proof.
  induction fuel as [|fuel IHf]; intros i a cp x Hi H.
  - assert (Hs : (if lo <=? i then k a cp else None) = Some x).
    { cbn [rep_iter] in H. destruct greedy; cbn [orelse] in H; [exact H|].
      destruct (if lo <=? i then k a cp else None); [exact H|discriminate]. }
    destruct (lo <=? i) eqn:El; [|discriminate].
    apply Nat.leb_le in El. exists 0, a, cp. rewrite Nat.add_0_r.
    repeat split; assumption.
  - cbn [rep_iter] in H.
    set (stop := if lo <=? i then k a cp else None) in H.
    assert (Hstop : stop = Some x ->
              exists n b cp',
                lo <= i + n /\ upto (i + n) hi
                /\ iterate (fun x y => R x y /\ c_pos x < c_pos y) n a b
                /\ k b cp' = Some x).
    { unfold stop. intros Hy. destruct (lo <=? i) eqn:El; [|discriminate].
      apply Nat.leb_le in El. exists 0, a, cp. rewrite Nat.add_0_r.
      repeat split; assumption. }
    match type of H with
    | (if greedy then orelse ?m _ else _) = _ => set (more := m) in H
    end.
    assert (Hmore : more = Some x ->
              exists n b cp',
                lo <= i + n /\ upto (i + n) hi
                /\ iterate (fun x y => R x y /\ c_pos x < c_pos y) n a b
                /\ k b cp' = Some x).
    { unfold more. intros Hy. destruct (below i hi) eqn:Eb; [|discriminate].
      apply body_sound in Hy as (m & cp1 & HR & Hy).
      destruct (c_pos a <? c_pos m) eqn:Ep; [|discriminate].
      apply Nat.ltb_lt in Ep.
      apply IHf in Hy as (n & b & cp' & H1 & H2 & H3 & H4).
      - exists (S n), b, cp'. rewrite Nat.add_succ_r.
        repeat split; try assumption.
        exists m. repeat split; assumption.
      - unfold upto, below in *. destruct hi as [h|]; [|exact I].
        apply Nat.ltb_lt in Eb. exact Eb. }
    destruct greedy.
    + destruct more as [y|]; cbn [orelse] in H.
      * apply Hmore. exact H.
      * apply Hstop. exact H.
    + destruct stop as [y|]; cbn [orelse] in H.
      * apply Hstop. exact H.
      * apply Hmore. exact H.
Qed.

End RepSound.

Lemma run_sound (fl : flags) (r : regex) :
  forall a cp k x,
    run fl r a cp k = Some x ->
    exists b cp', matches fl r a b /\ k b cp' = Some x.
Proof.
  assert (Hone : forall (p : ascii -> bool) a cp
                   (k : cursor -> captures -> option (cursor * captures)) x,
             match eat p a with
             | Some cur' => k cur' cp
             | None => None
             end = Some x ->
             exists b cp', eat p a = Some b /\ k b cp' = Some x).
  { intros p a cp k x H. destruct (eat p a) as [b|]; [|discriminate].
    exists b, cp. split; [reflexivity|exact H]. }
  induction r as [c| | | |cs| | | |r1 IH1 r2 IH2|r1 IH1 r2 IH2
                  |greedy lo hi r' IH|n r' IH];
    intros a cp k x H.
  1-5: cbn [run] in H; apply Hone in H; exact H.
  - cbn [run] in H. destruct (at_bol fl a) eqn:E; [|discriminate].
    exists a, cp. cbn [matches]. repeat split; assumption.
  - cbn [run] in H. destruct (at_eol fl a) eqn:E; [|discriminate].
    exists a, cp. cbn [matches]. repeat split; assumption.
  - exists a, cp. split; [reflexivity|exact H].
  - cbn [run] in H. apply IH1 in H as (m & cp1 & H1 & H).
    apply IH2 in H as (b & cp2 & H2 & H).
    exists b, cp2. split; [exists m; split; assumption|exact H].
  - cbn [run] in H. destruct (run fl r1 a cp k) eqn:E1; cbn [orelse] in H.
    + injection H as <-. apply IH1 in E1 as (b & cp' & H1 & H).
      exists b, cp'. split; [left; exact H1|exact H].
    + apply IH2 in H as (b & cp' & H2 & H).
      exists b, cp'. split; [right; exact H2|exact H].
  - rewrite run_rep in H.
    apply (@rep_iter_sound (run fl r') (matches fl r') k greedy lo hi IH)
      in H.
    + destruct H as (n & b & cp' & H1 & H2 & H3 & H4).
      exists b, cp'. split; [|exact H4]. exists n. repeat split; assumption.
    + destruct hi; cbn; [lia|exact I].
  - cbn [run] in H. apply IH in H as (b & cp' & H1 & H).
    eexists _, _. split; [exact H1|exact H].
Qed.

(** *** The matcher finds a match when there is one *)

Lemma orelse_some {A : Type} (x y : option A) :
  x <> None \/ y <> None -> orelse x y <> None.
Proof. destruct x, y; cbn; intros [H|H]; congruence. Qed.

Section RepComplete.

Variable body :
  cursor -> captures ->
  (cursor -> captures -> option (cursor * captures)) ->
  option (cursor * captures).
Variable R : cursor -> cursor -> Prop.
Variable k : cursor -> captures -> option (cursor * captures).
Variables (greedy : bool) (lo : nat) (hi : option nat).

Hypothesis body_complete :
  forall a b cp k',
    R a b -> (forall cp', k' b cp' <> None) -> body a cp k' <> None.
Hypothesis R_total : forall a b, R a b -> total b = total a.

Lemma rep_iter_complete (n : nat) :
  forall fuel i a b cp,
    iterate (fun x y => R x y /\ c_pos x < c_pos y) n a b ->
    lo <= i + n -> upto (i + n) hi ->
    length (c_rest a) <= fuel ->
    (forall cp', k b cp' <> None) ->
    rep_iter body k greedy lo hi fuel i a cp <> None.
Proof.
  induction n as [|n IH]; intros fuel i a b cp Hit Hlo Hhi Hf Hk.
  - cbn [iterate] in Hit. subst b. rewrite Nat.add_0_r in Hlo.
    apply Nat.leb_le in Hlo.
    destruct fuel; cbn [rep_iter]; rewrite Hlo;
      destruct greedy; apply orelse_some; auto.
  - destruct Hit as (m & [HR Hp] & Hit).
    pose proof (R_total HR) as Ht. unfold total in Ht.
    destruct fuel as [|fuel]; [lia|]. cbn [rep_iter].
    assert (Hb : below i hi = true).
    { unfold below, upto in *. destruct hi as [h|]; [|reflexivity].
      apply Nat.ltb_lt. lia. }
    rewrite Hb.
    assert (Hmore :
      body a cp
        (fun cur' cp' =>
           if c_pos a <? c_pos cur'
           then rep_iter body k greedy lo hi fuel (S i) cur' cp'
           else None) <> None).
    { apply body_complete with (b := m); [exact HR|]. intros cp'.
      rewrite (proj2 (Nat.ltb_lt _ _) Hp).
      apply (IH fuel (S i) m b cp' Hit); [lia| |lia|exact Hk].
      rewrite Nat.add_succ_r in Hhi. exact Hhi. }
    destruct greedy; apply orelse_some; auto.
Qed.

End RepComplete.

Lemma run_complete (fl : flags) (r : regex) :
  forall a b cp k,
    matches fl r a b -> (forall cp', k b cp' <> None) ->
    run fl r a cp k <> None.
Proof.
  induction r as [c| | | |cs| | | |r1 IH1 r2 IH2|r1 IH1 r2 IH2
                  |greedy lo hi r' IH|n r' IH];
    intros a b cp k H Hk.
  1-5: cbn [run matches] in *; rewrite H; apply Hk.
  - cbn [run]. destruct H as [-> ->]. apply Hk.
  - cbn [run]. destruct H as [-> ->]. apply Hk.
  - cbn [matches] in H. subst b. apply Hk.
  - cbn [run]. destruct H as (m & H1 & H2).
    apply (IH1 _ _ _ _ H1). intros cp'. apply (IH2 _ _ _ _ H2). exact Hk.
  - cbn [run]. apply orelse_some. destruct H as [H|H].
    + left. exact (IH1 _ _ _ _ H Hk).
    + right. exact (IH2 _ _ _ _ H Hk).
  - rewrite run_rep. destruct H as (n & Hlo & Hhi & Hit).
    apply (@rep_iter_complete (run fl r') (matches fl r') k greedy lo hi IH
             (@matches_total fl r') n _ 0 a b cp).
    + exact Hit.
    + exact Hlo.
    + exact Hhi.
    + apply Nat.le_refl.
    + exact Hk.
  - cbn [run]. apply (IH _ _ _ _ H). intros cp'. apply Hk.
Qed.

(** The position at which [re.match] starts. *)
Definition start (text : str) : cursor := mkcursor 0 None text.

(** [re.match] returns a match exactly when the pattern can match from
    the start of the text. *)
Lemma re_match_matches (fl : flags) (r : regex) (text : str) :
  is_some (re_match fl r text) = true
  <-> exists b, matches fl r (start text) b.
Proof.
  unfold re_match, match_at. fold (start text). split.
  - destruct (run _ _ _ _ _) as [[b cp]|] eqn:E; [|discriminate].
    intros _. apply run_sound in E as (b' & cp' & H & _).
    exists b'. exact H.
  - intros [b H].
    destruct (run _ _ _ _ _) as [[b' cp]|] eqn:E; [reflexivity|].
    exfalso. revert E. apply (@run_complete fl r _ b _ _ H). intros cp'.
    cbn [andb]. discriminate.
Qed.

(** *** The characters that a match reads *)

(** [reads a w b]: the characters of [w] lead from the position [a] to
    the position [b]. *)
Definition reads (a : cursor) (w : str) (b : cursor) : Prop :=
  c_rest a = w ++ c_rest b
  /\ c_pos b = length w + c_pos a
  /\ c_prev b = last (map Some w) (c_prev a).

Ltac splits := repeat match goal with |- _ /\ _ => split end.

Lemma last_app_default {A : Type} (l1 l2 : list A) (d : A) :
  last (l1 ++ l2) d = last l2 (last l1 d).
Proof.
  destruct l2 as [|x l2] using rev_ind.
  - rewrite app_nil_r. reflexivity.
  - rewrite app_assoc, !last_last. reflexivity.
Qed.

Lemma reads_nil (a b : cursor) : reads a [] b <-> b = a.
Proof.
  unfold reads. cbn [app length map last Nat.add]. split.
  - intros (H1 & H2 & H3). destruct a, b. cbn in *. congruence.
  - intros ->. splits; reflexivity.
Qed.

Lemma reads_trans (a m b : cursor) (w1 w2 : str) :
  reads a w1 m -> reads m w2 b -> reads a (w1 ++ w2) b.
Proof.
  unfold reads. intros (H1 & H2 & H3) (H4 & H5 & H6). splits.
  - rewrite H1, H4, app_assoc. reflexivity.
  - rewrite H5, H2, length_app. lia.
  - rewrite H6, H3, map_app, last_app_default. reflexivity.
Qed.

Lemma reads_from (a : cursor) (w rest : str) :
  c_rest a = w ++ rest -> exists b, reads a w b /\ c_rest b = rest.
Proof.
  intros H.
  exists (mkcursor (length w + c_pos a) (last (map Some w) (c_prev a)) rest).
  unfold reads. cbn [c_rest c_pos c_prev]. splits; [exact H|reflexivity..].
Qed.

Lemma reads_split (a b : cursor) (w1 w2 : str) :
  reads a (w1 ++ w2) b -> exists m, reads a w1 m /\ reads m w2 b.
Proof.
  intros (H1 & H2 & H3). rewrite <- app_assoc in H1.
  destruct (@reads_from a w1 _ H1) as (m & Hm & Hr). exists m.
  split; [exact Hm|]. destruct Hm as (_ & M2 & M3). unfold reads. splits.
  - exact Hr.
  - rewrite H2, M2, length_app. lia.
  - rewrite H3, M3, map_app, last_app_default. reflexivity.
Qed.

Lemma reads_text (text w : str) (b : cursor) :
  reads (start text) w b -> text = w ++ c_rest b.
Proof. intros (H & _). exact H. Qed.

Lemma eat_reads (p : ascii -> bool) (a b : cursor) :
  eat p a = Some b <-> exists c, p c = true /\ reads a [c] b.
Proof.
  unfold eat, reads. cbn [app length map last Nat.add]. split.
  - destruct (c_rest a) as [|c rest]; [discriminate|].
    destruct (p c) eqn:E; [|discriminate]. intros [= <-].
    exists c. cbn. splits; try reflexivity. exact E.
  - intros (c & Hp & H1 & H2 & H3). rewrite H1, Hp.
    destruct b. cbn in *. congruence.
Qed.

Lemma matches_Chr (fl : flags) (c : ascii) (a b : cursor) :
  matches fl (Chr c) a b <-> reads a [c] b.
Proof.
  cbn [matches]. rewrite eat_reads. split.
  - intros (c' & E & H). apply Ascii.eqb_eq in E. subst c'. exact H.
  - intros H. exists c. split; [apply Ascii.eqb_refl|exact H].
Qed.

(** The patterns of one character. *)
Definition class (fl : flags) (r : regex) : option (ascii -> bool) :=
  match r with
  | Chr c => Some (Ascii.eqb c)
  | Dot => Some (fun c => DOTALL fl || negb (Ascii.eqb c LF))
  | Space => Some isspace
  | Word => Some (fun c => isalnum c || Ascii.eqb c "_")
  | OneOf cs => Some (fun c => existsb (Ascii.eqb c) cs)
  | _ => None
  end.

(** A character that [.] matches without [DOTALL]. *)
Lemma forallb_dot (w : str) :
  forallb (fun c => DOTALL no_flags || negb (Ascii.eqb c LF)) w = true
  <-> ~ In LF w.
Proof.
  cbn [DOTALL no_flags orb]. induction w as [|c w IH]; cbn [forallb In].
  - tauto.
  - rewrite andb_true_iff, IH, negb_true_iff.
    destruct (Ascii.eqb_spec c LF) as [->|Hc].
    + split; [intros [H _]; discriminate H|intros H; exfalso; apply H; left; reflexivity].
    + split; [intros [_ H] [E|E]; [exact (Hc E)|exact (H E)]
             |intros H; split; [reflexivity|tauto]].
Qed.

Lemma forallb_any (w : str) :
  forallb (fun c => DOTALL (mkflags true true) || negb (Ascii.eqb c LF)) w
  = true.
Proof. induction w as [|c w IH]; [reflexivity|exact IH]. Qed.

Lemma forallb_dash (w : str) :
  forallb (Ascii.eqb "-") w = true <-> w = repeat "-"%char (length w).
Proof.
  induction w as [|c w IH]; cbn [forallb length repeat]; [tauto|].
  rewrite andb_true_iff, IH. split.
  - intros [Hc Hw]. apply Ascii.eqb_eq in Hc. subst c. f_equal. exact Hw.
  - intros [= -> Hw]. split; [reflexivity|exact Hw].
Qed.

(** [_match_any] with [re.match] finds a match exactly when a pattern of
    the list matches. *)
Lemma match_any_exists (regexs : list regex) (text : str) :
  is_some (fst (EmailMessage._match_any regexs text None false)) = true
  <-> Exists (fun r => is_some (re_match no_flags r text) = true) regexs.
Proof.
  unfold EmailMessage._match_any. generalize (@None regex).
  induction regexs as [|r rs IH]; intros tried;
    cbn [EmailMessage._match_any_loop].
  - cbn. split; [discriminate|intros H; inversion H].
  - destruct (re_match no_flags r text) as [m|] eqn:E.
    + cbn. split; [intros _; left; rewrite E; reflexivity|reflexivity].
    + rewrite IH. split.
      * intros H. right. exact H.
      * intros H. inversion H as [? ? H1|? ? H1]; subst; [|exact H1].
        rewrite E in H1. discriminate H1.
Qed.

(** [re.search] finds a match exactly when the pattern can match from
    some position of the text. *)
Lemma search_from_matches (fl : flags) (r : regex) (text : str) :
  forall rest pos prev,
    is_some (search_from fl r text pos prev rest) = true
    <-> exists pre a b,
          reads (mkcursor pos prev rest) pre a /\ matches fl r a b.
Proof.
  assert (Hm : forall a, is_some (match_at fl r text false a) = true
                         <-> exists b, matches fl r a b).
  { intros a. unfold match_at. split.
    - destruct (run _ _ _ _ _) as [[b cp]|] eqn:E; [|discriminate].
      intros _. apply run_sound in E as (b' & cp' & H & _).
      exists b'. exact H.
    - intros [b H].
      destruct (run _ _ _ _ _) as [[b' cp]|] eqn:E; [reflexivity|].
      exfalso. revert E. apply (@run_complete fl r _ b _ _ H). intros cp'.
      cbn [andb]. discriminate. }
  induction rest as [|c rest IH]; intros pos prev; cbn [search_from].
  - destruct (match_at _ _ _ _ _) as [m|] eqn:E.
    + split; [intros _|reflexivity].
      destruct (proj1 (Hm (mkcursor pos prev [])))
        as [b Hb]; [rewrite E; reflexivity|].
      exists [], (mkcursor pos prev []), b.
      split; [apply reads_nil; reflexivity|exact Hb].
    + split; [discriminate|]. intros (pre & a & b & Hr & Hb).
      destruct pre as [|x pre].
      * apply reads_nil in Hr. subst a.
        rewrite <- E. apply Hm. exists b. exact Hb.
      * destruct Hr as (Hr & _). discriminate Hr.
  - destruct (match_at _ _ _ _ _) as [m|] eqn:E.
    + split; [intros _|reflexivity].
      destruct (proj1 (Hm (mkcursor pos prev (c :: rest))))
        as [b Hb]; [rewrite E; reflexivity|].
      exists [], (mkcursor pos prev (c :: rest)), b.
      split; [apply reads_nil; reflexivity|exact Hb].
    + rewrite IH. split.
      * intros (pre & a & b & Hr & Hb). exists (c :: pre), a, b.
        split; [|exact Hb].
        refine (@reads_trans _ _ _ [c] pre _ Hr).
        unfold reads; cbn; splits; reflexivity.
      * intros (pre & a & b & Hr & Hb). destruct pre as [|x pre].
        -- apply reads_nil in Hr. subst a.
           assert (H : is_some (match_at fl r text false
                                  (mkcursor pos prev (c :: rest))) = true)
             by (apply Hm; exists b; exact Hb).
           rewrite E in H. discriminate H.
        -- apply (@reads_split _ a [x] pre) in Hr as (m' & H1 & H2).
           exists pre, a, b. split; [|exact Hb].
           destruct H1 as (R1 & R2 & R3). cbn in R1, R2, R3.
           injection R1 as <- R1. destruct m'. cbn in *. subst. exact H2.
Qed.

Lemma re_search_matches (fl : flags) (r : regex) (text : str) :
  is_some (re_search fl r text) = true
  <-> exists pre a b, reads (start text) pre a /\ matches fl r a b.
Proof. apply search_from_matches. Qed.

(** [_match_any] with [re.search]. *)
Lemma search_any_exists (regexs : list regex) (text : str) (fl : flags) :
  is_some (fst (EmailMessage._match_any regexs text (Some fl) true)) = true
  <-> Exists (fun r => is_some (re_search fl r text) = true) regexs.
Proof.
  unfold EmailMessage._match_any. generalize (@None regex).
  induction regexs as [|r rs IH]; intros tried;
    cbn [EmailMessage._match_any_loop].
  - cbn. split; [discriminate|intros H; inversion H].
  - destruct (re_search fl r text) as [m|] eqn:E.
    + cbn. split; [intros _; left; rewrite E; reflexivity|reflexivity].
    + rewrite IH. split.
      * intros H. right. exact H.
      * intros H. inversion H as [? ? H1|? ? H1]; subst; [|exact H1].
        rewrite E in H1. discriminate H1.
Qed.

(** *** The words of a pattern *)

(** [^] after the character [prev], and [$] before the characters
    [rest]. *)
Definition bol (fl : flags) (prev : option ascii) : bool :=
  match prev with
  | None => true
  | Some c => MULTILINE fl && Ascii.eqb c LF
  end.

Definition eol (fl : flags) (rest : str) : bool :=
  match rest with
  | [] => true
  | c :: rest' =>
      Ascii.eqb c LF
      && (MULTILINE fl || match rest' with [] => true | _ :: _ => false end)
  end.

(** The character before the position reached after [w]. *)
Definition before (prev : option ascii) (w : str) : option ascii :=
  last (map Some w) prev.

(** [n] words of [L] in a row, none empty. *)
Fixpoint times (L : option ascii -> str -> str -> Prop) (rest : str)
    (n : nat) (prev : option ascii) (w : str) : Prop :=
  match n with
  | O => w = []
  | S n' =>
      exists w1 w2,
        w = w1 ++ w2 /\ w1 <> [] /\ L prev w1 (w2 ++ rest)
        /\ times L rest n' (before prev w1) w2
  end.

(** [lang fl r prev w rest]: the pattern [r] matches the word [w] when
    the character [prev] comes before it and the characters [rest]
    follow. *)
Fixpoint lang (fl : flags) (r : regex) (prev : option ascii) (w rest : str)
    : Prop :=
  match r with
  | Chr c => w = [c]
  | Dot =>
      exists c, w = [c] /\ DOTALL fl || negb (Ascii.eqb c LF) = true
  | Space => exists c, w = [c] /\ isspace c = true
  | Word => exists c, w = [c] /\ isalnum c || Ascii.eqb c "_" = true
  | OneOf cs => exists c, w = [c] /\ existsb (Ascii.eqb c) cs = true
  | Bol => w = [] /\ bol fl prev = true
  | Eol => w = [] /\ eol fl rest = true
  | Eps => w = []
  | Seq r1 r2 =>
      exists w1 w2,
        w = w1 ++ w2 /\ lang fl r1 prev w1 (w2 ++ rest)
        /\ lang fl r2 (before prev w1) w2 rest
  | Alt r1 r2 => lang fl r1 prev w rest \/ lang fl r2 prev w rest
  | Rep _ lo hi r' =>
      exists n, lo <= n /\ upto n hi /\ times (lang fl r') rest n prev w
  | Grp _ r' => lang fl r' prev w rest
  end.

Lemma reads_rest (a b : cursor) (w : str) :
  reads a w b -> c_rest a = w ++ c_rest b.
Proof. intros (H & _). exact H. Qed.

Lemma reads_prev (a b : cursor) (w : str) :
  reads a w b -> c_prev b = before (c_prev a) w.
Proof. intros (_ & _ & H). exact H. Qed.

Lemma reads_progress (a b : cursor) (w : str) :
  reads a w b -> (c_pos a < c_pos b <-> w <> []).
Proof.
  intros (_ & H & _). destruct w as [|c w]; cbn [length] in H.
  - split; [lia|intros E; exfalso; apply E; reflexivity].
  - split; [discriminate|lia].
Qed.

Lemma reads_one (a b : cursor) (w : str) (p : ascii -> bool) :
  (exists c, p c = true /\ reads a [c] b)
  <-> exists w, reads a w b /\ exists c, w = [c] /\ p c = true.
Proof.
  split.
  - intros (c & Hp & H). exists [c]. split; [exact H|].
    exists c. split; [reflexivity|exact Hp].
  - intros (w' & H & c & -> & Hp). exists c. split; assumption.
Qed.

Section Times.

Variable R : cursor -> cursor -> Prop.
Variable L : option ascii -> str -> str -> Prop.

Hypothesis RL :
  forall a b, R a b <-> exists w, reads a w b /\ L (c_prev a) w (c_rest b).

Lemma iterate_times (n : nat) :
  forall a b,
    iterate (fun x y => R x y /\ c_pos x < c_pos y) n a b
    <-> exists w, reads a w b /\ times L (c_rest b) n (c_prev a) w.
Proof.
  induction n as [|n IH]; intros a b; cbn [iterate times].
  - split.
    + intros ->. exists []. split; [apply reads_nil|]; reflexivity.
    + intros (w & H & ->). apply reads_nil. exact H.
  - split.
    + intros (m & [HR Hp] & Hit).
      apply RL in HR as (w1 & H1 & HL).
      apply IH in Hit as (w2 & H2 & Ht).
      exists (w1 ++ w2). split; [exact (reads_trans H1 H2)|].
      exists w1, w2. splits.
      * reflexivity.
      * apply (reads_progress H1). exact Hp.
      * rewrite <- (reads_rest H2). exact HL.
      * rewrite <- (reads_prev H1). exact Ht.
    + intros (w & H & w1 & w2 & -> & Hne & HL & Ht).
      apply (@reads_split a b w1 w2) in H as (m & H1 & H2).
      exists m. split; [split|].
      * apply RL. exists w1. split; [exact H1|].
        rewrite (reads_rest H2). exact HL.
      * apply (reads_progress H1). exact Hne.
      * apply IH. exists w2. split; [exact H2|].
        rewrite (reads_prev H1). exact Ht.
Qed.

End Times.

(** A match reads a word of the pattern, and every word of the pattern
    is read by a match. *)
Lemma matches_lang (fl : flags) (r : regex) :
  forall a b,
    matches fl r a b
    <-> exists w, reads a w b /\ lang fl r (c_prev a) w (c_rest b).
Proof.
  induction r as [c| | | |cs| | | |r1 IH1 r2 IH2|r1 IH1 r2 IH2
                  |greedy lo hi r' IH|n r' IH];
    intros a b.
  - rewrite matches_Chr. cbn [lang]. split.
    + intros H. exists [c]. split; [exact H|reflexivity].
    + intros (w & H & ->). exact H.
  - cbn [matches lang]. rewrite eat_reads. apply reads_one. exact [].
  - cbn [matches lang]. rewrite eat_reads. apply reads_one. exact [].
  - cbn [matches lang]. rewrite eat_reads. apply reads_one. exact [].
  - cbn [matches lang]. rewrite eat_reads. apply reads_one. exact [].
  - cbn [matches lang]. split.
    + intros [H ->]. exists []. split; [apply reads_nil; reflexivity|].
      split; [reflexivity|exact H].
    + intros (w & H & -> & Hb). apply reads_nil in H. subst b.
      split; [exact Hb|reflexivity].
  - cbn [matches lang]. split.
    + intros [H ->]. exists []. split; [apply reads_nil; reflexivity|].
      split; [reflexivity|exact H].
    + intros (w & H & -> & Hb). apply reads_nil in H. subst b.
      split; [exact Hb|reflexivity].
  - cbn [matches lang]. split.
    + intros ->. exists []. split; [apply reads_nil|]; reflexivity.
    + intros (w & H & ->). apply reads_nil. exact H.
  - cbn [matches lang]. split.
    + intros (m & H1 & H2).
      apply IH1 in H1 as (w1 & R1 & L1). apply IH2 in H2 as (w2 & R2 & L2).
      exists (w1 ++ w2). split; [exact (reads_trans R1 R2)|].
      exists w1, w2. splits.
      * reflexivity.
      * rewrite <- (reads_rest R2). exact L1.
      * rewrite <- (reads_prev R1). exact L2.
    + intros (w & H & w1 & w2 & -> & L1 & L2).
      apply (@reads_split a b w1 w2) in H as (m & R1 & R2).
      exists m. split.
      * apply IH1. exists w1. split; [exact R1|].
        rewrite (reads_rest R2). exact L1.
      * apply IH2. exists w2. split; [exact R2|].
        rewrite (reads_prev R1). exact L2.
  - cbn [matches lang]. rewrite IH1, IH2. split.
    + intros [(w & H & HL)|(w & H & HL)]; exists w; tauto.
    + intros (w & H & [HL|HL]); [left|right]; exists w; tauto.
  - cbn [matches lang]. split.
    + intros (n & Hlo & Hhi & H).
      apply (@iterate_times (matches fl r') (lang fl r') IH) in H
        as (w & H & Ht).
      exists w. split; [exact H|]. exists n. splits; assumption.
    + intros (w & H & n & Hlo & Hhi & Ht).
      exists n. splits; try assumption.
      apply (@iterate_times (matches fl r') (lang fl r') IH).
      exists w. split; assumption.
  - cbn [matches lang]. apply IH.
Qed.

(** [re.match] returns a match exactly when the text begins with a word
    of the pattern. *)
Lemma re_match_lang (fl : flags) (r : regex) (text : str) :
  is_some (re_match fl r text) = true
  <-> exists w rest, text = w ++ rest /\ lang fl r None w rest.
Proof.
  rewrite re_match_matches. split.
  - intros (b & H). apply matches_lang in H as (w & H & HL).
    exists w, (c_rest b). split; [exact (reads_text H)|exact HL].
  - intros (w & rest & -> & HL).
    destruct (@reads_from (start (w ++ rest)) w rest eq_refl)
      as (b & H & Hr).
    exists b. apply matches_lang. exists w. split; [exact H|].
    rewrite Hr. exact HL.
Qed.

(** [re.search] returns a match exactly when a word of the pattern
    occurs in the text. *)
Lemma re_search_lang (fl : flags) (r : regex) (text : str) :
  is_some (re_search fl r text) = true
  <-> exists pre w rest,
        text = pre ++ w ++ rest /\ lang fl r (before None pre) w rest.
Proof.
  rewrite re_search_matches. split.
  - intros (pre & a & b & H1 & H).
    apply matches_lang in H as (w & H2 & HL).
    exists pre, w, (c_rest b). split.
    + rewrite (reads_text H1), (reads_rest H2). reflexivity.
    + rewrite (reads_prev H1) in HL. exact HL.
  - intros (pre & w & rest & -> & HL).
    destruct (@reads_from (start (pre ++ w ++ rest)) pre (w ++ rest) eq_refl)
      as (a & H1 & Hr1).
    destruct (@reads_from a w rest Hr1) as (b & H2 & Hr2).
    exists pre, a, b. split; [exact H1|].
    apply matches_lang. exists w. split; [exact H2|].
    rewrite Hr2, (reads_prev H1). exact HL.
Qed.

(** The words of the patterns that the tables are made of. *)
Lemma lang_Lit (fl : flags) (s : str) :
  forall prev w rest, lang fl (Lit s) prev w rest <-> w = s.
Proof.
  induction s as [|c s IH]; intros prev w rest.
  - reflexivity.
  - destruct s as [|c' s]; [reflexivity|].
    change (Lit (c :: c' :: s)) with (Seq (Chr c) (Lit (c' :: s))).
    cbn [lang]. split.
    + intros (w1 & w2 & -> & -> & H). apply IH in H. subst w2. reflexivity.
    + intros ->. exists [c], (c' :: s).
      split; [reflexivity|]. split; [reflexivity|]. apply IH. reflexivity.
Qed.

Lemma lang_class (fl : flags) (r : regex) (p : ascii -> bool) :
  class fl r = Some p ->
  forall prev w rest,
    lang fl r prev w rest <-> exists c, w = [c] /\ p c = true.
Proof.
  destruct r; cbn [class]; try discriminate; intros [= <-] prev w rest;
    cbn [lang]; try reflexivity.
  split.
  - intros ->. exists c. split; [reflexivity|apply Ascii.eqb_refl].
  - intros (c' & -> & E). apply Ascii.eqb_eq in E. subst c'. reflexivity.
Qed.

Lemma times_class (fl : flags) (r : regex) (p : ascii -> bool) (rest : str) :
  class fl r = Some p ->
  forall n prev w,
    times (lang fl r) rest n prev w
    <-> length w = n /\ forallb p w = true.
Proof.
  intros Hc. induction n as [|n IH]; intros prev w; cbn [times].
  - split.
    + intros ->. split; reflexivity.
    + intros [H _]. destruct w; [reflexivity|discriminate H].
  - split.
    + intros (w1 & w2 & -> & _ & HL & Ht).
      apply (@lang_class fl r p Hc) in HL as (c & -> & Hp).
      apply IH in Ht as [<- Hw]. cbn [app length forallb].
      rewrite Hp, Hw. split; reflexivity.
    + intros [Hl Hw]. destruct w as [|c w]; [discriminate Hl|].
      cbn [forallb] in Hw. apply andb_true_iff in Hw as [Hp Hw].
      exists [c], w. splits.
      * reflexivity.
      * discriminate.
      * apply (@lang_class fl r p Hc). exists c. split; [reflexivity|exact Hp].
      * apply IH. injection Hl as Hl. split; assumption.
Qed.

Lemma lang_rep_class (fl : flags) (g : bool) (lo : nat) (hi : option nat)
    (r : regex) (p : ascii -> bool) :
  class fl r = Some p ->
  forall prev w rest,
    lang fl (Rep g lo hi r) prev w rest
    <-> lo <= length w /\ upto (length w) hi /\ forallb p w = true.
Proof.
  intros Hc prev w rest. cbn [lang]. split.
  - intros (n & Hlo & Hhi & Ht).
    apply (@times_class fl r p rest Hc) in Ht as [<- Hw]. splits; assumption.
  - intros (Hlo & Hhi & Hw). exists (length w). splits; try assumption.
    apply (@times_class fl r p rest Hc). split; [reflexivity|exact Hw].
Qed.

(** An optional pattern. *)
Lemma lang_Opt (fl : flags) (r : regex) (prev : option ascii)
    (w rest : str) :
  lang fl (Opt r) prev w rest
  <-> w = [] \/ (w <> [] /\ lang fl r prev w rest).
Proof.
  unfold Opt. cbn [lang upto]. split.
  - intros (n & _ & Hh & Ht). destruct n as [|n]; [left; exact Ht|].
    destruct n; [|lia]. cbn [times] in Ht.
    destruct Ht as (w1 & w2 & -> & Hne & HL & ->). right.
    rewrite app_nil_r. cbn [app] in HL. split; assumption.
  - intros [->|[Hne HL]].
    + exists 0. splits; [lia|lia|reflexivity].
    + exists 1. splits; [lia|lia|]. exists w, []. rewrite app_nil_r.
      splits; try assumption; reflexivity.
Qed.

End ReLang.

(** ** The lines of the tables *)

Section Tables.

Import Model ModelFacts StrFacts ReLang.

(** A character that [\w] matches. *)
Definition wordchar (c : ascii) : bool := isalnum c || Ascii.eqb c "_".

Lemma startswith_prefix (p l : str) :
  startswith p l = true <-> exists rest, l = p ++ rest.
Proof.
  revert l. induction p as [|a p IH]; intros l; cbn [startswith app].
  - split; [intros _; exists l; reflexivity|reflexivity].
  - destruct l as [|b l].
    + split; [discriminate|intros [rest H]; discriminate H].
    + rewrite andb_true_iff, IH. split.
      * intros [E [rest ->]]. apply Ascii.eqb_eq in E. subst b.
        exists rest. reflexivity.
      * intros [rest [= -> ->]]. split; [apply Ascii.eqb_refl|].
        exists rest. reflexivity.
Qed.

Lemma lang_Star (fl : flags) (r : regex) (p : ascii -> bool) :
  class fl r = Some p ->
  forall prev w rest, lang fl (Star r) prev w rest <-> forallb p w = true.
Proof.
  intros Hc prev w rest. unfold Star.
  rewrite (@lang_rep_class fl true 0 None r p Hc). cbn [upto].
  split; [tauto|]. intros H. split; [lia|tauto].
Qed.

Lemma lang_LazyStar (fl : flags) (r : regex) (p : ascii -> bool) :
  class fl r = Some p ->
  forall prev w rest, lang fl (LazyStar r) prev w rest <-> forallb p w = true.
Proof.
  intros Hc prev w rest. unfold LazyStar.
  rewrite (@lang_rep_class fl false 0 None r p Hc). cbn [upto].
  split; [tauto|]. intros H. split; [lia|tauto].
Qed.

Lemma lang_Plus (fl : flags) (r : regex) (p : ascii -> bool) :
  class fl r = Some p ->
  forall prev w rest,
    lang fl (Plus r) prev w rest
    <-> exists c w', w = c :: w' /\ p c = true /\ forallb p w' = true.
Proof.
  intros Hc prev w rest. unfold Plus.
  rewrite (@lang_rep_class fl true 1 None r p Hc). cbn [upto]. split.
  - intros (Hl & _ & Hw). destruct w as [|c w]; [cbn in Hl; lia|].
    cbn [forallb] in Hw. apply andb_true_iff in Hw as [Hp Hw].
    exists c, w. splits; [reflexivity|assumption..].
  - intros (c & w' & -> & Hp & Hw). cbn [length forallb]. rewrite Hp, Hw.
    splits; [lia|exact I|reflexivity].
Qed.

(** X15: the lines that [SIG_REGEX] matches, which [re.match] tries at
    the start of the line: those that begin with two dashes, with two
    underscores, with a dash and a character of a word, or with [Sent from
    my] and a character of a word. *)
Theorem signature_line_shape (l : str) :
  signature_line l = true
  <-> startswith "--" l = true
      \/ startswith "__" l = true
      \/ (exists c rest, l = "-" ++ c :: rest /\ wordchar c = true)
      \/ (exists c rest, l = "Sent from my " ++ c :: rest
                         /\ wordchar c = true).
Proof.
  unfold signature_line. rewrite re_match_lang. rewrite !startswith_prefix.
  unfold EmailMessage.SIG_REGEX. split.
  - intros (w & rest & -> & H). cbn [lang Seqs] in H.
    destruct H as [[H|[H|H]]|H].
    + apply lang_Lit in H. subst w. left. exists rest. reflexivity.
    + apply lang_Lit in H. subst w. right. left. exists rest. reflexivity.
    + destruct H as (w1 & w2 & -> & -> & c & -> & Hc).
      right. right. left. exists c, rest. split; [reflexivity|exact Hc].
    + destruct H as (w1 & w2 & -> & [-> _] & w3 & w4 & -> & H3 & n & Hlo
                     & _ & Ht).
      apply lang_Lit in H3. subst w3.
      destruct n as [|n]; [lia|]. cbn [times] in Ht.
      destruct Ht as (u1 & u2 & -> & _ & Hu & _). cbn [lang] in Hu.
      destruct Hu as (v1 & v2 & -> & Hv & _).
      apply (@lang_Plus no_flags Word _ eq_refl) in Hv
        as (c & v1' & -> & Hc & _).
      right. right. right. exists c, (v1' ++ v2 ++ u2 ++ rest).
      split; [|exact Hc]. cbn [app]. rewrite <- !app_assoc. reflexivity.
  - intros [[rest ->]|[[rest ->]|[(c & rest & -> & Hc)|(c & rest & -> & Hc)]]].
    + exists "--", rest. split; [reflexivity|]. cbn [lang]. left. left.
      apply lang_Lit. reflexivity.
    + exists "__", rest. split; [reflexivity|]. cbn [lang]. left. right. left.
      apply lang_Lit. reflexivity.
    + exists ["-"; c]%char, rest. split; [reflexivity|]. cbn [lang].
      left. right. right. exists "-", [c]. splits; try reflexivity.
      exists c. split; [reflexivity|exact Hc].
    + exists ("Sent from my " ++ [c]), rest.
      split; [rewrite <- app_assoc; reflexivity|]. cbn [lang Seqs]. right.
      exists [], ("Sent from my " ++ [c]). splits; try reflexivity.
      exists "Sent from my ", [c]. splits; try reflexivity.
      * apply lang_Lit. reflexivity.
      * exists 1. splits; [lia|cbn; lia|]. cbn [times].
        exists [c], []. splits; try reflexivity; [discriminate|].
        cbn [lang]. exists [c], []. splits; try reflexivity.
        -- apply (@lang_Plus no_flags Word _ eq_refl).
           exists c, []. splits; try reflexivity. exact Hc.
        -- apply (@lang_Star no_flags Space _ eq_refl). reflexivity.
Qed.

Ltac revs :=
  repeat first [progress cbn [app rev] | rewrite rev_app_distr
               | rewrite <- app_assoc].

Lemma not_in_rev (c : ascii) (s : str) : ~ In c s <-> ~ In c (rev s).
Proof. split; intros H E; apply H; apply in_rev; rewrite ?rev_involutive; exact E. Qed.

Lemma forallb_rev (p : ascii -> bool) (s : str) :
  forallb p (rev s) = forallb p s.
Proof.
  induction s as [|c s IH]; [reflexivity|]. cbn [rev forallb].
  rewrite forallb_app, IH. cbn [forallb]. rewrite andb_true_r.
  apply andb_comm.
Qed.

Lemma rev_eq (s t : str) : rev s = t <-> s = rev t.
Proof.
  split; intros H.
  - rewrite <- H, rev_involutive. reflexivity.
  - rewrite H, rev_involutive. reflexivity.
Qed.

(** X16: the lines that [is_quote_header] accepts.  The patterns of
    [QUOTE_HDR_REGEXS] are tried on the line reversed, so that they
    describe its end: the line ends with [wrote:] after an [On], or with
    a colon after [schrieb] after an [Am], or with [crit], whitespace and
    a colon after the two characters 195 and 169 after a [Le]. *)
Theorem quote_header_shape (l : str) :
  EmailMessage.is_quote_header l = true
  <-> (exists a b, l = a ++ "On" ++ b ++ "wrote:" /\ ~ In LF b)
      \/ (exists a b c,
            l = a ++ "Am" ++ b ++ "schrieb" ++ c ++ ":"
            /\ ~ In LF b /\ ~ In LF c)
      \/ (exists a b s,
            l = a ++ "Le" ++ b ++ [chr 195; chr 169] ++ "crit" ++ s ++ ":"
            /\ ~ In LF b /\ forallb isspace s = true).
Proof.
  unfold EmailMessage.is_quote_header, reversed.
  rewrite match_any_exists. unfold EmailMessage.QUOTE_HDR_REGEXS.
  rewrite !Exists_cons, Exists_nil, !re_match_lang. split.
  - intros [H|[H|[H|[]]]]; destruct H as (w & rest & E & H);
      cbn [lang Seqs] in H.
    + destruct H as (w1 & w2 & -> & [-> _] & w3 & w4 & -> & H3 & w5 & w6
                     & -> & H5 & H6).
      apply lang_Lit in H3, H6. subst w3 w6.
      apply (@lang_Star no_flags Dot _ eq_refl) in H5.
      apply forallb_dot in H5. left. exists (rev rest), (rev w5).
      split; [|apply not_in_rev in H5; exact H5].
      apply rev_eq in E. rewrite E.
      revs. reflexivity.
    + destruct H as (w1 & w2 & -> & [-> _] & w3 & w4 & -> & -> & w5 & w6
                     & -> & H5 & w7 & w8 & -> & H7 & w9 & w10 & -> & H9
                     & H10).
      apply lang_Lit in H7, H10. subst w7 w10.
      apply (@lang_Star no_flags Dot _ eq_refl) in H5, H9.
      apply forallb_dot in H5, H9. right. left.
      exists (rev rest), (rev w9), (rev w5).
      split; [|split; [apply not_in_rev in H9; exact H9
                      |apply not_in_rev in H5; exact H5]].
      apply rev_eq in E. rewrite E.
      revs. reflexivity.
    + destruct H as (w1 & w2 & -> & [-> _] & w3 & w4 & -> & -> & w5 & w6
                     & -> & H5 & w7 & w8 & -> & H7 & w9 & w10 & -> & ->
                     & w11 & w12 & -> & -> & w13 & w14 & -> & H13 & H14).
      apply lang_Lit in H7, H14. subst w7 w14.
      apply (@lang_Star no_flags Space _ eq_refl) in H5.
      apply (@lang_Star no_flags Dot _ eq_refl) in H13.
      apply forallb_dot in H13. right. right.
      exists (rev rest), (rev w13), (rev w5).
      split; [|split; [apply not_in_rev in H13; exact H13
                      |rewrite forallb_rev; exact H5]].
      apply rev_eq in E. rewrite E.
      revs. reflexivity.
  - intros [(a & b & -> & Hb)|[(a & b & c & -> & Hb & Hc)
                              |(a & b & s & -> & Hb & Hs)]].
    + left. exists (":etorw" ++ rev b ++ "nO"), (rev a). split.
      * revs. reflexivity.
      * cbn [lang Seqs]. exists [], (":etorw" ++ rev b ++ "nO").
        splits; try reflexivity.
        exists ":etorw", (rev b ++ "nO"). splits; try reflexivity.
        { apply lang_Lit. reflexivity. }
        exists (rev b), "nO". splits; try reflexivity.
        { apply (@lang_Star no_flags Dot _ eq_refl). apply forallb_dot.
          apply not_in_rev in Hb. exact Hb. }
        apply lang_Lit. reflexivity.
    + right. left.
      exists (":" ++ rev c ++ "beirhcs" ++ rev b ++ "mA"), (rev a). split.
      * revs. reflexivity.
      * cbn [lang Seqs]. exists [], (":" ++ rev c ++ "beirhcs" ++ rev b ++ "mA").
        splits; try reflexivity.
        exists ":", (rev c ++ "beirhcs" ++ rev b ++ "mA").
        splits; try reflexivity.
        exists (rev c), ("beirhcs" ++ rev b ++ "mA"). splits; try reflexivity.
        { apply (@lang_Star no_flags Dot _ eq_refl). apply forallb_dot.
          apply not_in_rev in Hc. exact Hc. }
        exists "beirhcs", (rev b ++ "mA"). splits; try reflexivity.
        { apply lang_Lit. reflexivity. }
        exists (rev b), "mA". splits; try reflexivity.
        { apply (@lang_Star no_flags Dot _ eq_refl). apply forallb_dot.
          apply not_in_rev in Hb. exact Hb. }
        apply lang_Lit. reflexivity.
    + right. right. left.
      exists (":" ++ rev s ++ "tirc" ++ [chr 169; chr 195] ++ rev b ++ "eL"),
        (rev a).
      split.
      * revs. reflexivity.
      * cbn [lang Seqs].
        exists [], (":" ++ rev s ++ "tirc" ++ [chr 169; chr 195] ++ rev b
                    ++ "eL").
        splits; try reflexivity.
        exists ":", (rev s ++ "tirc" ++ [chr 169; chr 195] ++ rev b ++ "eL").
        splits; try reflexivity.
        exists (rev s), ("tirc" ++ [chr 169; chr 195] ++ rev b ++ "eL").
        splits; try reflexivity.
        { apply (@lang_Star no_flags Space _ eq_refl).
          rewrite forallb_rev. exact Hs. }
        exists "tirc", ([chr 169; chr 195] ++ rev b ++ "eL").
        splits; try reflexivity.
        { apply lang_Lit. reflexivity. }
        exists [chr 169], ([chr 195] ++ rev b ++ "eL").
        splits; try reflexivity.
        exists [chr 195], (rev b ++ "eL"). splits; try reflexivity.
        exists (rev b), "eL". splits; try reflexivity.
        { apply (@lang_Star no_flags Dot _ eq_refl). apply forallb_dot.
          apply not_in_rev in Hb. exact Hb. }
        apply lang_Lit. reflexivity.
Qed.

(** *** Forward headers *)

(** The phrases of [FORWARD_MESSAGES], in which [[mM]] is either
    letter. *)
Definition forward_phrases : list str :=
  ["Begin forwarded message"; "Forwarded message"; "Forwarded Message";
   "Original message"; "Original Message"].

Lemma eol_rest (rest : str) :
  eol no_flags rest = true <-> rest = [] \/ rest = [LF].
Proof.
  unfold eol. destruct rest as [|c rest].
  - split; [left; reflexivity|reflexivity].
  - cbn [MULTILINE no_flags orb]. split.
    + intros H. apply andb_true_iff in H as [Hc Hr].
      apply Ascii.eqb_eq in Hc. subst c.
      destruct rest; [right; reflexivity|discriminate Hr].
    + intros [H|H]; [discriminate H|]. injection H as -> ->. reflexivity.
Qed.

Lemma lang_opt_chr (fl : flags) (c : ascii) (prev : option ascii)
    (w rest : str) :
  lang fl (Opt (Chr c)) prev w rest <-> w = [] \/ w = [c].
Proof.
  rewrite lang_Opt. cbn [lang]. split.
  - intros [H|[_ H]]; [left|right]; exact H.
  - intros [H|H]; [left; exact H|right]. subst w.
    split; [discriminate|reflexivity].
Qed.

Lemma dash_comm (d x : str) :
  forallb (Ascii.eqb "-") d = true -> "-"%char :: d ++ x = d ++ "-"%char :: x.
Proof.
  induction d as [|c d IH]; [reflexivity|]. cbn [forallb].
  intros H. apply andb_true_iff in H as [Hc Hd].
  apply Ascii.eqb_eq in Hc. subst c. cbn [app]. rewrite IH by exact Hd.
  reflexivity.
Qed.

Lemma dash_not_lf (d : str) :
  forallb (Ascii.eqb "-") d = true -> ~ In LF d.
Proof.
  induction d as [|c d IH]; cbn [forallb In]; [tauto|].
  intros H. apply andb_true_iff in H as [Hc Hd].
  apply Ascii.eqb_eq in Hc. subst c.
  intros [E|E]; [discriminate E|exact (IH Hd E)].
Qed.

Section Phrase.

Variable p : regex.
Variable P : str -> Prop.
Hypothesis p_words :
  forall prev w rest, lang no_flags p prev w rest <-> P w.

(** The first kind of forward header: the phrase between two runs of
    three dashes or more. *)
Lemma dashed_shape (t : str) :
  is_some (re_match no_flags
             (Seqs [Bol; Lit "--"; Plus (Chr "-"); Opt (Chr " "); p;
                    Star Dot; Opt (Chr " "); Lit "--"; Plus (Chr "-"); Eol])
             t) = true
  <-> exists d s ph mid nl,
        t = "---" ++ d ++ s ++ ph ++ mid ++ "---" ++ nl
        /\ forallb (Ascii.eqb "-") d = true /\ (s = [] \/ s = " ")
        /\ P ph /\ ~ In LF mid /\ (nl = [] \/ nl = [LF]).
Proof.
  rewrite re_match_lang. split.
  - intros (w & rest & -> & H). cbn [lang Seqs] in H.
    destruct H as (w1 & w2 & -> & [-> _] & w3 & w4 & -> & H3 & w5 & w6 & ->
                   & H5 & w7 & w8 & -> & H7 & w9 & w10 & -> & H9 & w11
                   & w12 & -> & H11 & w13 & w14 & -> & H13 & w15 & w16 & ->
                   & H15 & w17 & w18 & -> & H17 & -> & H18).
    apply lang_Lit in H3, H15. subst w3 w15.
    apply (@lang_Plus no_flags (Chr "-") _ eq_refl) in H5
      as (c1 & d1 & -> & Hc1 & Hd1).
    apply (@lang_Plus no_flags (Chr "-") _ eq_refl) in H17
      as (c2 & d2 & -> & Hc2 & Hd2).
    apply Ascii.eqb_eq in Hc1, Hc2. subst c1 c2.
    apply lang_opt_chr in H7, H13. apply p_words in H9.
    apply (@lang_Star no_flags Dot _ eq_refl) in H11.
    apply forallb_dot in H11. apply eol_rest in H18.
    exists d1, w7, w9, (w11 ++ w13 ++ d2), rest. splits; try assumption.
    + revs. rewrite !(@dash_comm d2 _ Hd2). reflexivity.
    + intros E. apply in_app_or in E as [E|E]; [exact (H11 E)|].
      apply in_app_or in E as [E|E]; [|exact (@dash_not_lf d2 Hd2 E)].
      destruct H13 as [-> | ->]; [exact E|].
      destruct E as [E|E]; [discriminate E|exact E].
  - intros (d & s & ph & mid & nl & -> & Hd & Hs & Hp & Hm & Hn).
    exists ("---" ++ d ++ s ++ ph ++ mid ++ "---"), nl.
    split; [revs; reflexivity|]. cbn [lang Seqs].
    exists [], ("---" ++ d ++ s ++ ph ++ mid ++ "---").
    splits; try reflexivity.
    exists "--", ("-" ++ d ++ s ++ ph ++ mid ++ "---").
    splits; try reflexivity.
    { apply lang_Lit. reflexivity. }
    exists ("-" ++ d), (s ++ ph ++ mid ++ "---"). splits; try reflexivity.
    { apply (@lang_Plus no_flags (Chr "-") _ eq_refl).
      exists "-"%char, d. splits; try reflexivity. exact Hd. }
    exists s, (ph ++ mid ++ "---"). splits; try reflexivity.
    { apply lang_opt_chr. exact Hs. }
    exists ph, (mid ++ "---"). splits; try reflexivity.
    { apply p_words. exact Hp. }
    exists mid, "---". splits; try reflexivity.
    { apply (@lang_Star no_flags Dot _ eq_refl). apply forallb_dot.
      exact Hm. }
    exists [], "---". splits; try reflexivity.
    { apply lang_opt_chr. left. reflexivity. }
    exists "--", "-". splits; try reflexivity.
    { apply lang_Lit. reflexivity. }
    exists "-", []. splits; try reflexivity.
    { apply (@lang_Plus no_flags (Chr "-") _ eq_refl).
      exists "-"%char, []. splits; reflexivity. }
    apply eol_rest. exact Hn.
Qed.

(** The second kind: the phrase and a colon. *)
Lemma colon_shape (t : str) :
  is_some (re_match no_flags (Seqs [Bol; p; Chr ":"; Eol]) t) = true
  <-> exists ph nl, t = ph ++ ":" ++ nl /\ P ph /\ (nl = [] \/ nl = [LF]).
Proof.
  rewrite re_match_lang. split.
  - intros (w & rest & -> & H). cbn [lang Seqs] in H.
    destruct H as (w1 & w2 & -> & [-> _] & w3 & w4 & -> & H3 & w5 & w6 & ->
                   & -> & -> & H6).
    apply p_words in H3. apply eol_rest in H6.
    exists w3, rest. splits; try assumption. revs. reflexivity.
  - intros (ph & nl & -> & Hp & Hn).
    exists (ph ++ ":"), nl. split; [revs; reflexivity|]. cbn [lang Seqs].
    exists [], (ph ++ ":"). splits; try reflexivity.
    exists ph, ":". splits; try reflexivity.
    { apply p_words. exact Hp. }
    exists ":", []. splits; try reflexivity.
    apply eol_rest. exact Hn.
Qed.

End Phrase.

Lemma phrase_words (s1 s2 : str) (prev : option ascii) (w rest : str) :
  lang no_flags (Seqs [Lit s1; OneOf ["m"; "M"]%char; Lit s2]) prev w rest
  <-> w = s1 ++ "m" ++ s2 \/ w = s1 ++ "M" ++ s2.
Proof.
  cbn [lang Seqs]. split.
  - intros (w1 & w2 & -> & H1 & w3 & w4 & -> & (c & -> & Hc) & H4).
    apply lang_Lit in H1, H4. subst w1 w4. cbn [existsb] in Hc.
    rewrite orb_false_r in Hc. apply orb_true_iff in Hc as [Hc|Hc];
      apply Ascii.eqb_eq in Hc; subst c; [left|right]; reflexivity.
  - intros H.
    assert (E : exists c, w = s1 ++ [c] ++ s2
                          /\ existsb (Ascii.eqb c) ["m"; "M"]%char = true).
    { destruct H as [-> | ->]; eexists; split; reflexivity. }
    destruct E as (c & -> & Hc).
    exists s1, ([c] ++ s2). splits; try reflexivity.
    { apply lang_Lit. reflexivity. }
    exists [c], s2. splits; try reflexivity.
    { exists c. split; [reflexivity|exact Hc]. }
    apply lang_Lit. reflexivity.
Qed.

Lemma not_trimmed_lf (s : str) : ~ trimmed (s ++ [LF]).
Proof. intros [_ H]. specialize (H LF s eq_refl). discriminate H. Qed.

(** X17: the lines that [_scan_line] takes for forward headers.  Once
    stripped, the line is a phrase of [FORWARD_MESSAGES] followed by a
    colon, or it begins with three dashes or more, an optional space and
    such a phrase, and ends with three dashes. *)
Theorem forward_header_shape (l : str) :
  forward_line l = true
  <-> exists ph,
        In ph forward_phrases
        /\ (strip l = ph ++ ":"
            \/ exists n s mid,
                 strip l = "---" ++ repeat "-"%char n ++ s ++ ph ++ mid
                           ++ "---"
                 /\ (s = [] \/ s = " ") /\ ~ In LF mid).
Proof.
  unfold forward_line, EmailMessage.is_forward_header.
  pose proof (strip_trimmed l) as Ht. revert Ht.
  generalize (strip l). clear l. intros t Ht.
  rewrite match_any_exists.
  unfold EmailMessage.FORWARD_REGEXS, EmailMessage.FORWARD_MESSAGES.
  cbn [map app]. rewrite !Exists_cons, Exists_nil.
  rewrite (@dashed_shape _ (fun w => w = "Begin forwarded message")
             (@lang_Lit no_flags "Begin forwarded message")).
  rewrite (@dashed_shape _ _ (@phrase_words "Forwarded " "essage")).
  rewrite (@dashed_shape _ _ (@phrase_words "Original " "essage")).
  rewrite (@colon_shape _ (fun w => w = "Begin forwarded message")
             (@lang_Lit no_flags "Begin forwarded message")).
  rewrite (@colon_shape _ _ (@phrase_words "Forwarded " "essage")).
  rewrite (@colon_shape _ _ (@phrase_words "Original " "essage")).
  assert (Hd : forall (P : str -> Prop),
            (forall ph, P ph -> In ph forward_phrases) ->
            (exists d s ph mid nl,
               t = "---" ++ d ++ s ++ ph ++ mid ++ "---" ++ nl
               /\ forallb (Ascii.eqb "-") d = true /\ (s = [] \/ s = " ")
               /\ P ph /\ ~ In LF mid /\ (nl = [] \/ nl = [LF])) ->
            exists ph,
              In ph forward_phrases
              /\ (t = ph ++ ":"
                  \/ exists n s mid,
                       t = "---" ++ repeat "-"%char n ++ s ++ ph ++ mid
                           ++ "---"
                       /\ (s = [] \/ s = " ") /\ ~ In LF mid)).
  { intros P HP (d & s & ph & mid & nl & E & Hd & Hs & Hp & Hm & Hn).
    exists ph. split; [exact (HP ph Hp)|]. right.
    exists (length d), s, mid. apply forallb_dash in Hd. rewrite <- Hd.
    splits; try assumption. destruct Hn as [-> | ->].
    - rewrite E. revs. reflexivity.
    - exfalso. apply (@not_trimmed_lf ("---" ++ d ++ s ++ ph ++ mid ++ "---")).
      rewrite E in Ht. revert Ht. revs. intros Ht. exact Ht. }
  assert (Hc : forall (P : str -> Prop),
            (forall ph, P ph -> In ph forward_phrases) ->
            (exists ph nl,
               t = ph ++ ":" ++ nl /\ P ph /\ (nl = [] \/ nl = [LF])) ->
            exists ph,
              In ph forward_phrases
              /\ (t = ph ++ ":"
                  \/ exists n s mid,
                       t = "---" ++ repeat "-"%char n ++ s ++ ph ++ mid
                           ++ "---"
                       /\ (s = [] \/ s = " ") /\ ~ In LF mid)).
  { intros P HP (ph & nl & E & Hp & Hn).
    exists ph. split; [exact (HP ph Hp)|]. left.
    destruct Hn as [-> | ->]; [exact E|].
    exfalso. apply (@not_trimmed_lf (ph ++ ":")).
    rewrite E in Ht. revert Ht. revs. intros Ht. exact Ht. }
  assert (H1 : forall ph, ph = "Begin forwarded message" ->
                          In ph forward_phrases).
  { intros ph ->. cbn. tauto. }
  assert (H2 : forall ph,
             ph = "Forwarded " ++ "m" ++ "essage"
             \/ ph = "Forwarded " ++ "M" ++ "essage" ->
             In ph forward_phrases).
  { intros ph [-> | ->]; cbn; tauto. }
  assert (H3 : forall ph,
             ph = "Original " ++ "m" ++ "essage"
             \/ ph = "Original " ++ "M" ++ "essage" ->
             In ph forward_phrases).
  { intros ph [-> | ->]; cbn; tauto. }
  split.
  - intros [H|[H|[H|[H|[H|[H|[]]]]]]].
    + exact (Hd _ H1 H).
    + exact (Hd _ H2 H).
    + exact (Hd _ H3 H).
    + exact (Hc _ H1 H).
    + exact (Hc _ H2 H).
    + exact (Hc _ H3 H).
  - intros (ph & Hin & H).
    assert (Hdash : forall n, forallb (Ascii.eqb "-") (repeat "-"%char n) = true).
    { induction n as [|n IH]; [reflexivity|exact IH]. }
    cbn [forward_phrases In] in Hin.
    destruct H as [E|(n & s & mid & E & Hs & Hm)].
    + destruct Hin as [<-|[<-|[<-|[<-|[<-|[]]]]]].
      * right. right. right. left. exists "Begin forwarded message", [].
        splits; [rewrite E; reflexivity|reflexivity|left; reflexivity].
      * right. right. right. right. left. eexists _, [].
        splits; [rewrite E; reflexivity|left; reflexivity|left; reflexivity].
      * right. right. right. right. left. eexists _, [].
        splits; [rewrite E; reflexivity|right; reflexivity|left; reflexivity].
      * right. right. right. right. right. left. eexists _, [].
        splits; [rewrite E; reflexivity|left; reflexivity|left; reflexivity].
      * right. right. right. right. right. left. eexists _, [].
        splits; [rewrite E; reflexivity|right; reflexivity|left; reflexivity].
    + destruct Hin as [<-|[<-|[<-|[<-|[<-|[]]]]]].
      * left. exists (repeat "-"%char n), s, "Begin forwarded message", mid, [].
        splits; [rewrite E; reflexivity|apply Hdash|exact Hs|reflexivity
                |exact Hm|left; reflexivity].
      * right. left. exists (repeat "-"%char n), s, "Forwarded message", mid, [].
        splits; [rewrite E; reflexivity|apply Hdash|exact Hs|left; reflexivity
                |exact Hm|left; reflexivity].
      * right. left. exists (repeat "-"%char n), s, "Forwarded Message", mid, [].
        splits; [rewrite E; reflexivity|apply Hdash|exact Hs|right; reflexivity
                |exact Hm|left; reflexivity].
      * right. right. left. exists (repeat "-"%char n), s, "Original message", mid, [].
        splits; [rewrite E; reflexivity|apply Hdash|exact Hs|left; reflexivity
                |exact Hm|left; reflexivity].
      * right. right. left. exists (repeat "-"%char n), s, "Original Message", mid, [].
        splits; [rewrite E; reflexivity|apply Hdash|exact Hs|right; reflexivity
                |exact Hm|left; reflexivity].
Qed.

(** *** Quote headers in the text *)

Lemma lang_dashes_nil (fl : flags) (prev : option ascii) (rest : str) :
  lang fl EmailMessage.dashes prev [] rest.
Proof. apply lang_Opt. left. reflexivity. Qed.

(** The texts in which [has_quote_header] finds a quote header. *)
Lemma has_quote_header_iff (text : str) :
  is_some (fst (EmailMessage.has_quote_header text)) = true
  <-> (exists a s b c,
         text = a ++ "On" ++ s :: b ++ "wrote:" ++ c /\ isspace s = true)
      \/ (exists a s b c d,
            text = a ++ "Am" ++ s :: b ++ "schrieb" ++ c ++ ":" ++ d
            /\ isspace s = true)
      \/ (exists a s b w d,
            text = a ++ "Le" ++ s :: b ++ [chr 195; chr 169] ++ "crit" ++ w
                   ++ ":" ++ d
            /\ isspace s = true /\ forallb isspace w = true).
Proof.
  unfold EmailMessage.has_quote_header. rewrite search_any_exists.
  unfold EmailMessage.MULTI_QUOTE_HDR_REGEXS.
  rewrite !Exists_cons, Exists_nil, !re_search_lang. split.
  - intros [H|[H|[H|[]]]]; destruct H as (pre & w & rest & -> & H);
      cbn [lang Seqs] in H.
    + destruct H as (w1 & w2 & -> & _ & w3 & w4 & -> & H3 & w5 & w6 & ->
                     & (s & -> & Hs) & w7 & w8 & -> & _ & H8).
      apply lang_Lit in H3, H8. subst w3 w8.
      left. exists (pre ++ w1), s, w7, rest. split; [|exact Hs].
      revs. reflexivity.
    + destruct H as (w1 & w2 & -> & _ & w3 & w4 & -> & H3 & w5 & w6 & ->
                     & (s & -> & Hs) & w7 & w8 & -> & _ & w9 & w10 & -> & H9
                     & w11 & w12 & -> & _ & ->).
      apply lang_Lit in H3, H9. subst w3 w9.
      right. left. exists (pre ++ w1), s, w7, w11, rest. split; [|exact Hs].
      revs. reflexivity.
    + destruct H as (w1 & w2 & -> & _ & w3 & w4 & -> & H3 & w5 & w6 & ->
                     & (s & -> & Hs) & w7 & w8 & -> & _ & w9 & w10 & -> & ->
                     & w11 & w12 & -> & -> & w13 & w14 & -> & H13 & w15
                     & w16 & -> & H15 & ->).
      apply lang_Lit in H3, H13. subst w3 w13.
      apply (@lang_Star _ Space _ eq_refl) in H15.
      right. right. exists (pre ++ w1), s, w7, w15, rest.
      split; [|split; assumption]. revs. reflexivity.
  - intros [(a & s & b & c & -> & Hs)|[(a & s & b & c & d & -> & Hs)
                                      |(a & s & b & w & d & -> & Hs & Hw)]].
    + left. exists a, ("On" ++ [s] ++ b ++ "wrote:"), c.
      split; [revs; reflexivity|]. cbn [lang Seqs].
      exists [], ("On" ++ [s] ++ b ++ "wrote:"). splits; try reflexivity.
      { apply lang_dashes_nil. }
      exists "On", ([s] ++ b ++ "wrote:"). splits; try reflexivity.
      { apply lang_Lit. reflexivity. }
      exists [s], (b ++ "wrote:"). splits; try reflexivity.
      { exists s. split; [reflexivity|exact Hs]. }
      exists b, "wrote:". splits; try reflexivity.
      { apply (@lang_LazyStar _ Dot _ eq_refl). apply forallb_any. }
      apply lang_Lit. reflexivity.
    + right. left. exists a, ("Am" ++ [s] ++ b ++ "schrieb" ++ c ++ ":"), d.
      split; [revs; reflexivity|]. cbn [lang Seqs].
      exists [], ("Am" ++ [s] ++ b ++ "schrieb" ++ c ++ ":").
      splits; try reflexivity.
      { apply lang_dashes_nil. }
      exists "Am", ([s] ++ b ++ "schrieb" ++ c ++ ":").
      splits; try reflexivity.
      { apply lang_Lit. reflexivity. }
      exists [s], (b ++ "schrieb" ++ c ++ ":"). splits; try reflexivity.
      { exists s. split; [reflexivity|exact Hs]. }
      exists b, ("schrieb" ++ c ++ ":"). splits; try reflexivity.
      { apply (@lang_LazyStar _ Dot _ eq_refl). apply forallb_any. }
      exists "schrieb", (c ++ ":"). splits; try reflexivity.
      { apply lang_Lit. reflexivity. }
      exists c, ":". splits; try reflexivity.
      apply (@lang_Star _ Dot _ eq_refl). apply forallb_any.
    + right. right. left.
      exists a, ("Le" ++ [s] ++ b ++ [chr 195; chr 169] ++ "crit" ++ w ++ ":"),
        d.
      split; [revs; reflexivity|]. cbn [lang Seqs].
      exists [], ("Le" ++ [s] ++ b ++ [chr 195; chr 169] ++ "crit" ++ w ++ ":").
      splits; try reflexivity.
      { apply lang_dashes_nil. }
      exists "Le", ([s] ++ b ++ [chr 195; chr 169] ++ "crit" ++ w ++ ":").
      splits; try reflexivity.
      { apply lang_Lit. reflexivity. }
      exists [s], (b ++ [chr 195; chr 169] ++ "crit" ++ w ++ ":").
      splits; try reflexivity.
      { exists s. split; [reflexivity|exact Hs]. }
      exists b, ([chr 195; chr 169] ++ "crit" ++ w ++ ":").
      splits; try reflexivity.
      { apply (@lang_LazyStar _ Dot _ eq_refl). apply forallb_any. }
      exists [chr 195], ([chr 169] ++ "crit" ++ w ++ ":").
      splits; try reflexivity.
      exists [chr 169], ("crit" ++ w ++ ":"). splits; try reflexivity.
      exists "crit", (w ++ ":"). splits; try reflexivity.
      { apply lang_Lit. reflexivity. }
      exists w, ":". splits; try reflexivity.
      apply (@lang_Star _ Space _ eq_refl). exact Hw.
Qed.

(** X18: the texts in which [has_quote_header] finds a quote header.
    The patterns of [MULTI_QUOTE_HDR_REGEXS] are searched with [DOTALL],
    so that the header may run over any number of lines: the text holds
    [On], a whitespace character and, anywhere after them, [wrote:]; or
    [Am], whitespace, then [schrieb] and later a colon; or [Le],
    whitespace, then the characters 195 and 169, [crit], whitespace and a
    colon. *)
Theorem quote_header_found_shape (text : str) :
  is_some (fst (EmailMessage.has_quote_header text)) = true
  <-> (exists a s b c,
         text = a ++ "On" ++ s :: b ++ "wrote:" ++ c /\ isspace s = true)
      \/ (exists a s b c d,
            text = a ++ "Am" ++ s :: b ++ "schrieb" ++ c ++ ":" ++ d
            /\ isspace s = true)
      \/ (exists a s b w d,
            text = a ++ "Le" ++ s :: b ++ [chr 195; chr 169] ++ "crit" ++ w
                   ++ ":" ++ d
            /\ isspace s = true /\ forallb isspace w = true).
Proof. apply has_quote_header_iff. Qed.

(** X19: a text without a colon holds no quote header: [read] returns a
    message whose text is the text given, but for the line ends that
    [__init__] converts; nothing is joined and no exception is raised. *)
Theorem text_without_colon_not_rewritten (text : str) :
  ~ In ":"%char text ->
  exists m,
    EmailReplyParser.read text = Ok m
    /\ EmailMessage.text m = converted text.
Proof.
  intros Hc. destruct (normalised_cases text) as [[_ Hn]|(m & r & g & Hm & _)].
  - exists (message_of (converted text)).
    split; [apply read_of_normalised; exact Hn|reflexivity].
  - exfalso. apply Hc. apply converted_incl; [discriminate|].
    assert (H : is_some (fst (EmailMessage.has_quote_header (converted text)))
                = true) by (rewrite Hm; reflexivity).
    apply has_quote_header_iff in H.
    destruct H as [(a & s & b & c & -> & _)|[(a & s & b & c & d & -> & _)
                                            |(a & s & b & w & d & -> & _)]];
      repeat (rewrite in_app_iff || cbn [In]); intuition auto.
Qed.

Lemma text_without_colon_not_rewritten_witness :
  exists m,
    EmailReplyParser.read (text_of ["Hi,"; "see you"])
    = Ok m
    /\ EmailMessage.text m = converted (text_of ["Hi,"; "see you"]).
Proof.
  apply (@text_without_colon_not_rewritten (text_of ["Hi,"; "see you"])).
  vm_compute. intros H.
  repeat (destruct H as [H|H]; [discriminate H|]). exact H.
Defined.

End Tables.
